(** * Content-change detection engine: [src/modules/content_comparator.py]

    A shallow embedding of [ContentComparator.compare] and of the helpers it
    calls, together with the properties the specification states about it.

    Conventions of the embedding.
    - A Python [str] is a list of Unicode code points ([Z]); literals are
      written as UTF-8 text and decoded by [u].
    - A Python [float] is an IEEE binary64 number: Rocq's primitive [float].
    - Code that can raise returns an [outcome]; the only loop that is not
      bounded by its own guard ([get_matching_blocks]'s work queue) runs on
      fuel and reports [OutOfFuel], which is shown never to happen.
    - The parts of the Unicode character database that the code consults
      through [str.lower], [re.IGNORECASE] and [\d] are a parameter
      ([UnicodeData]); the order in which a Python [set] is iterated, which
      depends on the interpreter's hash seed, is a parameter too
      ([HashSeed]). *)

From Stdlib Require Import String Ascii.
From Stdlib Require Import List ZArith Lia Bool Permutation.
From Stdlib Require Import Floats Uint63.
Import ListNotations.
Open Scope list_scope.
Open Scope Z_scope.

(** ** Outcomes of Python code *)

Inductive exn : Type :=
| UnicodeEncodeError
| ValueError
| IndexError
| KeyError
| ZeroDivisionError.

Inductive outcome (A : Type) : Type :=
| Ok (a : A)
| Raise (e : exn)
| OutOfFuel.

Arguments Ok {A} a.
Arguments Raise {A} e.
Arguments OutOfFuel {A}.

Definition bind {A B : Type} (m : outcome A) (k : A -> outcome B) : outcome B :=
  match m with
  | Ok a => k a
  | Raise e => Raise e
  | OutOfFuel => OutOfFuel
  end.

Notation "x <- m ;; k" := (bind m (fun x => k))
  (at level 61, m at next level, right associativity).
Notation "' p <- m ;; k" := (bind m (fun x => match x with p => k end))
  (at level 61, p pattern, m at next level, right associativity).

(** ** Python strings *)

Definition char := Z.
Definition str := list char.

(** Code points of a Python [str]: [range(0x110000)]. *)
Definition is_str (s : str) : Prop := Forall (fun c => 0 <= c <= 0x10FFFF) s.

Definition str_eqb (s t : str) : bool :=
  if list_eq_dec Z.eq_dec s t then true else false.

(** [s.startswith(p)]. *)
Fixpoint startswith (p s : str) : bool :=
  match p, s with
  | [], _ => true
  | _ :: _, [] => false
  | a :: p', b :: s' => (a =? b) && startswith p' s'
  end.

(** UTF-8 decoding of the bytes of a literal, used only to write literals. *)
Fixpoint utf8_decode (bs : list Z) : str :=
  match bs with
  | [] => []
  | b0 :: r0 =>
    if b0 <? 0x80 then b0 :: utf8_decode r0
    else match r0 with
    | [] => [b0]
    | b1 :: r1 =>
      if b0 <? 0xE0
      then (Z.land b0 0x1F * 64 + Z.land b1 0x3F) :: utf8_decode r1
      else match r1 with
      | [] => [b0; b1]
      | b2 :: r2 =>
        if b0 <? 0xF0
        then (Z.land b0 0x0F * 4096 + Z.land b1 0x3F * 64 + Z.land b2 0x3F)
               :: utf8_decode r2
        else match r2 with
        | [] => [b0; b1; b2]
        | b3 :: r3 =>
          (Z.land b0 0x07 * 262144 + Z.land b1 0x3F * 4096
           + Z.land b2 0x3F * 64 + Z.land b3 0x3F) :: utf8_decode r3
        end
      end
    end
  end.

Definition bytes_of_literal (s : string) : list Z :=
  map (fun a => Z.of_nat (nat_of_ascii a)) (list_ascii_of_string s).

(** A string literal. *)
Definition u (s : string) : str := utf8_decode (bytes_of_literal s).

(** [str.isspace] on one character: CPython's [_PyUnicode_IsWhitespace]. *)
Definition is_whitespace (c : char) : bool :=
  ((0x09 <=? c) && (c <=? 0x0D)) || ((0x1C <=? c) && (c <=? 0x20))
  || (c =? 0x85) || (c =? 0xA0) || (c =? 0x1680)
  || ((0x2000 <=? c) && (c <=? 0x200A))
  || (c =? 0x2028) || (c =? 0x2029) || (c =? 0x202F) || (c =? 0x205F)
  || (c =? 0x3000).

(** Line boundaries of [str.splitlines]: CPython's [_PyUnicode_IsLinebreak]. *)
Definition is_linebreak (c : char) : bool :=
  ((0x0A <=? c) && (c <=? 0x0D)) || ((0x1C <=? c) && (c <=? 0x1E))
  || (c =? 0x85) || (c =? 0x2028) || (c =? 0x2029).

(** [s.splitlines()]: [cur] is the current line, reversed. A carriage
    return followed by a line feed is one boundary; a final line without a
    boundary is kept, an empty remainder is not. *)
Fixpoint splitlines_from (cur : str) (s : str) : list str :=
  match s with
  | [] => match cur with [] => [] | _ :: _ => [rev cur] end
  | c :: s' =>
    if is_linebreak c then
      rev cur ::
        match s' with
        | d :: s'' =>
          if (c =? 13) && (d =? 10) then splitlines_from [] s''
          else splitlines_from [] s'
        | [] => splitlines_from [] s'
        end
    else splitlines_from (c :: cur) s'
  end.

Definition splitlines (s : str) : list str := splitlines_from [] s.

(** [s.split()]: maximal runs of non-whitespace characters. *)
Fixpoint split_from (cur : str) (s : str) : list str :=
  match s with
  | [] => match cur with [] => [] | _ :: _ => [rev cur] end
  | c :: s' =>
    if is_whitespace c then
      match cur with
      | [] => split_from [] s'
      | _ :: _ => rev cur :: split_from [] s'
      end
    else split_from (c :: cur) s'
  end.

Definition split (s : str) : list str := split_from [] s.

(** [sep.join(parts)]. *)
Fixpoint join (sep : str) (parts : list str) : str :=
  match parts with
  | [] => []
  | [p] => p
  | p :: ps => p ++ sep ++ join sep ps
  end.

Fixpoint lstrip (s : str) : str :=
  match s with
  | [] => []
  | c :: s' => if is_whitespace c then lstrip s' else s
  end.

Definition rstrip (s : str) : str := rev (lstrip (rev s)).

(** [s.strip()]. *)
Definition strip (s : str) : str := rstrip (lstrip s).

(** Truth value of a string: non-empty. *)
Definition truthy (s : str) : bool :=
  match s with [] => false | _ :: _ => true end.

(** Decimal digits of a natural number, [str(n)]. *)
Fixpoint digits_fuel (fuel : nat) (n : Z) (acc : str) : str :=
  match fuel with
  | O => acc
  | S fuel' =>
    let acc' := (48 + n mod 10) :: acc in
    if n <? 10 then acc' else digits_fuel fuel' (n / 10) acc'
  end.

Definition str_of_Z (n : Z) : str := digits_fuel (S (Z.to_nat (Z.log2 n))) n [].

(** ** [str.encode()]: UTF-8, strict *)

Definition encode_char (c : char) : outcome (list Z) :=
  if c <? 0x80 then Ok [c]
  else if c <? 0x800 then
    Ok [Z.lor 0xC0 (Z.shiftr c 6); Z.lor 0x80 (Z.land c 0x3F)]
  else if c <? 0x10000 then
    if (0xD800 <=? c) && (c <=? 0xDFFF) then Raise UnicodeEncodeError
    else Ok [Z.lor 0xE0 (Z.shiftr c 12);
             Z.lor 0x80 (Z.land (Z.shiftr c 6) 0x3F);
             Z.lor 0x80 (Z.land c 0x3F)]
  else
    Ok [Z.lor 0xF0 (Z.shiftr c 18);
        Z.lor 0x80 (Z.land (Z.shiftr c 12) 0x3F);
        Z.lor 0x80 (Z.land (Z.shiftr c 6) 0x3F);
        Z.lor 0x80 (Z.land c 0x3F)].

Fixpoint encode (s : str) : outcome (list Z) :=
  match s with
  | [] => Ok []
  | c :: s' =>
    bs <- encode_char c ;;
    rest <- encode s' ;;
    Ok (bs ++ rest)
  end.

(** A string [encode] accepts: no lone surrogate. *)
Definition encodable (s : str) : Prop :=
  Forall (fun c => (0xD800 <=? c) && (c <=? 0xDFFF) = false) s.

(** ** [hashlib.md5(...).hexdigest()] (RFC 1321) *)

Module MD5.

Definition mask32 : Z := 0xFFFFFFFF.
Definition add32 (x y : Z) : Z := Z.land (x + y) mask32.
Definition not32 (x : Z) : Z := Z.lxor x mask32.
Definition rotl32 (x n : Z) : Z :=
  Z.land (Z.lor (Z.shiftl x n) (Z.shiftr x (32 - n))) mask32.

Definition K : list Z :=
  [0xd76aa478; 0xe8c7b756; 0x242070db; 0xc1bdceee;
   0xf57c0faf; 0x4787c62a; 0xa8304613; 0xfd469501;
   0x698098d8; 0x8b44f7af; 0xffff5bb1; 0x895cd7be;
   0x6b901122; 0xfd987193; 0xa679438e; 0x49b40821;
   0xf61e2562; 0xc040b340; 0x265e5a51; 0xe9b6c7aa;
   0xd62f105d; 0x02441453; 0xd8a1e681; 0xe7d3fbc8;
   0x21e1cde6; 0xc33707d6; 0xf4d50d87; 0x455a14ed;
   0xa9e3e905; 0xfcefa3f8; 0x676f02d9; 0x8d2a4c8a;
   0xfffa3942; 0x8771f681; 0x6d9d6122; 0xfde5380c;
   0xa4beea44; 0x4bdecfa9; 0xf6bb4b60; 0xbebfbc70;
   0x289b7ec6; 0xeaa127fa; 0xd4ef3085; 0x04881d05;
   0xd9d4d039; 0xe6db99e5; 0x1fa27cf8; 0xc4ac5665;
   0xf4292244; 0x432aff97; 0xab9423a7; 0xfc93a039;
   0x655b59c3; 0x8f0ccc92; 0xffeff47d; 0x85845dd1;
   0x6fa87e4f; 0xfe2ce6e0; 0xa3014314; 0x4e0811a1;
   0xf7537e82; 0xbd3af235; 0x2ad7d2bb; 0xeb86d391].

Definition shifts : list Z :=
  [7; 12; 17; 22; 7; 12; 17; 22; 7; 12; 17; 22; 7; 12; 17; 22;
   5; 9; 14; 20; 5; 9; 14; 20; 5; 9; 14; 20; 5; 9; 14; 20;
   4; 11; 16; 23; 4; 11; 16; 23; 4; 11; 16; 23; 4; 11; 16; 23;
   6; 10; 15; 21; 6; 10; 15; 21; 6; 10; 15; 21; 6; 10; 15; 21].

Definition state : Type := (Z * Z * Z * Z)%type.

Definition init : state := (0x67452301, 0xefcdab89, 0x98badcfe, 0x10325476).

(** Message padding: a 1 bit, zeros up to 56 modulo 64, and the length in
    bits as 8 little-endian bytes. *)
Definition le_bytes (n : nat) (x : Z) : list Z :=
  map (fun i => Z.land (Z.shiftr x (8 * Z.of_nat i)) 0xFF) (seq 0 n).

Definition pad (msg : list Z) : list Z :=
  let len := Z.of_nat (List.length msg) in
  let zeros := Z.to_nat ((55 - len) mod 64) in
  msg ++ [0x80] ++ repeat 0 zeros ++ le_bytes 8 ((8 * len) mod 2 ^ 64).

Definition word_of_le (bs : list Z) : Z :=
  fold_right (fun b acc => b + 256 * acc) 0 bs.

(** The sixteen 32-bit words of a 64-byte block. *)
Fixpoint words (n : nat) (bs : list Z) : list Z :=
  match n with
  | O => []
  | S n' => word_of_le (firstn 4 bs) :: words n' (skipn 4 bs)
  end.

Definition step (M : list Z) (st : state) (i : nat) : state :=
  let '(a, b, c, d) := st in
  let iz := Z.of_nat i in
  let '(f, g) :=
    if iz <? 16 then (Z.lor (Z.land b c) (Z.land (not32 b) d), iz)
    else if iz <? 32 then
      (Z.lor (Z.land d b) (Z.land (not32 d) c), (5 * iz + 1) mod 16)
    else if iz <? 48 then (Z.lxor (Z.lxor b c) d, (3 * iz + 5) mod 16)
    else (Z.lxor c (Z.lor b (not32 d)), (7 * iz) mod 16) in
  let f' := add32 (add32 (add32 f a) (nth i K 0)) (nth (Z.to_nat g) M 0) in
  (d, add32 b (rotl32 f' (nth i shifts 0)), b, c).

Definition compress (st : state) (block : list Z) : state :=
  let M := words 16 block in
  let '(a, b, c, d) := fold_left (step M) (seq 0 64) st in
  let '(a0, b0, c0, d0) := st in
  (add32 a0 a, add32 b0 b, add32 c0 c, add32 d0 d).

Fixpoint blocks (n : nat) (bs : list Z) (st : state) : state :=
  match n with
  | O => st
  | S n' => blocks n' (skipn 64 bs) (compress st (firstn 64 bs))
  end.

Definition digest (msg : list Z) : list Z :=
  let p := pad msg in
  let '(a, b, c, d) := blocks (Nat.div (List.length p) 64) p init in
  le_bytes 4 a ++ le_bytes 4 b ++ le_bytes 4 c ++ le_bytes 4 d.

Definition hex_digit (n : Z) : char := if n <? 10 then 48 + n else 87 + n.

Definition hexdigest (msg : list Z) : str :=
  flat_map (fun b => [hex_digit (b / 16); hex_digit (b mod 16)]) (digest msg).

End MD5.

(** ** The Unicode character database

    [str.lower], the case-insensitive matching of [re] and the class [\d]
    consult CPython's Unicode tables. On ASCII their content is fixed and
    written out below; outside ASCII it is taken as a parameter. *)

Record UnicodeData : Type := {
  (** [str.lower] of a string with a non-ASCII character *)
  ucd_lower : str -> str;
  (** simple lower-case mapping of a non-ASCII character *)
  ucd_tolower : char -> char;
  (** membership of a non-ASCII character in category Nd *)
  ucd_decimal : char -> bool
}.

Definition is_ascii (c : char) : bool := (0 <=? c) && (c <? 128).

Definition is_ascii_letter (c : char) : bool :=
  ((65 <=? c) && (c <=? 90)) || ((97 <=? c) && (c <=? 122)).

Definition ascii_lower (c : char) : char :=
  if (65 <=? c) && (c <=? 90) then c + 32 else c.

Section Unicode.

Variable ucd : UnicodeData.

(** [s.lower()]. *)
Definition lower (s : str) : str :=
  if forallb is_ascii s then map ascii_lower s else ucd_lower ucd s.

(** [Py_UNICODE_TOLOWER]. *)
Definition tolower (c : char) : char :=
  if is_ascii c then ascii_lower c else ucd_tolower ucd c.

(** [Py_UNICODE_ISDECIMAL]. *)
Definition isdecimal (c : char) : bool :=
  if is_ascii c then (48 <=? c) && (c <=? 57) else ucd_decimal ucd c.

(** ** [re.search(pattern, line, re.IGNORECASE)]

    Every pattern of [DYNAMIC_PATTERNS] is a sequence of one-character
    atoms, each with a repetition range; a pattern is embedded as the list
    of its items. *)

Inductive atom : Type :=
| Lit (c : char)   (** a literal character of the pattern *)
| Digit            (** [\d] *)
| AnyChar.         (** [.] *)

Record item : Type := Item {
  it_atom : atom;
  it_min : nat;
  it_max : option nat   (** [None]: no upper bound *)
}.

Definition pattern := list item.

(** Characters that [sre_compile] adds to a lower-case ASCII letter under
    [IGNORECASE] (its table of equivalences): dotless i for [i], long s for
    [s]. *)
Definition fixes (lo : char) : list char :=
  if lo =? 0x69 then [0x131] else if lo =? 0x73 then [0x17F] else [].

(** One character against one atom. A cased literal (here: an ASCII letter)
    matches the characters whose lower case is its own or one of its
    equivalents; any other literal of these patterns has no case and
    matches itself only. [.] matches all but a line feed. *)
Definition atom_match (a : atom) (ch : char) : bool :=
  match a with
  | Lit c =>
    if is_ascii_letter c then
      let lo := ascii_lower c in
      existsb (Z.eqb (tolower ch)) (lo :: fixes lo)
    else ch =? c
  | Digit => isdecimal ch
  | AnyChar => negb (ch =? 10)
  end.

Definition dec_max (m : option nat) : option nat := option_map Nat.pred m.

(** A repetition of a one-character test, greedy, followed by the
    continuation [k]: at least [lo] and at most [hi] characters. *)
Fixpoint match_repeat (p : char -> bool) (k : str -> bool)
    (lo : nat) (hi : option nat) (s : str) {struct s} : bool :=
  match lo with
  | S lo' =>
    match s with
    | c :: s' => p c && match_repeat p k lo' (dec_max hi) s'
    | [] => false
    end
  | O =>
    match hi with
    | Some O => k s
    | _ =>
      match s with
      | c :: s' => (p c && match_repeat p k O (dec_max hi) s') || k s
      | [] => k s
      end
    end
  end.

(** The pattern matches at the start of [s]. *)
Fixpoint match_here (p : pattern) (s : str) : bool :=
  match p with
  | [] => true
  | it :: p' =>
    match_repeat (atom_match (it_atom it)) (match_here p')
      (it_min it) (it_max it) s
  end.

(** [re.search]: the pattern matches at some position of [s]. *)
Fixpoint search (p : pattern) (s : str) : bool :=
  match_here p s ||
  match s with
  | [] => false
  | _ :: s' => search p s'
  end.

End Unicode.

Definition once (a : atom) : item := Item a 1 (Some 1%nat).
Definition times (n : nat) (a : atom) : item := Item a n (Some n).
Definition lits (s : string) : pattern := map (fun c => once (Lit c)) (u s).
Definition any_star : item := Item AnyChar 0 None.

(** [ContentComparator.DYNAMIC_PATTERNS], in the order of the source. *)
Definition DYNAMIC_PATTERNS : list pattern :=
  [ (* \d{4}-\d{2}-\d{2} *)
    [times 4 Digit] ++ lits "-" ++ [times 2 Digit] ++ lits "-" ++ [times 2 Digit];
    (* \d{2}/\d{2}/\d{4} *)
    [times 2 Digit] ++ lits "/" ++ [times 2 Digit] ++ lits "/" ++ [times 4 Digit];
    (* \d{1,2}:\d{2}:\d{2} *)
    [Item Digit 1 (Some 2%nat)] ++ lits ":" ++ [times 2 Digit] ++ lits ":"
      ++ [times 2 Digit];
    (* Updated:.* *)
    lits "Updated:" ++ [any_star];
    (* Last modified:.* *)
    lits "Last modified:" ++ [any_star];
    (* Session ID:.* *)
    lits "Session ID:" ++ [any_star];
    (* Cookie:.* *)
    lits "Cookie:" ++ [any_star];
    (* \d+ visitors? online *)
    [Item Digit 1 None] ++ lits " visitor" ++ [Item (Lit 115) 0 (Some 1%nat)]
      ++ lits " online";
    (* Copyright © \d{4} *)
    lits "Copyright © " ++ [times 4 Digit];
    (* Generated on.* *)
    lits "Generated on" ++ [any_star] ].


(** ** Python numbers *)

(** [float(n)] for an [int]: the nearest binary64 number. *)
Definition float_of_int (n : Z) : float :=
  SF2Prim (binary_normalize prec emax n 0 false).

(** [a / b] on two [int]s. CPython rounds the exact quotient; the model
    divides the two conversions, which is the same number whenever both
    operands are below 2^53, as the length of a list in memory is. *)
Definition truediv (a b : Z) : outcome float :=
  if b =? 0 then Raise ZeroDivisionError
  else Ok (float_of_int a / float_of_int b)%float.

Definition round_half_even (num den : Z) : Z :=
  let q := num / den in
  let r := num mod den in
  if (den <? 2 * r) || ((den =? 2 * r) && Z.odd q) then q + 1 else q.

(** [f"{x:.2f}"]: the exact value of [x], rounded to two decimals, ties to
    even. *)
Definition format_2f (x : float) : str :=
  match Prim2SF x with
  | S754_nan => u "nan"
  | S754_infinity s => if s then u "-inf" else u "inf"
  | S754_zero s => if s then u "-0.00" else u "0.00"
  | S754_finite s m e =>
    let n :=
      match e with
      | Zneg p => round_half_even (Zpos m * 100) (2 ^ Zpos p)
      | _ => Zpos m * 100 * 2 ^ e
      end in
    (if s then u "-" else []) ++ str_of_Z (n / 100) ++ u "."
      ++ [48 + (n mod 100) / 10; 48 + (n mod 100) mod 10]
  end.

(** ** Python sequences *)

(** [l[i]], with Python's negative indices. *)
Definition getitem {A : Type} (l : list A) (i : Z) : outcome A :=
  let n := Z.of_nat (List.length l) in
  let i' := if i <? 0 then i + n else i in
  if (0 <=? i') && (i' <? n) then
    match nth_error l (Z.to_nat i') with
    | Some x => Ok x
    | None => Raise IndexError
    end
  else Raise IndexError.

Definition clamp (n i : Z) : Z :=
  if i <? 0 then Z.max 0 (i + n) else Z.min i n.

(** [l[i:j]]. *)
Definition slice {A : Type} (l : list A) (i j : Z) : list A :=
  let n := Z.of_nat (List.length l) in
  firstn (Z.to_nat (clamp n j - clamp n i)) (skipn (Z.to_nat (clamp n i)) l).

(** The order in which a [set] is iterated depends on the hash seed of the
    interpreter: it is some rearrangement of the elements. *)
Record HashSeed : Type := {
  set_order : forall T : Type, list T -> list T
}.

Definition valid_seed (seed : HashSeed) : Prop :=
  forall (T : Type) (l : list T), Permutation (set_order seed T l) l.

(** ** [difflib] (CPython's [Lib/difflib.py]) *)

Module Difflib.

Definition Match : Type := (Z * Z * Z)%type.

Inductive tag : Type := Replace | Delete | Insert | Equal.

Definition opcode : Type := (tag * Z * Z * Z * Z)%type.

Definition is_equal (t : tag) : bool :=
  match t with Equal => true | _ => false end.

(** *** [SequenceMatcher(None, a, b)]: no junk predicate, [autojunk] on *)

Section SequenceMatcher.

Context {T : Type}.
Variable eqb : T -> T -> bool.
Variable seed : HashSeed.

(** [b2j]: a [dict] from the elements of [b] to the increasing list of
    their positions, keys in order of insertion. *)
Definition b2j_t : Type := list (T * list Z).

(** [b2j.setdefault(elt, []).append(i)]. *)
Fixpoint setdefault_append (d : b2j_t) (elt : T) (i : Z) : b2j_t :=
  match d with
  | [] => [(elt, [i])]
  | (key, idxs) :: d' =>
    if eqb key elt then (key, idxs ++ [i]) :: d'
    else (key, idxs) :: setdefault_append d' elt i
  end.

Fixpoint dict_get (d : b2j_t) (elt : T) : option (list Z) :=
  match d with
  | [] => None
  | (key, idxs) :: d' => if eqb key elt then Some idxs else dict_get d' elt
  end.

(** [del b2j[elt]]. *)
Fixpoint dict_del (d : b2j_t) (elt : T) : outcome b2j_t :=
  match d with
  | [] => Raise KeyError
  | (key, idxs) :: d' =>
    if eqb key elt then Ok d'
    else d'' <- dict_del d' elt ;; Ok ((key, idxs) :: d'')
  end.

(** [for i, elt in enumerate(b)]. *)
Fixpoint index_elements (i : Z) (b : list T) (d : b2j_t) : b2j_t :=
  match b with
  | [] => d
  | elt :: b' => index_elements (i + 1) b' (setdefault_append d elt i)
  end.

(** The elements that occur more than [ntest] times, as added to the set
    [popular]. *)
Definition find_popular (ntest : Z) (d : b2j_t) : list T :=
  map fst
    (filter (fun kv => ntest <? Z.of_nat (List.length (snd kv))) d).

(** [for elt in popular: del b2j[elt]]. *)
Fixpoint purge (elts : list T) (d : b2j_t) : outcome b2j_t :=
  match elts with
  | [] => Ok d
  | elt :: rest => d' <- dict_del d elt ;; purge rest d'
  end.

(** [__chain_b]. *)
Definition chain_b (b : list T) : outcome b2j_t :=
  let b2j := index_elements 0 b [] in
  let n := Z.of_nat (List.length b) in
  if 200 <=? n then
    let ntest := n / 100 + 1 in
    purge (set_order seed T (find_popular ntest b2j)) b2j
  else Ok b2j.

Variables a b : list T.
Variable b2j : b2j_t.

(** [j2len]: a [dict] from positions to lengths; the latest binding of a
    key comes first. *)
Fixpoint j2len_get (d : list (Z * Z)) (j : Z) : Z :=
  match d with
  | [] => 0
  | (key, k) :: d' => if key =? j then k else j2len_get d' j
  end.

Section FindLongestMatch.

Variables alo ahi blo bhi : Z.

(** [for j in b2j.get(a[i], nothing)], with its [continue] and [break]. *)
Fixpoint scan_row (i : Z) (j2len : list (Z * Z)) (js : list Z)
    (newj2len : list (Z * Z)) (best : Match) : list (Z * Z) * Match :=
  match js with
  | [] => (newj2len, best)
  | j :: js' =>
    if j <? blo then scan_row i j2len js' newj2len best
    else if bhi <=? j then (newj2len, best)
    else
      let k := j2len_get j2len (j - 1) + 1 in
      let '(besti, bestj, bestsize) := best in
      scan_row i j2len js' ((j, k) :: newj2len)
        (if bestsize <? k then (i - k + 1, j - k + 1, k) else best)
  end.

(** [for i in range(alo, ahi)]: [n] rows are left, starting at [i]. *)
Fixpoint scan_rows (n : nat) (i : Z) (j2len : list (Z * Z)) (best : Match)
    : outcome Match :=
  match n with
  | O => Ok best
  | S n' =>
    x <- getitem a i ;;
    let js := match dict_get b2j x with Some l => l | None => [] end in
    let '(newj2len, best') := scan_row i j2len js [] best in
    scan_rows n' (i + 1) newj2len best'
  end.

(** [while besti > alo and bestj > blo and not isbjunk(b[bestj-1]) and
    a[besti-1] == b[bestj-1]]; [n] is [besti - alo], so the first test
    holds exactly when [n] is a successor. [bjunk] is empty. *)
Fixpoint extend_back (n : nat) (best : Match) : outcome Match :=
  let '(besti, bestj, bestsize) := best in
  match n with
  | O => Ok best
  | S n' =>
    if blo <? bestj then
      _ <- getitem b (bestj - 1) ;;
      x <- getitem a (besti - 1) ;;
      y <- getitem b (bestj - 1) ;;
      if eqb x y then extend_back n' (besti - 1, bestj - 1, bestsize + 1)
      else Ok best
    else Ok best
  end.

(** [while besti+bestsize < ahi and bestj+bestsize < bhi and not
    isbjunk(b[bestj+bestsize]) and a[besti+bestsize] == b[bestj+bestsize]];
    [n] is [ahi - (besti+bestsize)]. *)
Fixpoint extend_forward (n : nat) (best : Match) : outcome Match :=
  let '(besti, bestj, bestsize) := best in
  match n with
  | O => Ok best
  | S n' =>
    if bestj + bestsize <? bhi then
      _ <- getitem b (bestj + bestsize) ;;
      x <- getitem a (besti + bestsize) ;;
      y <- getitem b (bestj + bestsize) ;;
      if eqb x y then extend_forward n' (besti, bestj, bestsize + 1)
      else Ok best
    else Ok best
  end.

(** The two loops that absorb matching junk: their test [isbjunk(...)] is
    evaluated once and is false, [bjunk] being empty. *)
Definition junk_back (best : Match) : outcome Match :=
  let '(besti, bestj, bestsize) := best in
  if (alo <? besti) && (blo <? bestj) then
    _ <- getitem b (bestj - 1) ;; Ok best
  else Ok best.

Definition junk_forward (best : Match) : outcome Match :=
  let '(besti, bestj, bestsize) := best in
  if (besti + bestsize <? ahi) && (bestj + bestsize <? bhi) then
    _ <- getitem b (bestj + bestsize) ;; Ok best
  else Ok best.

Definition find_longest_match : outcome Match :=
  best <- scan_rows (Z.to_nat (ahi - alo)) alo [] (alo, blo, 0) ;;
  best <- extend_back (Z.to_nat (fst (fst best) - alo)) best ;;
  best <- extend_forward
            (Z.to_nat (ahi - (fst (fst best) + snd best))) best ;;
  best <- junk_back best ;;
  junk_forward best.

End FindLongestMatch.

(** [while queue:] of [get_matching_blocks]. [queue] is used as a stack;
    the head of the model's list is the last element of the Python list. *)
Fixpoint match_queue (fuel : nat) (queue : list (Z * Z * Z * Z))
    (matching_blocks : list Match) : outcome (list Match) :=
  match queue with
  | [] => Ok matching_blocks
  | (alo, ahi, blo, bhi) :: queue' =>
    match fuel with
    | O => OutOfFuel
    | S fuel' =>
      x <- find_longest_match alo ahi blo bhi ;;
      let '(i, j, k) := x in
      if k =? 0 then match_queue fuel' queue' matching_blocks
      else
        let q1 :=
          if (alo <? i) && (blo <? j) then (alo, i, blo, j) :: queue'
          else queue' in
        let q2 :=
          if (i + k <? ahi) && (j + k <? bhi)
          then (i + k, ahi, j + k, bhi) :: q1 else q1 in
        match_queue fuel' q2 (matching_blocks ++ [x])
    end
  end.

End SequenceMatcher.

(** Order of tuples of integers. *)
Definition match_ltb (x y : Match) : bool :=
  let '(i1, j1, k1) := x in
  let '(i2, j2, k2) := y in
  (i1 <? i2) || ((i1 =? i2) && ((j1 <? j2) || ((j1 =? j2) && (k1 <? k2)))).

Fixpoint insert_sorted (x : Match) (l : list Match) : list Match :=
  match l with
  | [] => [x]
  | y :: l' => if match_ltb y x then y :: insert_sorted x l' else x :: l
  end.

(** [matching_blocks.sort()]. *)
Definition sort (l : list Match) : list Match :=
  fold_right insert_sorted [] l.

(** The loop that merges adjacent blocks, and what follows it. *)
Fixpoint collapse (blocks : list Match) (cur : Match)
    (non_adjacent : list Match) : list Match :=
  let '(i1, j1, k1) := cur in
  match blocks with
  | [] => if k1 =? 0 then non_adjacent else non_adjacent ++ [cur]
  | (i2, j2, k2) :: blocks' =>
    if (i1 + k1 =? i2) && (j1 + k1 =? j2)
    then collapse blocks' (i1, j1, k1 + k2) non_adjacent
    else collapse blocks' (i2, j2, k2)
           (if k1 =? 0 then non_adjacent else non_adjacent ++ [cur])
  end.

Section Matcher.

Context {T : Type}.
Variable eqb : T -> T -> bool.
Variable seed : HashSeed.
Variables a b : list T.

(** The work queue starts with one range and each round replaces a range
    by shorter ones: [2 * len(a) + 1] rounds are enough. *)
Definition get_matching_blocks : outcome (list Match) :=
  let la := Z.of_nat (List.length a) in
  let lb := Z.of_nat (List.length b) in
  b2j <- chain_b eqb seed b ;;
  blocks <- match_queue eqb a b b2j (S (2 * List.length a))
              [(0, la, 0, lb)] [] ;;
  Ok (collapse (sort blocks) (0, 0, 0) [] ++ [(la, lb, 0)]).

(** The loop of [get_opcodes]. *)
Fixpoint opcodes_from (blocks : list Match) (i j : Z) (answer : list opcode)
    : list opcode :=
  match blocks with
  | [] => answer
  | (ai, bj, size) :: blocks' =>
    let answer1 :=
      if (i <? ai) && (j <? bj) then answer ++ [(Replace, i, ai, j, bj)]
      else if i <? ai then answer ++ [(Delete, i, ai, j, bj)]
      else if j <? bj then answer ++ [(Insert, i, ai, j, bj)]
      else answer in
    let answer2 :=
      if size =? 0 then answer1
      else answer1 ++ [(Equal, ai, ai + size, bj, bj + size)] in
    opcodes_from blocks' (ai + size) (bj + size) answer2
  end.

Definition get_opcodes : outcome (list opcode) :=
  blocks <- get_matching_blocks ;;
  Ok (opcodes_from blocks 0 0 []).

(** [ratio()] and [_calculate_ratio]. *)
Definition ratio : outcome float :=
  blocks <- get_matching_blocks ;;
  let matches := fold_left Z.add (map snd blocks) 0 in
  let length := Z.of_nat (List.length a) + Z.of_nat (List.length b) in
  if length =? 0 then Ok 1%float
  else Ok (2 * float_of_int matches / float_of_int length)%float.

End Matcher.

(** *** [get_grouped_opcodes(n)] *)

Definition fix_first (n : Z) (codes : list opcode) : list opcode :=
  match codes with
  | (Equal, i1, i2, j1, j2) :: rest =>
    (Equal, Z.max i1 (i2 - n), i2, Z.max j1 (j2 - n), j2) :: rest
  | _ => codes
  end.

Fixpoint fix_last (n : Z) (codes : list opcode) : list opcode :=
  match codes with
  | [] => []
  | [(Equal, i1, i2, j1, j2)] =>
    [(Equal, i1, Z.min i2 (i1 + n), j1, Z.min j2 (j1 + n))]
  | c :: rest => c :: fix_last n rest
  end.

(** The loop over the codes: [group] is the group being built, [groups]
    those already yielded. *)
Fixpoint group_codes (n : Z) (codes : list opcode) (group : list opcode)
    (groups : list (list opcode)) : list (list opcode) * list opcode :=
  match codes with
  | [] => (groups, group)
  | (t, i1, i2, j1, j2) :: rest =>
    if is_equal t && (n + n <? i2 - i1) then
      group_codes n rest
        [(t, Z.max i1 (i2 - n), i2, Z.max j1 (j2 - n), j2)]
        (groups ++ [group ++ [(t, i1, Z.min i2 (i1 + n), j1, Z.min j2 (j1 + n))]])
    else group_codes n rest (group ++ [(t, i1, i2, j1, j2)]) groups
  end.

Definition grouped (n : Z) (codes : list opcode) : list (list opcode) :=
  let codes0 := match codes with [] => [(Equal, 0, 1, 0, 1)] | _ => codes end in
  let codes1 := fix_last n (fix_first n codes0) in
  let '(groups, group) := group_codes n codes1 [] [] in
  match group with
  | [] => groups
  | [(Equal, _, _, _, _)] => groups
  | _ => groups ++ [group]
  end.

(** *** [unified_diff(a, b, lineterm='', n=0)] on lists of lines *)

Definition _format_range_unified (start stop : Z) : str :=
  let beginning := start + 1 in
  let length := stop - start in
  if length =? 1 then str_of_Z beginning
  else
    let beginning := if length =? 0 then beginning - 1 else beginning in
    str_of_Z beginning ++ u "," ++ str_of_Z length.

(** The lines of one opcode. *)
Definition opcode_lines (a b : list str) (c : opcode) : list str :=
  let '(t, i1, i2, j1, j2) := c in
  match t with
  | Equal => map (app (u " ")) (slice a i1 i2)
  | Replace =>
    map (app (u "-")) (slice a i1 i2) ++ map (app (u "+")) (slice b j1 j2)
  | Delete => map (app (u "-")) (slice a i1 i2)
  | Insert => map (app (u "+")) (slice b j1 j2)
  end.

(** The hunk header and the lines of one group. *)
Definition group_lines (a b : list str) (group : list opcode)
    : outcome (list str) :=
  first <- getitem group 0 ;;
  last <- getitem group (-1) ;;
  let '(_, f1, _, f3, _) := first in
  let '(_, _, l2, _, l4) := last in
  let file1_range := _format_range_unified f1 l2 in
  let file2_range := _format_range_unified f3 l4 in
  Ok ((u "@@ -" ++ file1_range ++ u " +" ++ file2_range ++ u " @@")
        :: flat_map (opcode_lines a b) group).

Fixpoint groups_lines (a b : list str) (groups : list (list opcode))
    : outcome (list str) :=
  match groups with
  | [] => Ok []
  | g :: rest =>
    ls <- group_lines a b g ;;
    more <- groups_lines a b rest ;;
    Ok (ls ++ more)
  end.

Definition unified_diff (seed : HashSeed) (a b : list str) (n : Z)
    : outcome (list str) :=
  codes <- get_opcodes str_eqb seed a b ;;
  let groups := grouped n codes in
  body <- groups_lines a b groups ;;
  match groups with
  | [] => Ok []
  | _ :: _ => Ok (u "--- " :: u "+++ " :: body)
  end.

End Difflib.

(** ** [ComparisonResult] and [ContentComparator] *)

Record ComparisonResult : Type := {
  has_changes : bool;
  change_score : float;
  added_lines : list str;
  removed_lines : list str;
  modified_lines : list (str * str);
  diff_summary : str;
  total_lines_old : Z;
  total_lines_new : Z;
  hash_old : str;
  hash_new : str
}.

(** The fields set by [__init__]. *)
Record ContentComparator : Type := {
  threshold : float;
  ignore_whitespace : bool;
  ignore_case : bool
}.

(** [ContentComparator(threshold=t)]. *)
Definition new_comparator (t : float) : ContentComparator :=
  {| threshold := t; ignore_whitespace := true; ignore_case := false |}.

Definition len {A : Type} (l : list A) : Z := Z.of_nat (List.length l).

(** [_hash]. *)
Definition _hash (content : str) : outcome str :=
  bs <- encode content ;;
  Ok (MD5.hexdigest bs).

(** [list.remove(x)]: the first element equal to [x] goes. *)
Fixpoint list_remove (x : str) (l : list str) : outcome (list str) :=
  match l with
  | [] => Raise ValueError
  | y :: l' =>
    if str_eqb y x then Ok l'
    else r <- list_remove x l' ;; Ok (y :: r)
  end.

(** The loop that reads the diff: [added] and [removed] grow at the end. *)
Fixpoint parse_diff (diff : list str) (added removed : list str)
    : list str * list str :=
  match diff with
  | [] => (added, removed)
  | line :: rest =>
    if startswith (u "---") line || startswith (u "+++") line
       || startswith (u "@@") line
    then parse_diff rest added removed
    else if startswith (u "-") line
    then parse_diff rest added (removed ++ [strip (skipn 1 line)])
    else if startswith (u "+") line
    then parse_diff rest (added ++ [strip (skipn 1 line)]) removed
    else parse_diff rest added removed
  end.

(** [_generate_summary]. *)
Definition summary_section (title : str) (count : Z) (examples : list str)
    (shown : Z) : list str :=
  if count =? 0 then []
  else
    [title] ++ examples
    ++ (if shown <? count
        then [u "  ... et " ++ str_of_Z (count - shown) ++ u " autres"]
        else []).

Definition _generate_summary (added removed : list str)
    (modified : list (str * str)) (score : float) : str :=
  let summary_parts :=
    [u "Score de changement: " ++ format_2f score ++ u "%"]
    ++ summary_section
         ([10] ++ u "✚ " ++ str_of_Z (len added) ++ u " ligne(s) ajoutée(s):")
         (len added)
         (map (fun line => u "  + " ++ slice line 0 100) (slice added 0 5)) 5
    ++ summary_section
         ([10] ++ u "✖ " ++ str_of_Z (len removed)
          ++ u " ligne(s) supprimée(s):")
         (len removed)
         (map (fun line => u "  - " ++ slice line 0 100) (slice removed 0 5)) 5
    ++ summary_section
         ([10] ++ u "✎ " ++ str_of_Z (len modified)
          ++ u " ligne(s) modifiée(s):")
         (len modified)
         (map (fun p => u "  • " ++ slice (fst p) 0 80 ++ u " → "
                          ++ slice (snd p) 0 80)
              (slice modified 0 3)) 3 in
  join [10] summary_parts.

Section Comparator.

Variable ucd : UnicodeData.
Variable seed : HashSeed.
Variable self : ContentComparator.

(** [_normalize_content]. *)
Definition _normalize_content (content : str) : list str :=
  let lines := splitlines content in
  let lines := if ignore_case self then map (lower ucd) lines else lines in
  let lines :=
    if ignore_whitespace self
    then map (fun line => join (u " ") (split line)) lines
    else lines in
  filter (fun line => truthy (strip line)) lines.

(** The inner loop of [_filter_dynamic_content]: the first pattern found
    in the line ends the search. *)
Fixpoint is_dynamic (patterns : list pattern) (line : str) : bool :=
  match patterns with
  | [] => false
  | p :: rest => if search ucd p line then true else is_dynamic rest line
  end.

(** [_filter_dynamic_content]. *)
Fixpoint _filter_dynamic_content (lines : list str) : list str :=
  match lines with
  | [] => []
  | line :: rest =>
    if is_dynamic DYNAMIC_PATTERNS line then _filter_dynamic_content rest
    else line :: _filter_dynamic_content rest
  end.

(** [_are_similar(str1, str2)], with its default [threshold=0.7]; the
    binary64 number that [0.7] denotes is [0x1.6666666666666p-1]. *)
Definition _are_similar (str1 str2 : str) : outcome bool :=
  r <- Difflib.ratio Z.eqb seed str1 str2 ;;
  Ok (0x1.6666666666666p-1 <=? r)%float.

(** The state of the pairing loops: the lists [removed], [added] and
    [modified]. *)
Definition pairing : Type := (list str * list str * list (str * str))%type.

(** [for add in added[:]] for one [rem]: [adds] is what is left of the
    copy taken when the loop started. *)
Fixpoint pair_one (rem : str) (adds : list str) (st : pairing)
    : outcome pairing :=
  match adds with
  | [] => Ok st
  | add :: adds' =>
    similar <- _are_similar rem add ;;
    if similar then
      let '(removed, added, modified) := st in
      removed' <- list_remove rem removed ;;
      added' <- list_remove add added ;;
      Ok (removed', added', modified ++ [(rem, add)])
    else pair_one rem adds' st
  end.

(** [for rem in removed[:]]: [rems] is what is left of the copy. *)
Fixpoint pair_all (rems : list str) (st : pairing) : outcome pairing :=
  match rems with
  | [] => Ok st
  | rem :: rems' =>
    st' <- pair_one rem (snd (fst st)) st ;;
    pair_all rems' st'
  end.

(** The modification detection of [compare]. *)
Definition detect_modifications (removed added : list str) : outcome pairing :=
  pair_all removed (removed, added, []).

(** [compare]. *)
Definition compare (content_old content_new : str) (filter_dynamic : bool)
    : outcome ComparisonResult :=
  h_old <- _hash content_old ;;
  h_new <- _hash content_new ;;
  if str_eqb h_old h_new then
    Ok {| has_changes := false;
          change_score := 0;
          added_lines := [];
          removed_lines := [];
          modified_lines := [];
          diff_summary := u "Aucun changement";
          total_lines_old := len (splitlines content_old);
          total_lines_new := len (splitlines content_new);
          hash_old := h_old;
          hash_new := h_new |}
  else
    let lines_old := _normalize_content content_old in
    let lines_new := _normalize_content content_new in
    let lines_old :=
      if filter_dynamic then _filter_dynamic_content lines_old
      else lines_old in
    let lines_new :=
      if filter_dynamic then _filter_dynamic_content lines_new
      else lines_new in
    diff <- Difflib.unified_diff seed lines_old lines_new 0 ;;
    let '(added, removed) := parse_diff diff [] [] in
    st <- detect_modifications removed added ;;
    let '(removed, added, modified) := st in
    let total_changes := len added + len removed + len modified in
    let total_lines := Z.max (Z.max (len lines_old) (len lines_new)) 1 in
    q <- truediv total_changes total_lines ;;
    let score := (q * 100)%float in
    let summary := _generate_summary added removed modified score in
    Ok {| has_changes := (threshold self <? score)%float;
          change_score := score;
          added_lines := added;
          removed_lines := removed;
          modified_lines := modified;
          diff_summary := summary;
          total_lines_old := len lines_old;
          total_lines_new := len lines_new;
          hash_old := h_old;
          hash_new := h_new |}.

End Comparator.

(** [compare_content]. *)
Definition compare_content (ucd : UnicodeData) (seed : HashSeed)
    (content_old content_new : str) (t : float) : outcome ComparisonResult :=
  compare ucd seed (new_comparator t) content_old content_new true.

(** ** Notions used to state and prove the properties *)

(** *** Invariants of [difflib] *)

Module DifflibInv.
Import Difflib.

Section Dict.

Context {T : Type}.
Variable eqb : T -> T -> bool.

Definition keys (d : b2j_t (T:=T)) : list T := map fst d.

(** The dictionary without the entries of some keys. *)
Definition without (elts : list T) (d : b2j_t (T:=T)) : b2j_t :=
  filter (fun kv => negb (existsb (eqb (fst kv)) elts)) d.

(** The dictionary [__chain_b] builds, whatever the order in which the set
    of popular elements is visited. *)
Definition chained (b : list T) : b2j_t :=
  let b2j := index_elements eqb 0 b [] in
  let n := Z.of_nat (List.length b) in
  if 200 <=? n then without (find_popular (n / 100 + 1) b2j) b2j else b2j.

Variables a b : list T.

(** A range of the work queue that lies inside the two sequences. *)
Definition entry_ok (e : Z * Z * Z * Z) : Prop :=
  let '(alo, ahi, blo, bhi) := e in
  (0 <= alo /\ alo <= ahi /\ ahi <= Z.of_nat (List.length a))
  /\ (0 <= blo /\ blo <= bhi /\ bhi <= Z.of_nat (List.length b)).

End Dict.

(** Each range of the queue weighs twice its length in [a], plus one. *)
Definition weight (e : Z * Z * Z * Z) : Z :=
  let '(alo, ahi, _, _) := e in 2 * (ahi - alo) + 1.

Fixpoint total_weight (q : list (Z * Z * Z * Z)) : Z :=
  match q with
  | [] => 0
  | e :: q' => weight e + total_weight q'
  end.

(** A block that lies inside the two ranges. *)
Definition in_range (alo ahi blo bhi : Z) (m : Match) : Prop :=
  let '(i, j, k) := m in
  alo <= i /\ i + k <= ahi /\ blo <= j /\ j + k <= bhi /\ 0 <= k.

(** The lengths recorded for the row before [i]. *)
Definition row_ok (alo blo i : Z) (d : list (Z * Z)) : Prop :=
  Forall (fun kv => 0 <= snd kv /\ snd kv <= fst kv - blo + 1
                    /\ snd kv <= i - alo) d.

End DifflibInv.

(** *** The pairing of removed and added lines, as the specification
    words it *)

(** The first element that satisfies [p], with what precedes and what
    follows it. *)
Fixpoint split_first {A : Type} (p : A -> bool) (l : list A)
    : option (list A * A * list A) :=
  match l with
  | [] => None
  | x :: l' =>
    if p x then Some ([], x, l')
    else match split_first p l' with
         | Some (pre, y, post) => Some (x :: pre, y, post)
         | None => None
         end
  end.

(** For every removed line in order, the first added line not yet paired
    that is similar to it is paired with it, and both leave the working
    lists; the result is what is left of the removed lines, what is left
    of the added lines, and the pairs. *)
Fixpoint greedy_pairing (similar : str -> str -> bool)
    (removed added : list str) : pairing :=
  match removed with
  | [] => ([], added, [])
  | rem :: removed' =>
    match split_first (similar rem) added with
    | Some (pre, add, post) =>
      let '(r, a, m) := greedy_pairing similar removed' (pre ++ post) in
      (r, a, (rem, add) :: m)
    | None =>
      let '(r, a, m) := greedy_pairing similar removed' added in
      (rem :: r, a, m)
    end
  end.

(** The similarity test as a total function. *)
Definition similar (seed : HashSeed) (str1 str2 : str) : bool :=
  match _are_similar seed str1 str2 with
  | Ok v => v
  | _ => false
  end.

(** *** Case-insensitive occurrence of a phrase *)

(** The pattern [phrase.*]. *)
Definition phrase_pattern (phrase : str) : pattern :=
  map (fun c => once (Lit c)) phrase ++ [any_star].

(** [line] contains [phrase], each character compared as [re.IGNORECASE]
    compares it. *)
Definition contains_ci (ucd : UnicodeData) (phrase line : str) : Prop :=
  exists pre mid post,
    line = pre ++ mid ++ post
    /\ Forall2 (fun c ch => atom_match ucd (Lit c) ch = true) phrase mid.

(** *** Concrete parameters for the examples *)

(** A Unicode database that leaves every non-ASCII character alone. *)
Definition ascii_ucd : UnicodeData :=
  {| ucd_lower := fun s => s;
     ucd_tolower := fun c => c;
     ucd_decimal := fun _ => false |}.

(** Sets iterated in order of insertion, and in the reverse order. *)
Definition insertion_order : HashSeed := {| set_order := fun T l => l |}.
Definition reverse_order : HashSeed := {| set_order := fun T l => rev l |}.

Definition nl : str := [10].

(** *** The two branches of [compare] *)

(** The lines that are compared: normalized, then filtered on request. *)
Definition diffed_lines (ucd : UnicodeData) (self : ContentComparator)
    (filter_dynamic : bool) (content : str) : list str :=
  let lines := _normalize_content ucd self content in
  if filter_dynamic then _filter_dynamic_content ucd lines else lines.

(** The score of [changes] changed lines among [lines_old] and [lines_new]
    lines. *)
Definition score_of (changes lines_old lines_new : Z) : float :=
  (float_of_int changes
   / float_of_int (Z.max (Z.max lines_old lines_new) 1) * 100)%float.

(** The result of the branch that diffs, from the outcome of the pairing. *)
Definition diffed_result (self : ContentComparator) (h_old h_new : str)
    (lines_old lines_new : list str) (st : pairing) : ComparisonResult :=
  let '(removed, added, modified) := st in
  let score :=
    score_of (len added + len removed + len modified)
      (len lines_old) (len lines_new) in
  {| has_changes := (threshold self <? score)%float;
     change_score := score;
     added_lines := added;
     removed_lines := removed;
     modified_lines := modified;
     diff_summary := _generate_summary added removed modified score;
     total_lines_old := len lines_old;
     total_lines_new := len lines_new;
     hash_old := h_old;
     hash_new := h_new |}.

(** The result of the branch that finds equal hashes. *)
Definition identical_result (content_old content_new h : str)
    : ComparisonResult :=
  {| has_changes := false;
     change_score := 0;
     added_lines := [];
     removed_lines := [];
     modified_lines := [];
     diff_summary := u "Aucun changement";
     total_lines_old := len (splitlines content_old);
     total_lines_new := len (splitlines content_new);
     hash_old := h;
     hash_new := h |}.

(** The number that a string of decimal digits denotes. *)
Definition decimal_value (s : str) : Z :=
  fold_left (fun v d => 10 * v + (d - 48)) s 0.

(** ** [ContentComparator.get_detailed_diff] *)

(** [s.splitlines(keepends=True)]: as [splitlines], each line with its
    boundary. *)
Fixpoint splitlines_keepends_from (cur : str) (s : str) : list str :=
  match s with
  | [] => match cur with [] => [] | _ :: _ => [rev cur] end
  | c :: s' =>
    if is_linebreak c then
      match s' with
      | d :: s'' =>
        if (c =? 13) && (d =? 10)
        then rev (d :: c :: cur) :: splitlines_keepends_from [] s''
        else rev (c :: cur) :: splitlines_keepends_from [] s'
      | [] => rev (c :: cur) :: splitlines_keepends_from [] s'
      end
    else splitlines_keepends_from (c :: cur) s'
  end.

Definition splitlines_keepends (s : str) : list str :=
  splitlines_keepends_from [] s.

Module DifflibNamed.
Import Difflib.

(** The hunk header and the lines of one group, every header ending with
    [lineterm]. *)
Definition group_lines (lineterm : str) (a b : list str)
    (group : list opcode) : outcome (list str) :=
  first <- getitem group 0 ;;
  last <- getitem group (-1) ;;
  let '(_, f1, _, f3, _) := first in
  let '(_, _, l2, _, l4) := last in
  let file1_range := _format_range_unified f1 l2 in
  let file2_range := _format_range_unified f3 l4 in
  Ok ((u "@@ -" ++ file1_range ++ u " +" ++ file2_range ++ u " @@"
         ++ lineterm)
        :: flat_map (opcode_lines a b) group).

Fixpoint groups_lines (lineterm : str) (a b : list str)
    (groups : list (list opcode)) : outcome (list str) :=
  match groups with
  | [] => Ok []
  | g :: rest =>
    ls <- group_lines lineterm a b g ;;
    more <- groups_lines lineterm a b rest ;;
    Ok (ls ++ more)
  end.

(** [unified_diff(a, b, fromfile, tofile, n=n, lineterm=lineterm)], the
    two file dates left empty. *)
Definition unified_diff (seed : HashSeed) (a b : list str)
    (fromfile tofile : str) (n : Z) (lineterm : str) : outcome (list str) :=
  codes <- get_opcodes str_eqb seed a b ;;
  let groups := grouped n codes in
  body <- groups_lines lineterm a b groups ;;
  match groups with
  | [] => Ok []
  | _ :: _ =>
    Ok ((u "--- " ++ fromfile ++ lineterm)
          :: (u "+++ " ++ tofile ++ lineterm) :: body)
  end.

End DifflibNamed.

(** [get_detailed_diff]: the default context of three lines and the
    default line end. *)
Definition get_detailed_diff (seed : HashSeed) (content_old content_new : str)
    : outcome str :=
  let lines_old := splitlines_keepends content_old in
  let lines_new := splitlines_keepends content_new in
  diff <- DifflibNamed.unified_diff seed lines_old lines_new
            (u "ancien") (u "nouveau") 3 nl ;;
  Ok (concat diff).

(** ** [src/utils/validators.py] *)

(** The characters that the class of [sanitize_filename] lists: the two
    angle brackets, colon, double quote, slash, backslash, bar, question
    mark and asterisk. *)
Definition unsafe_char (c : char) : bool :=
  existsb (Z.eqb c) [60; 62; 58; 34; 47; 92; 124; 63; 42].

(** [sanitize_filename]. *)
Definition sanitize_filename (filename : str) : str :=
  let filename := map (fun c => if unsafe_char c then 95 else c) filename in
  slice filename 0 200.




(** The classes of the pattern of [is_valid_email]. *)
Definition is_alpha (c : char) : bool :=
  ((65 <=? c) && (c <=? 90)) || ((97 <=? c) && (c <=? 122)).

Definition is_alnum (c : char) : bool :=
  is_alpha c || ((48 <=? c) && (c <=? 57)).

(** [[a-zA-Z0-9._%+-]] *)
Definition local_char (c : char) : bool :=
  is_alnum c || existsb (Z.eqb c) [46; 95; 37; 43; 45].

(** [[a-zA-Z0-9.-]] *)
Definition domain_char (c : char) : bool :=
  is_alnum c || existsb (Z.eqb c) [46; 45].

(** [$] without [re.MULTILINE]: the end of the string, or just before a
    line feed that ends it. *)
Definition at_end (s : str) : bool :=
  match s with
  | [] => true
  | [c] => c =? 10
  | _ => false
  end.

(** A literal character of a pattern, followed by the rest of it. *)
Definition expect (c : char) (k : str -> bool) (s : str) : bool :=
  match s with
  | x :: s' => (x =? c) && k s'
  | [] => false
  end.

(** [is_valid_email]: [re.match] of
    [^[a-zA-Z0-9._%+-]+@[a-zA-Z0-9.-]+\.[a-zA-Z]{2,}$]. *)
Definition is_valid_email (email : str) : bool :=
  match_repeat local_char
    (expect 64
       (match_repeat domain_char
          (expect 46 (match_repeat is_alpha at_end 2 None))
          1 None))
    1 None email.

(** ** Further notions used to state the properties *)

(** A word: not empty and without whitespace. *)
Definition is_word (w : str) : Prop :=
  w <> [] /\ Forall (fun c => is_whitespace c = false) w.

(** A string of lower-case hexadecimal digits. *)
Definition is_hex (c : char) : bool :=
  ((48 <=? c) && (c <=? 57)) || ((97 <=? c) && (c <=? 102)).

(** [line] contains consecutive characters that pass the tests of
    [shape], one each. *)
Definition contains_shape (shape : list (char -> bool)) (line : str) : Prop :=
  exists pre mid post,
    line = pre ++ mid ++ post
    /\ Forall2 (fun t c => t c = true) shape mid.

Definition is_char (c : char) : char -> bool := fun ch => ch =? c.

(** YYYY-MM-DD, DD/MM/YYYY and H:MM:SS, digits being decimal digits. *)
Definition iso_date_shape (ucd : UnicodeData) : list (char -> bool) :=
  let d := isdecimal ucd in
  [d; d; d; d; is_char 45; d; d; is_char 45; d; d].

Definition slash_date_shape (ucd : UnicodeData) : list (char -> bool) :=
  let d := isdecimal ucd in
  [d; d; is_char 47; d; d; is_char 47; d; d; d; d].

Definition clock_shape (ucd : UnicodeData) : list (char -> bool) :=
  let d := isdecimal ucd in
  [d; is_char 58; d; d; is_char 58; d; d].

(** The atoms of a pattern whose items all repeat a fixed number of
    times, one atom per expected character. *)
Definition exact_atoms (p : pattern) : list atom :=
  flat_map (fun it => repeat (it_atom it) (it_min it)) p.

(** ** Notions used to state what [difflib] computes *)

Module DifflibSpec.
Import Difflib.

Section Spec.

Context {T : Type}.
Variable eqb : T -> T -> bool.

(** The positions of [x] in [l], the first element of [l] being at
    position [i]. *)
Fixpoint positions (i : Z) (l : list T) (x : T) : list Z :=
  match l with
  | [] => []
  | y :: l' =>
    if eqb y x then i :: positions (i + 1) l' x else positions (i + 1) l' x
  end.

(** The element at position [i], counted from 0. *)
Definition at_ (l : list T) (i : Z) : option T :=
  if i <? 0 then None else nth_error l (Z.to_nat i).

Variables a b : list T.

(** The [k] elements of [a] from [i] are the [k] elements of [b] from
    [j]. *)
Definition block_matches (m : Match) : Prop :=
  let '(i, j, k) := m in
  forall t, 0 <= t < k ->
    exists x, at_ a (i + t) = Some x /\ at_ b (j + t) = Some x.

(** A match of at least one element. *)
Definition good_block (m : Match) : Prop :=
  DifflibInv.in_range 0 (Z.of_nat (List.length a)) 0 (Z.of_nat (List.length b)) m
  /\ 1 <= snd m /\ block_matches m.

(** The number of consecutive elements of [l] just before position [n]
    that [b2j] has an entry for. *)
Fixpoint run (b2j : b2j_t (T:=T)) (l : list T) (n : nat) : Z :=
  match n with
  | O => 0
  | S n' =>
    match nth_error l n' with
    | Some x =>
      match dict_get eqb b2j x with
      | Some _ => run b2j l n' + 1
      | None => 0
      end
    | None => 0
    end
  end.

(** The entries of [j2len] for the row before [i] are lengths of matches
    that end on that row. *)
Definition row_sound (i : Z) (d : list (Z * Z)) : Prop :=
  Forall (fun kv => block_matches (i - snd kv, fst kv - snd kv + 1, snd kv)) d.

(** The positions listed under an element are positions of it in [b]. *)
Definition b2j_sound (b2j : b2j_t (T:=T)) : Prop :=
  forall x js j, dict_get eqb b2j x = Some js -> In j js -> at_ b j = Some x.

(** What an opcode says about the two ranges it names. *)
Definition tag_ok (c : opcode) : Prop :=
  let '(t, i1, i2, j1, j2) := c in
  match t with
  | Equal => i1 < i2 /\ i2 - i1 = j2 - j1 /\ slice a i1 i2 = slice b j1 j2
  | Replace => i1 < i2 /\ j1 < j2
  | Delete => i1 < i2 /\ j1 = j2
  | Insert => i1 = i2 /\ j1 < j2
  end.

(** The opcodes go through the two sequences without a gap or an overlap,
    from [(i, j)] to [(iend, jend)]. *)
Fixpoint tiles (i j : Z) (ops : list opcode) (iend jend : Z) : Prop :=
  match ops with
  | [] => i = iend /\ j = jend
  | (t, i1, i2, j1, j2) :: rest =>
    i1 = i /\ j1 = j /\ tag_ok (t, i1, i2, j1, j2)
    /\ tiles i2 j2 rest iend jend
  end.

End Spec.

(** The rectangle of positions that a block or a range of the queue
    covers. *)
Definition box : Type := (Z * Z * Z * Z)%type.

Definition box_of (m : Match) : box :=
  let '(i, j, k) := m in (i, i + k, j, j + k).

(** One rectangle lies before the other, in both sequences. *)
Definition ordered (x y : box) : Prop :=
  let '(a1, a2, b1, b2) := x in
  let '(c1, c2, d1, d2) := y in
  (a2 <= c1 /\ b2 <= d1) \/ (c2 <= a1 /\ d2 <= b1).

Definition inside (x r : box) : Prop :=
  let '(a1, a2, b1, b2) := x in
  let '(c1, c2, d1, d2) := r in
  c1 <= a1 /\ a2 <= c2 /\ d1 <= b1 /\ b2 <= d2.

Fixpoint pairwise (l : list box) : Prop :=
  match l with
  | [] => True
  | x :: l' => Forall (ordered x) l' /\ pairwise l'
  end.

(** [bchain i j l hi hj]: the blocks of [l] follow one another in both
    sequences, none starts before [(i, j)], and the last one ends at
    [(hi, hj)] or before. *)
Fixpoint bchain (i j : Z) (l : list Match) (hi hj : Z) : Prop :=
  match l with
  | [] => i <= hi /\ j <= hj
  | (ai, bj, k) :: rest =>
    i <= ai /\ j <= bj /\ 0 <= k /\ bchain (ai + k) (bj + k) rest hi hj
  end.

(** Where the last block of [l] ends, or [(i, j)] when there is none. *)
Fixpoint chain_end (i j : Z) (l : list Match) : Z * Z :=
  match l with
  | [] => (i, j)
  | (ai, bj, k) :: rest => chain_end (ai + k) (bj + k) rest
  end.

(** An opcode other than [Equal]. *)
Definition is_change (c : opcode) : bool :=
  let '(t, _, _, _, _) := c in negb (is_equal t).

(** The lines that the opcodes delete from [a] and insert from [b]. *)
Definition deleted_lines (a : list str) (ops : list opcode) : list str :=
  flat_map (fun c : opcode =>
              let '(t, i1, i2, _, _) := c in
              match t with
              | Replace | Delete => slice a i1 i2
              | _ => []
              end) ops.

Definition inserted_lines (b : list str) (ops : list opcode) : list str :=
  flat_map (fun c : opcode =>
              let '(t, _, _, j1, j2) := c in
              match t with
              | Replace | Insert => slice b j1 j2
              | _ => []
              end) ops.

(** What [compare] keeps of the lines with one sign of the diff: a line
    that starts with [mark] makes a diff line that is taken for a header;
    the other lines are stripped. *)
Definition reported (mark : str) (lines : list str) : list str :=
  map strip (filter (fun x => negb (startswith mark x)) lines).

End DifflibSpec.

(** * Properties *)

(** ** Checks of the library models on known values *)

Example md5_empty : MD5.hexdigest [] = u "d41d8cd98f00b204e9800998ecf8427e".
Proof. vm_compute. reflexivity. Qed.

Example md5_abc :
  MD5.hexdigest [97; 98; 99] = u "900150983cd24fb0d6963f7d28e17f72".
Proof. vm_compute. reflexivity. Qed.

Example search_date ucd :
  search ucd (nth 0 DYNAMIC_PATTERNS []) (u "Article du 2025-11-05 ici") = true.
Proof. vm_compute. reflexivity. Qed.

Example search_copyright ucd :
  search ucd (nth 8 DYNAMIC_PATTERNS []) (u "(c) copyright © 2024 ACME") = true.
Proof. vm_compute. reflexivity. Qed.

Example search_visitors ucd :
  search ucd (nth 7 DYNAMIC_PATTERNS []) (u "12 Visitor online") = true
  /\ search ucd (nth 7 DYNAMIC_PATTERNS []) (u "visitors online") = false.
Proof. vm_compute. split; reflexivity. Qed.

Example md5_two_blocks :
  _hash (u "ahovcjqxelszgnubipwdkryfmtahovcjqxelszgnubipwdkryfmtahovcjqxelsz")
  = Ok (u "ce6e22000dda0f845d5f3e3600099e15").
Proof. vm_compute. reflexivity. Qed.

Example md5_utf8 :
  u "é€😀x" = [233; 8364; 128512; 120]
  /\ _hash (u "é€😀x") = Ok (u "4c8a7c859b3c938df70718d564a80a16").
Proof. vm_compute. split; reflexivity. Qed.

Example splitlines_boundaries :
  splitlines [65; 13; 10; 66; 13; 67; 10; 10; 68; 0x85; 69; 0x2028; 70]
  = [u "A"; u "B"; u "C"; []; u "D"; u "E"; u "F"]
  /\ split (u "  x  y " ++ [9] ++ u " z  ") = [u "x"; u "y"; u "z"]
  /\ strip (u "  x  y " ++ [9]) = u "x  y".
Proof. vm_compute. repeat split. Qed.

Example format_2f_values :
  format_2f (1 / 3 * 100) = u "33.33"
  /\ format_2f 0.125 = u "0.12"
  /\ format_2f 0.375 = u "0.38"
  /\ format_2f 0x1.8ffae147ae148p+6 = u "100.00"
  /\ format_2f 0 = u "0.00".
Proof. vm_compute. repeat split. Qed.

Example unified_diff_two_hunks seed :
  Difflib.unified_diff seed [u "a"; u "b"; u "c"; u "d"]
    [u "a"; u "x"; u "c"; u "y"; u "d"] 0
  = Ok [u "--- "; u "+++ "; u "@@ -2 +2 @@"; u "-b"; u "+x";
        u "@@ -3,0 +4 @@"; u "+y"].
Proof. vm_compute. reflexivity. Qed.

Example unified_diff_mixed seed :
  Difflib.unified_diff seed
    [u "one"; u "two"; u "three"; u "four"; u "five"; u "six"]
    [u "zero"; u "one"; u "three"; u "4"; u "five"; u "6"; u "seven"] 0
  = Ok [u "--- "; u "+++ "; u "@@ -0,0 +1 @@"; u "+zero";
        u "@@ -2 +2,0 @@"; u "-two"; u "@@ -4 +4 @@"; u "-four"; u "+4";
        u "@@ -6 +6,2 @@"; u "-six"; u "+6"; u "+seven"].
Proof. vm_compute. reflexivity. Qed.

Example unified_diff_equal seed :
  Difflib.unified_diff seed [u "a"; u "b"] [u "a"; u "b"] 0 = Ok []
  /\ Difflib.unified_diff seed [] [] 0 = Ok [].
Proof. vm_compute. split; reflexivity. Qed.

Example matching_blocks_small :
  Difflib.get_matching_blocks Z.eqb insertion_order
    (u "hello world") (u "world hello")
  = Ok [(0, 6, 5); (11, 11, 0)].
Proof. vm_compute. reflexivity. Qed.

(** With 200 elements or more, the elements of [b] that are too frequent
    are left out of [b2j]: here both letters are, and nothing matches. *)
Example matching_blocks_popular :
  Difflib.get_matching_blocks Z.eqb insertion_order
    (concat (repeat (u "ab") 120)) (concat (repeat (u "ba") 120) ++ u "c")
  = Ok [(240, 241, 0)]
  /\ Difflib.get_matching_blocks Z.eqb reverse_order
       (concat (repeat (u "ab") 120)) (concat (repeat (u "ba") 120) ++ u "c")
     = Ok [(240, 241, 0)]
  /\ Difflib.get_matching_blocks Z.eqb insertion_order
       (repeat 120 250) (repeat 120 100 ++ u "y" ++ repeat 120 150)
     = Ok [(0, 0, 100); (250, 251, 0)].
Proof. vm_compute. repeat split. Qed.

(** ** Sequences and outcomes *)

Lemma getitem_ok {A : Type} (l : list A) (i : Z) :
  0 <= i < Z.of_nat (List.length l) -> exists x, getitem l i = Ok x.
Proof.
  intros H. unfold getitem.
  destruct (i <? 0) eqn:E; [apply Z.ltb_lt in E; lia|].
  replace ((0 <=? i) && (i <? Z.of_nat (List.length l))) with true.
  - destruct (nth_error l (Z.to_nat i)) eqn:N; [eauto|].
    apply nth_error_None in N. lia.
  - symmetry. apply andb_true_iff. split; [apply Z.leb_le | apply Z.ltb_lt]; lia.
Qed.

Lemma getitem_last_ok {A : Type} (l : list A) :
  l <> [] -> exists x, getitem l (-1) = Ok x.
Proof.
  intros H. unfold getitem. cbn [Z.ltb Z.compare].
  assert (L : (0 < List.length l)%nat) by (destruct l; [congruence | cbn; lia]).
  replace ((0 <=? -1 + Z.of_nat (List.length l))
           && (-1 + Z.of_nat (List.length l) <? Z.of_nat (List.length l)))
    with true.
  - destruct (nth_error l (Z.to_nat (-1 + Z.of_nat (List.length l)))) eqn:N;
      [eauto|].
    apply nth_error_None in N. lia.
  - symmetry. apply andb_true_iff. split; [apply Z.leb_le | apply Z.ltb_lt]; lia.
Qed.

Lemma str_eqb_eq (s t : str) : str_eqb s t = true <-> s = t.
Proof.
  unfold str_eqb. destruct (list_eq_dec Z.eq_dec s t); split; congruence.
Qed.

Lemma str_eqb_refl (s : str) : str_eqb s s = true.
Proof. apply str_eqb_eq. reflexivity. Qed.

(** [str_of_Z] has fuel for all the digits of its argument. *)
Lemma digits_fuel_value (fuel : nat) (n : Z) (acc : str) :
  0 <= n < 2 ^ Z.of_nat fuel ->
  exists ds,
    digits_fuel fuel n acc = ds ++ acc /\ decimal_value ds = n
    /\ Forall (fun d => 48 <= d <= 57) ds.
Proof.
  revert n acc. induction fuel as [|fuel IH]; intros n acc H.
  - change (2 ^ Z.of_nat 0) with 1 in H. exists [].
    split; [reflexivity|]. split; [unfold decimal_value; cbn [fold_left]; lia|].
    constructor.
  - cbn [digits_fuel]. destruct (n <? 10) eqn:E.
    + apply Z.ltb_lt in E. exists [48 + n mod 10].
      rewrite Z.mod_small by lia. split; [reflexivity|].
      split; [unfold decimal_value; cbn [fold_left]; lia|].
      repeat constructor; lia.
    + apply Z.ltb_ge in E.
      destruct (IH (n / 10) ((48 + n mod 10) :: acc)) as [ds [D [Hv F]]].
      { rewrite Nat2Z.inj_succ, Z.pow_succ_r in H by lia.
        split; [apply Z.div_pos; lia|].
        apply Z.div_lt_upper_bound; lia. }
      exists (ds ++ [48 + n mod 10]). rewrite <- app_assoc. split; [exact D|].
      split.
      * unfold decimal_value. rewrite fold_left_app. cbn [fold_left].
        change (fold_left (fun v d : Z => 10 * v + (d - 48)) ds 0)
          with (decimal_value ds).
        rewrite Hv. pose proof (Z.div_mod n 10). lia.
      * apply Forall_app. split; [exact F|].
        pose proof (Z.mod_pos_bound n 10). repeat constructor; lia.
Qed.

Lemma str_of_Z_value (n : Z) :
  0 <= n ->
  decimal_value (str_of_Z n) = n /\ Forall (fun d => 48 <= d <= 57) (str_of_Z n).
Proof.
  intros H. unfold str_of_Z.
  destruct (digits_fuel_value (S (Z.to_nat (Z.log2 n))) n []) as [ds [D [V F]]].
  - split; [exact H|].
    rewrite Nat2Z.inj_succ, Z2Nat.id by apply Z.log2_nonneg.
    destruct (Z.eq_dec n 0) as [->|N]; [change (Z.log2 0) with 0; lia|].
    apply Z.log2_spec. lia.
  - rewrite D, app_nil_r. auto.
Qed.

(** ** [difflib]: every call returns *)

Module DifflibFacts.
Import Difflib.

Section Chain.

Context {T : Type}.
Variable eqb : T -> T -> bool.
Hypothesis eqb_eq : forall x y, eqb x y = true <-> x = y.

Lemma eqb_refl x : eqb x x = true.
Proof. apply eqb_eq. reflexivity. Qed.

Lemma eqb_neq x y : eqb x y = false <-> x <> y.
Proof.
  split.
  - intros H E. apply eqb_eq in E. congruence.
  - intros H. destruct (eqb x y) eqn:E; [apply eqb_eq in E; contradiction | reflexivity].
Qed.

Local Abbreviation keys := (DifflibInv.keys (T:=T)).
Local Abbreviation without := (DifflibInv.without eqb).
Local Abbreviation chained := (DifflibInv.chained eqb).


Lemma keys_setdefault_append d elt i :
  keys (setdefault_append eqb d elt i)
  = if existsb (eqb elt) (keys d) then keys d else keys d ++ [elt].
Proof.
  induction d as [|[key idxs] d IH]; cbn; [reflexivity|].
  destruct (eqb key elt) eqn:E.
  - apply eqb_eq in E. subst. rewrite eqb_refl. reflexivity.
  - assert (E' : eqb elt key = false).
    { apply eqb_neq. apply eqb_neq in E. congruence. }
    rewrite E'. cbn. unfold DifflibInv.keys in IH. rewrite IH.
    destruct (existsb (eqb elt) (map fst d)); reflexivity.
Qed.

Lemma NoDup_keys_setdefault_append d elt i :
  NoDup (keys d) -> NoDup (keys (setdefault_append eqb d elt i)).
Proof.
  intros H. rewrite keys_setdefault_append.
  destruct (existsb (eqb elt) (keys d)) eqn:E; [assumption|].
  apply NoDup_app; [assumption | repeat constructor; intros [] | ].
  intros x Hx [Hy|[]]. subst x.
  assert (existsb (eqb elt) (keys d) = true); [|congruence].
  apply existsb_exists. exists elt. split; [assumption | apply eqb_refl].
Qed.

Lemma NoDup_keys_index_elements b i d :
  NoDup (keys d) -> NoDup (keys (index_elements eqb i b d)).
Proof.
  revert i d. induction b as [|elt b IH]; intros i d H; cbn; [assumption|].
  apply IH. apply NoDup_keys_setdefault_append. assumption.
Qed.

Lemma without_cons elts k v d :
  without elts ((k, v) :: d)
  = if existsb (eqb k) elts then without elts d else (k, v) :: without elts d.
Proof. unfold DifflibInv.without. cbn. destruct (existsb (eqb k) elts); reflexivity. Qed.

Lemma without_absent elt d :
  ~ In elt (keys d) -> without [elt] d = d.
Proof.
  induction d as [|[key idxs] d IH]; intros H; [reflexivity|].
  rewrite without_cons. cbn in *. destruct (eqb key elt) eqn:E.
  - apply eqb_eq in E. subst. tauto.
  - cbn. f_equal. apply IH. tauto.
Qed.

Lemma dict_del_ok elt d :
  NoDup (keys d) -> In elt (keys d) ->
  dict_del eqb d elt = Ok (without [elt] d).
Proof.
  induction d as [|[key idxs] d IH]; intros ND HIn; [contradiction|].
  rewrite without_cons. cbn in *.
  inversion ND as [|? ? Hnot ND']; subst.
  destruct (eqb key elt) eqn:E.
  - apply eqb_eq in E. subst. cbn. rewrite without_absent; auto.
  - cbn. destruct HIn as [H|H]; [apply eqb_neq in E; contradiction|].
    rewrite IH by assumption. reflexivity.
Qed.

Lemma keys_without elts d :
  keys (without elts d)
  = filter (fun k => negb (existsb (eqb k) elts)) (keys d).
Proof.
  unfold DifflibInv.keys. induction d as [|[key idxs] d IH]; [reflexivity|].
  rewrite without_cons. cbn.
  destruct (existsb (eqb key) elts); cbn; rewrite IH; reflexivity.
Qed.

Lemma without_without e elts d :
  without elts (without [e] d) = without (e :: elts) d.
Proof.
  induction d as [|[key idxs] d IH]; [reflexivity|].
  rewrite (without_cons [e]), (without_cons (e :: elts)).
  cbn [existsb]. rewrite orb_false_r.
  destruct (eqb key e); cbn [orb]; [exact IH|].
  rewrite without_cons.
  destruct (existsb (eqb key) elts); [exact IH | f_equal; exact IH].
Qed.

Lemma without_nil d : without [] d = d.
Proof.
  induction d as [|[key idxs] d IH]; [reflexivity|].
  rewrite without_cons. cbn [existsb]. f_equal. exact IH.
Qed.

Lemma purge_ok elts d :
  NoDup (keys d) -> NoDup elts -> incl elts (keys d) ->
  purge eqb elts d = Ok (without elts d).
Proof.
  revert d. induction elts as [|e elts IH]; intros d ND NE Hin; cbn.
  - rewrite without_nil. reflexivity.
  - inversion NE as [|? ? Hnot NE']; subst.
    rewrite dict_del_ok; [cbn | assumption | apply Hin; left; reflexivity].
    rewrite IH.
    + rewrite without_without. reflexivity.
    + rewrite keys_without. apply NoDup_filter. assumption.
    + assumption.
    + intros x Hx. rewrite keys_without. apply filter_In. split.
      * apply Hin. right. assumption.
      * cbn. destruct (eqb x e) eqn:E; [|reflexivity].
        apply eqb_eq in E. subst. contradiction.
Qed.

Lemma without_perm l1 l2 d :
  Permutation l1 l2 -> without l1 d = without l2 d.
Proof.
  intros P. unfold DifflibInv.without. apply filter_ext. intros kv. f_equal.
  destruct (existsb (eqb (fst kv)) l1) eqn:E1;
  destruct (existsb (eqb (fst kv)) l2) eqn:E2; try reflexivity.
  - apply existsb_exists in E1. destruct E1 as [x [Hx Hb]].
    assert (existsb (eqb (fst kv)) l2 = true); [|congruence].
    apply existsb_exists. exists x. split; [|assumption].
    eapply Permutation_in; eassumption.
  - apply existsb_exists in E2. destruct E2 as [x [Hx Hb]].
    assert (existsb (eqb (fst kv)) l1 = true); [|congruence].
    apply existsb_exists. exists x. split; [|assumption].
    eapply Permutation_in; [apply Permutation_sym|]; eassumption.
Qed.

Lemma NoDup_find_popular ntest d :
  NoDup (keys d) -> NoDup (find_popular ntest d).
Proof.
  unfold find_popular, DifflibInv.keys. induction d as [|kv d IH]; cbn; intros H;
    [constructor|].
  inversion H as [|? ? Hnot ND]; subst.
  destruct (ntest <? Z.of_nat (List.length (snd kv))); cbn; [|auto].
  constructor; [|auto].
  intros HIn. apply Hnot. apply in_map_iff in HIn.
  destruct HIn as [x [Hx HIn]]. apply filter_In in HIn.
  apply in_map_iff. exists x. tauto.
Qed.

Lemma incl_find_popular ntest d : incl (find_popular ntest d) (keys d).
Proof.
  unfold find_popular, DifflibInv.keys. intros x HIn. apply in_map_iff in HIn.
  destruct HIn as [kv [Hx HIn]]. apply filter_In in HIn.
  apply in_map_iff. exists kv. tauto.
Qed.

Lemma chain_b_ok seed b :
  valid_seed seed -> chain_b eqb seed b = Ok (chained b).
Proof.
  intros V. unfold chain_b, DifflibInv.chained.
  destruct (200 <=? Z.of_nat (List.length b)); [|reflexivity].
  set (d := index_elements eqb 0 b []).
  set (pop := find_popular _ d).
  assert (ND : NoDup (keys d)).
  { apply NoDup_keys_index_elements. constructor. }
  rewrite purge_ok.
  - f_equal. apply without_perm. apply V.
  - assumption.
  - eapply Permutation_NoDup; [apply Permutation_sym, V|].
    apply NoDup_find_popular. assumption.
  - intros x Hx. apply (incl_find_popular (Z.of_nat (List.length b) / 100 + 1)).
    eapply Permutation_in; [apply V | exact Hx].
Qed.

End Chain.

Section FindLongest.

Context {T : Type}.
Variable eqb : T -> T -> bool.
Variables a b : list T.
Variable b2j : b2j_t (T:=T).
Variables alo ahi blo bhi : Z.
Hypothesis Ha : 0 <= alo /\ alo <= ahi /\ ahi <= Z.of_nat (List.length a).
Hypothesis Hb : 0 <= blo /\ blo <= bhi /\ bhi <= Z.of_nat (List.length b).

Local Abbreviation in_range := (DifflibInv.in_range alo ahi blo bhi).
Local Abbreviation row_ok := (DifflibInv.row_ok alo blo).

Lemma j2len_get_bound i d j :
  row_ok i d -> alo <= i -> blo <= j + 1 ->
  0 <= j2len_get d j /\ j2len_get d j <= j - blo + 1
  /\ j2len_get d j <= i - alo.
Proof.
  intros R Hi Hj. induction R as [|[key k] d Hk R IH]; cbn; [lia|].
  destruct (key =? j) eqn:E; [|exact IH].
  apply Z.eqb_eq in E. subst. cbn in Hk. lia.
Qed.

Lemma scan_row_ok i j2len js newj2len best :
  alo <= i -> i < ahi -> row_ok i j2len -> row_ok (i + 1) newj2len ->
  in_range best ->
  row_ok (i + 1) (fst (scan_row blo bhi i j2len js newj2len best))
  /\ in_range (snd (scan_row blo bhi i j2len js newj2len best)).
Proof.
  intros Hi Hi' R. revert newj2len best.
  induction js as [|j js IH]; intros newj2len best RN B; cbn; [tauto|].
  destruct (j <? blo) eqn:E1; [apply IH; assumption|].
  destruct (bhi <=? j) eqn:E2; [cbn; tauto|].
  apply Z.ltb_ge in E1. apply Z.leb_gt in E2.
  destruct best as [[besti bestj] bestsize].
  destruct (j2len_get_bound i j2len (j - 1) R Hi) as [G0 [G1 G2]]; [lia|].
  apply IH.
  - constructor; [cbn; lia | assumption].
  - destruct (bestsize <? j2len_get j2len (j - 1) + 1); [|assumption].
    cbn. lia.
Qed.

Lemma scan_rows_ok n i j2len best :
  alo <= i -> i + Z.of_nat n = ahi -> row_ok i j2len -> in_range best ->
  exists best',
    scan_rows eqb a b2j blo bhi n i j2len best = Ok best' /\ in_range best'.
Proof.
  revert i j2len best. induction n as [|n IH]; intros i j2len best Hi Hn R B;
    cbn [scan_rows]; [eauto|].
  destruct (getitem_ok a i) as [x Hx]; [lia|]. rewrite Hx. cbn [bind].
  set (js := match dict_get eqb b2j x with Some l => l | None => [] end).
  destruct (scan_row_ok i j2len js [] best) as [R' B']; try assumption;
    [lia | constructor |].
  destruct (scan_row blo bhi i j2len js [] best) as [newj2len best'].
  apply IH; [lia | lia | exact R' | exact B'].
Qed.

Lemma extend_back_ok n best :
  Z.of_nat n <= fst (fst best) - alo -> in_range best ->
  exists best', extend_back eqb a b blo n best = Ok best' /\ in_range best'.
Proof.
  revert best. induction n as [|n IH]; intros [[besti bestj] bestsize] Hn B;
    cbn [extend_back]; [eauto|].
  cbn in Hn, B.
  destruct (blo <? bestj) eqn:E; [|eauto].
  apply Z.ltb_lt in E.
  destruct (getitem_ok b (bestj - 1)) as [y Hy]; [lia|].
  destruct (getitem_ok a (besti - 1)) as [x Hx]; [lia|].
  rewrite Hy, Hx. cbn [bind].
  destruct (eqb x y); [|eauto].
  apply IH; cbn; lia.
Qed.

Lemma extend_forward_ok n best :
  Z.of_nat n <= ahi - (fst (fst best) + snd best) -> in_range best ->
  exists best', extend_forward eqb a b bhi n best = Ok best' /\ in_range best'.
Proof.
  revert best. induction n as [|n IH]; intros [[besti bestj] bestsize] Hn B;
    cbn [extend_forward]; [eauto|].
  cbn in Hn, B.
  destruct (bestj + bestsize <? bhi) eqn:E; [|eauto].
  apply Z.ltb_lt in E.
  destruct (getitem_ok b (bestj + bestsize)) as [y Hy]; [lia|].
  destruct (getitem_ok a (besti + bestsize)) as [x Hx]; [lia|].
  rewrite Hy, Hx. cbn [bind].
  destruct (eqb x y); [|eauto].
  apply IH; cbn; lia.
Qed.

Lemma junk_back_ok best :
  in_range best -> junk_back b alo blo best = Ok best.
Proof.
  destruct best as [[besti bestj] bestsize]. intros B. cbn in *.
  destruct ((alo <? besti) && (blo <? bestj)) eqn:E; [|reflexivity].
  apply andb_true_iff in E. destruct E as [E1 E2].
  apply Z.ltb_lt in E1. apply Z.ltb_lt in E2.
  destruct (getitem_ok b (bestj - 1)) as [y Hy]; [lia|].
  rewrite Hy. reflexivity.
Qed.

Lemma junk_forward_ok best :
  in_range best -> junk_forward b ahi bhi best = Ok best.
Proof.
  destruct best as [[besti bestj] bestsize]. intros B. cbn in *.
  destruct ((besti + bestsize <? ahi) && (bestj + bestsize <? bhi)) eqn:E;
    [|reflexivity].
  apply andb_true_iff in E. destruct E as [E1 E2].
  apply Z.ltb_lt in E1. apply Z.ltb_lt in E2.
  destruct (getitem_ok b (bestj + bestsize)) as [y Hy]; [lia|].
  rewrite Hy. reflexivity.
Qed.

(** [find_longest_match] returns a block inside the ranges it was given. *)
Lemma find_longest_match_ok :
  exists m,
    find_longest_match eqb a b b2j alo ahi blo bhi = Ok m /\ in_range m.
Proof.
  unfold find_longest_match.
  destruct (scan_rows_ok (Z.to_nat (ahi - alo)) alo [] (alo, blo, 0))
    as [m1 [E1 B1]]; [lia | lia | constructor | cbn; lia |].
  rewrite E1. cbn [bind].
  destruct (extend_back_ok (Z.to_nat (fst (fst m1) - alo)) m1)
    as [m2 [E2 B2]]; [|assumption|].
  { destruct m1 as [[i j] k]. cbn in *. lia. }
  rewrite E2. cbn [bind].
  destruct (extend_forward_ok (Z.to_nat (ahi - (fst (fst m2) + snd m2))) m2)
    as [m3 [E3 B3]]; [|assumption|].
  { destruct m2 as [[i j] k]. cbn in *. lia. }
  rewrite E3. cbn [bind].
  rewrite junk_back_ok by assumption. cbn [bind].
  rewrite junk_forward_ok by assumption. eauto.
Qed.

End FindLongest.

Section Queue.

Context {T : Type}.
Variable eqb : T -> T -> bool.
Hypothesis eqb_eq : forall x y, eqb x y = true <-> x = y.
Variables a b : list T.

Local Abbreviation entry_ok := (DifflibInv.entry_ok a b).
Local Abbreviation total_weight := DifflibInv.total_weight.
Local Abbreviation weight := DifflibInv.weight.

Lemma total_weight_nonneg q : Forall entry_ok q -> 0 <= total_weight q.
Proof.
  induction 1 as [|[[[alo ahi] blo] bhi] q He Hq IH];
    cbn [DifflibInv.total_weight DifflibInv.weight]; [lia|].
  unfold DifflibInv.entry_ok in He. lia.
Qed.

(** With fuel for the weight of the queue, the loop ends. *)
Lemma match_queue_ok b2j fuel q acc :
  Forall entry_ok q -> total_weight q <= Z.of_nat fuel ->
  exists blocks, match_queue eqb a b b2j fuel q acc = Ok blocks.
Proof.
  revert q acc. induction fuel as [|fuel IH]; intros q acc Hq Hw.
  - destruct q as [|[[[alo ahi] blo] bhi] q]; cbn; [eauto|].
    inversion Hq as [|? ? He Hq']; subst.
    pose proof (total_weight_nonneg q Hq').
    unfold DifflibInv.entry_ok in He. cbn [DifflibInv.total_weight DifflibInv.weight] in Hw. lia.
  - destruct q as [|[[[alo ahi] blo] bhi] q]; [cbn; eauto|].
    inversion Hq as [|? ? He Hq']; subst.
    cbn [match_queue].
    destruct He as [Ha Hb].
    destruct (find_longest_match_ok eqb a b b2j alo ahi blo bhi Ha Hb)
      as [[[i j] k] [E B]].
    rewrite E. cbn [bind]. unfold DifflibInv.in_range in B.
    cbn [DifflibInv.total_weight DifflibInv.weight] in Hw.
    destruct (k =? 0) eqn:Ek.
    + apply IH; [assumption | lia].
    + apply Z.eqb_neq in Ek.
      destruct ((alo <? i) && (blo <? j)) eqn:E1;
      destruct ((i + k <? ahi) && (j + k <? bhi)) eqn:E2;
      try (apply andb_true_iff in E1; destruct E1 as [E1a E1b];
           apply Z.ltb_lt in E1a; apply Z.ltb_lt in E1b);
      try (apply andb_true_iff in E2; destruct E2 as [E2a E2b];
           apply Z.ltb_lt in E2a; apply Z.ltb_lt in E2b);
      apply IH;
      repeat (constructor; [unfold DifflibInv.entry_ok; lia|]); try assumption;
      cbn [DifflibInv.total_weight DifflibInv.weight]; lia.
Qed.

Lemma get_matching_blocks_seed seed1 seed2 :
  valid_seed seed1 -> valid_seed seed2 ->
  get_matching_blocks eqb seed1 a b = get_matching_blocks eqb seed2 a b.
Proof.
  intros V1 V2. unfold get_matching_blocks.
  rewrite !(chain_b_ok eqb eqb_eq) by assumption. reflexivity.
Qed.

Lemma get_matching_blocks_ok seed :
  valid_seed seed ->
  exists blocks, get_matching_blocks eqb seed a b = Ok blocks.
Proof.
  intros V. unfold get_matching_blocks.
  rewrite (chain_b_ok eqb eqb_eq) by assumption. cbn [bind].
  destruct (match_queue_ok (DifflibInv.chained eqb b) (S (2 * List.length a))
              [(0, Z.of_nat (List.length a), 0, Z.of_nat (List.length b))] [])
    as [blocks E].
  - repeat constructor; lia.
  - cbn [DifflibInv.total_weight DifflibInv.weight]. lia.
  - rewrite E. cbn [bind]. eauto.
Qed.

Lemma get_opcodes_ok seed :
  valid_seed seed -> exists codes, get_opcodes eqb seed a b = Ok codes.
Proof.
  intros V. unfold get_opcodes.
  destruct (get_matching_blocks_ok seed V) as [blocks E].
  rewrite E. cbn [bind]. eauto.
Qed.

Lemma ratio_ok seed :
  valid_seed seed -> exists r, ratio eqb seed a b = Ok r.
Proof.
  intros V. unfold ratio.
  destruct (get_matching_blocks_ok seed V) as [blocks E].
  rewrite E. cbn [bind].
  destruct (Z.of_nat (List.length a) + Z.of_nat (List.length b) =? 0); eauto.
Qed.

Lemma ratio_seed seed1 seed2 :
  valid_seed seed1 -> valid_seed seed2 ->
  ratio eqb seed1 a b = ratio eqb seed2 a b.
Proof.
  intros V1 V2. unfold ratio.
  rewrite (get_matching_blocks_seed seed1 seed2) by assumption. reflexivity.
Qed.

Lemma get_opcodes_seed seed1 seed2 :
  valid_seed seed1 -> valid_seed seed2 ->
  get_opcodes eqb seed1 a b = get_opcodes eqb seed2 a b.
Proof.
  intros V1 V2. unfold get_opcodes.
  rewrite (get_matching_blocks_seed seed1 seed2) by assumption. reflexivity.
Qed.

End Queue.

(** Every group that [get_grouped_opcodes] yields has an opcode. *)
Lemma group_codes_nonempty n codes group groups :
  Forall (fun g => g <> []) groups ->
  Forall (fun g : list opcode => g <> [])
    (fst (group_codes n codes group groups)).
Proof.
  revert group groups.
  induction codes as [|[[[[t i1] i2] j1] j2] codes IH]; intros group groups H;
    cbn; [assumption|].
  destruct (is_equal t && (n + n <? i2 - i1)); apply IH; [|assumption].
  apply Forall_app. split; [assumption|].
  constructor; [|constructor]. destruct group; discriminate.
Qed.

Lemma grouped_nonempty n codes : Forall (fun g => g <> []) (grouped n codes).
Proof.
  unfold grouped.
  set (codes1 := fix_last n (fix_first n _)).
  pose proof (group_codes_nonempty n codes1 [] [] (Forall_nil _)) as H.
  destruct (group_codes n codes1 [] []) as [groups group]. cbn in H.
  assert (G : Forall (fun g : list opcode => g <> []) (groups ++ [group])
              \/ group = []).
  { destruct group; [right; reflexivity | left].
    apply Forall_app. split; [assumption|].
    constructor; [discriminate | constructor]. }
  destruct group as [|[[[[[] ?] ?] ?] ?] [|? ?]]; try assumption;
    destruct G as [G|G]; try discriminate; assumption.
Qed.

Lemma group_lines_ok a b group :
  group <> [] -> exists ls, group_lines a b group = Ok ls.
Proof.
  intros H. unfold group_lines.
  destruct (getitem_ok group 0) as [[[[[t1 f1] f2] f3] f4] E1].
  { destruct group; [congruence | cbn; lia]. }
  destruct (getitem_last_ok group H) as [[[[[t2 l1] l2] l3] l4] E2].
  rewrite E1, E2. cbn [bind]. eauto.
Qed.

Lemma groups_lines_ok a b groups :
  Forall (fun g => g <> []) groups ->
  exists ls, groups_lines a b groups = Ok ls.
Proof.
  induction 1 as [|g groups Hg Hgs [more IH]]; cbn [groups_lines]; [eauto|].
  destruct (group_lines_ok a b g Hg) as [ls E].
  rewrite E, IH. cbn [bind]. eauto.
Qed.

Lemma unified_diff_ok seed a b n :
  valid_seed seed -> exists diff, unified_diff seed a b n = Ok diff.
Proof.
  intros V. unfold unified_diff.
  destruct (get_opcodes_ok str_eqb str_eqb_eq a b seed V) as [codes E].
  rewrite E. cbn [bind].
  destruct (groups_lines_ok a b (grouped n codes) (grouped_nonempty n codes))
    as [body E'].
  rewrite E'. cbn [bind]. destruct (grouped n codes); eauto.
Qed.

Lemma unified_diff_seed seed1 seed2 a b n :
  valid_seed seed1 -> valid_seed seed2 ->
  unified_diff seed1 a b n = unified_diff seed2 a b n.
Proof.
  intros V1 V2. unfold unified_diff.
  rewrite (get_opcodes_seed str_eqb str_eqb_eq a b seed1 seed2) by assumption.
  reflexivity.
Qed.

End DifflibFacts.

(** ** The pairing loops *)

Lemma list_remove_first x l1 l2 :
  ~ In x l1 -> list_remove x (l1 ++ x :: l2) = Ok (l1 ++ l2).
Proof.
  induction l1 as [|y l1 IH]; intros H; cbn.
  - rewrite str_eqb_refl. reflexivity.
  - destruct (str_eqb y x) eqn:E.
    + apply str_eqb_eq in E. subst. cbn in H. tauto.
    + rewrite IH by (cbn in H; tauto). reflexivity.
Qed.

Lemma split_first_some {A : Type} (p : A -> bool) l pre x post :
  split_first p l = Some (pre, x, post) ->
  l = pre ++ x :: post /\ p x = true /\ Forall (fun y => p y = false) pre.
Proof.
  revert pre. induction l as [|y l IH]; intros pre H; cbn in H; [discriminate|].
  destruct (p y) eqn:E.
  - inversion H; subst. auto.
  - destruct (split_first p l) as [[[pre' z] post']|]; [|discriminate].
    inversion H; subst. destruct (IH pre' eq_refl) as [H1 [H2 H3]].
    subst. auto.
Qed.

Lemma split_first_none {A : Type} (p : A -> bool) l :
  split_first p l = None -> Forall (fun y => p y = false) l.
Proof.
  induction l as [|y l IH]; intros H; cbn in H; [constructor|].
  destruct (p y) eqn:E; [discriminate|].
  destruct (split_first p l) as [[[pre' z] post']|]; [discriminate|].
  auto.
Qed.

Section Pairing.

Variable seed : HashSeed.
Hypothesis V : valid_seed seed.

Lemma _are_similar_ok str1 str2 :
  _are_similar seed str1 str2 = Ok (similar seed str1 str2).
Proof.
  unfold similar, _are_similar.
  destruct (DifflibFacts.ratio_ok Z.eqb Z.eqb_eq str1 str2 seed V) as [r E].
  rewrite E. reflexivity.
Qed.

(** One pass over the copy of [added]: nothing changes until the first
    similar line is met. *)
Lemma pair_one_split rem adds st :
  pair_one seed rem adds st =
  match split_first (similar seed rem) adds with
  | None => Ok st
  | Some (_, add, _) =>
    let '(removed, added, modified) := st in
    removed' <- list_remove rem removed ;;
    added' <- list_remove add added ;;
    Ok (removed', added', modified ++ [(rem, add)])
  end.
Proof.
  induction adds as [|add adds IH]; cbn [pair_one split_first]; [reflexivity|].
  rewrite _are_similar_ok. cbn [bind].
  destruct (similar seed rem add); [reflexivity|].
  rewrite IH.
  destruct (split_first (similar seed rem) adds) as [[[pre y] post]|];
    reflexivity.
Qed.

(** The lines of [kept] were not paired and cannot be paired later: none
    of the added lines is similar to them. *)
Lemma pair_all_greedy rems kept added modified :
  (forall x y, In x kept -> In y added -> similar seed x y = false) ->
  pair_all seed rems (kept ++ rems, added, modified) =
  Ok (let '(r, a, m) := greedy_pairing (similar seed) rems added in
      (kept ++ r, a, modified ++ m)).
Proof.
  revert kept added modified.
  induction rems as [|rem rems IH]; intros kept added modified U;
    cbn [pair_all greedy_pairing].
  - rewrite !app_nil_r. reflexivity.
  - cbn [fst snd]. rewrite pair_one_split.
    destruct (split_first (similar seed rem) added) as [[[pre add] post]|] eqn:S.
    + destruct (split_first_some _ _ _ _ _ S) as [Hl [Hp Hpre]]. subst added.
      rewrite list_remove_first.
      2:{ intros HIn. rewrite (U rem add HIn) in Hp; [discriminate|].
          apply in_or_app. right. left. reflexivity. }
      cbn [bind]. rewrite list_remove_first.
      2:{ intros HIn. rewrite Forall_forall in Hpre.
          rewrite (Hpre add HIn) in Hp. discriminate. }
      cbn [bind]. rewrite IH.
      * destruct (greedy_pairing (similar seed) rems (pre ++ post))
          as [[r a] m].
        rewrite <- app_assoc. reflexivity.
      * intros x y Hx Hy. apply U; [assumption|].
        apply in_app_or in Hy. apply in_or_app.
        destruct Hy; [left | right; right]; assumption.
    + cbn [bind].
      replace (kept ++ rem :: rems) with ((kept ++ [rem]) ++ rems)
        by (rewrite <- app_assoc; reflexivity).
      rewrite IH.
      * destruct (greedy_pairing (similar seed) rems added) as [[r a] m].
        rewrite <- app_assoc. reflexivity.
      * intros x y Hx Hy. apply in_app_or in Hx. destruct Hx as [Hx|[Hx|[]]].
        -- apply U; assumption.
        -- subst x. apply split_first_none in S. rewrite Forall_forall in S.
           apply S. assumption.
Qed.

(** The loops of [compare] compute the greedy first-match pairing. *)
Lemma detect_modifications_greedy removed added :
  detect_modifications seed removed added
  = Ok (greedy_pairing (similar seed) removed added).
Proof.
  unfold detect_modifications.
  pose proof (pair_all_greedy removed [] added []) as H. cbn [app] in H.
  rewrite H by (intros x y []).
  destruct (greedy_pairing (similar seed) removed added) as [[r a] m].
  reflexivity.
Qed.

End Pairing.

(** What the pairing does to the two lists, for any similarity test. *)
Lemma greedy_pairing_partition sim removed added :
  let '(r, a, m) := greedy_pairing sim removed added in
  Permutation removed (r ++ map fst m)
  /\ Permutation added (a ++ map snd m)
  /\ Forall (fun p => sim (fst p) (snd p) = true) m.
Proof.
  revert added. induction removed as [|rem removed IH]; intros added;
    cbn [greedy_pairing].
  - cbn. rewrite app_nil_r. auto.
  - destruct (split_first (sim rem) added) as [[[pre add] post]|] eqn:S.
    + destruct (split_first_some _ _ _ _ _ S) as [Hl [Hp Hpre]]. subst added.
      specialize (IH (pre ++ post)).
      destruct (greedy_pairing sim removed (pre ++ post)) as [[r a] m].
      destruct IH as [P1 [P2 F]]. cbn [map fst snd]. repeat split.
      * apply Permutation_cons_app. exact P1.
      * apply Permutation_elt. exact P2.
      * constructor; assumption.
    + specialize (IH added).
      destruct (greedy_pairing sim removed added) as [[r a] m].
      destruct IH as [P1 [P2 F]]. repeat split; try assumption.
      cbn. constructor. exact P1.
Qed.

(** ** Floats *)

Lemma SFcompare_Eq_sym x y :
  SFcompare x y = Some Eq -> SFcompare y x = Some Eq.
Proof.
  destruct x as [sx|sx| |sx mx ex], y as [sy|sy| |sy my ey]; cbn;
    try discriminate; try reflexivity;
    try (destruct sx; discriminate); try (destruct sy; discriminate).
  - destruct sx, sy; try discriminate; reflexivity.
  - assert (R : forall m e, SFcompare (S754_finite sy m e) (S754_finite sy m e)
                              = Some Eq).
    { intros m e. cbn. rewrite Z.compare_refl.
      change (PosDef.Pos.compare_cont Eq m m) with (Pos.compare m m).
      rewrite Pos.compare_refl. destruct sy; reflexivity. }
    intros H.
    assert (E : sx = sy /\ ex = ey /\ mx = my).
    { destruct sx, sy; try discriminate;
        destruct (ex ?= ey) eqn:E; try discriminate;
        apply Z.compare_eq in E;
        change (PosDef.Pos.compare_cont Eq mx my) with (Pos.compare mx my) in H;
        destruct (Pos.compare mx my) eqn:M; try discriminate;
        apply Pos.compare_eq in M; auto. }
    destruct E as [? [? ?]]. subst. apply (R my ey).
Qed.

(** Two floats that compare equal are not strictly ordered. *)
Lemma float_eqb_not_ltb (x y : float) :
  (x =? y)%float = true -> (y <? x)%float = false.
Proof.
  rewrite FloatAxioms.eqb_spec, FloatAxioms.ltb_spec. unfold SFeqb, SFltb.
  destruct (SFcompare (Prim2SF x) (Prim2SF y)) as [[| |]|] eqn:E;
    try discriminate.
  intros _. rewrite (SFcompare_Eq_sym _ _ E). reflexivity.
Qed.

(** ** The two branches of [compare] *)

Lemma encode_ok (s : str) : encodable s -> exists bs, encode s = Ok bs.
Proof.
  induction 1 as [|c s Hc Hs [bs IH]]; cbn [encode]; [eauto|].
  rewrite IH. unfold encode_char. rewrite Hc.
  destruct (c <? 128); [cbn; eauto|].
  destruct (c <? 2048); [cbn; eauto|].
  destruct (c <? 65536); cbn; eauto.
Qed.

Lemma _hash_ok (s : str) : encodable s -> exists h, _hash s = Ok h.
Proof.
  intros H. destruct (encode_ok s H) as [bs E].
  unfold _hash. rewrite E. cbn. eauto.
Qed.

Section CompareFacts.

Variable ucd : UnicodeData.
Variable seed : HashSeed.
Variable self : ContentComparator.
Variables content_old content_new : str.
Variable filter_dynamic : bool.

Local Abbreviation lines_old := (diffed_lines ucd self filter_dynamic content_old).
Local Abbreviation lines_new := (diffed_lines ucd self filter_dynamic content_new).

Lemma compare_identical h :
  _hash content_old = Ok h -> _hash content_new = Ok h ->
  compare ucd seed self content_old content_new filter_dynamic
  = Ok (identical_result content_old content_new h).
Proof.
  intros H1 H2. unfold compare. rewrite H1, H2. cbn [bind].
  rewrite str_eqb_refl. reflexivity.
Qed.

Lemma compare_diffed h_old h_new :
  _hash content_old = Ok h_old -> _hash content_new = Ok h_new ->
  h_old <> h_new ->
  compare ucd seed self content_old content_new filter_dynamic
  = (diff <- Difflib.unified_diff seed lines_old lines_new 0 ;;
     st <- detect_modifications seed (snd (parse_diff diff [] []))
             (fst (parse_diff diff [] [])) ;;
     Ok (diffed_result self h_old h_new lines_old lines_new st)).
Proof.
  intros H1 H2 Hne. unfold compare. rewrite H1, H2. cbn [bind].
  destruct (str_eqb h_old h_new) eqn:E; [apply str_eqb_eq in E; contradiction|].
  unfold diffed_lines.
  destruct (Difflib.unified_diff seed _ _ 0) as [diff| |]; cbn [bind];
    try reflexivity.
  destruct (parse_diff diff [] []) as [added removed]. cbn [fst snd].
  destruct (detect_modifications seed removed added) as [[[r a] m]| |];
    cbn [bind]; try reflexivity.
  unfold truediv.
  destruct (Z.max (Z.max _ _) 1 =? 0) eqn:Z0; [apply Z.eqb_eq in Z0; lia|].
  reflexivity.
Qed.

Lemma compare_diffed_ok h_old h_new :
  valid_seed seed ->
  _hash content_old = Ok h_old -> _hash content_new = Ok h_new ->
  h_old <> h_new ->
  exists diff,
    Difflib.unified_diff seed lines_old lines_new 0 = Ok diff
    /\ compare ucd seed self content_old content_new filter_dynamic
       = Ok (diffed_result self h_old h_new lines_old lines_new
               (greedy_pairing (similar seed) (snd (parse_diff diff [] []))
                  (fst (parse_diff diff [] [])))).
Proof.
  intros V H1 H2 Hne. rewrite (compare_diffed h_old h_new H1 H2 Hne).
  destruct (DifflibFacts.unified_diff_ok seed lines_old lines_new 0 V)
    as [diff E].
  exists diff. split; [exact E|]. rewrite E. cbn [bind].
  rewrite detect_modifications_greedy by assumption. reflexivity.
Qed.

Lemma compare_diffed_inv h_old h_new r :
  _hash content_old = Ok h_old -> _hash content_new = Ok h_new ->
  h_old <> h_new ->
  compare ucd seed self content_old content_new filter_dynamic = Ok r ->
  exists st, r = diffed_result self h_old h_new lines_old lines_new st.
Proof.
  intros H1 H2 Hne. rewrite (compare_diffed h_old h_new H1 H2 Hne).
  destruct (Difflib.unified_diff seed _ _ 0) as [diff| |]; cbn [bind];
    try discriminate.
  destruct (detect_modifications seed _ _) as [st| |]; cbn [bind];
    try discriminate.
  intros H. inversion H. eauto.
Qed.

End CompareFacts.

Lemma valid_insertion_order : valid_seed insertion_order.
Proof. intros T l. apply Permutation_refl. Qed.

Lemma valid_reverse_order : valid_seed reverse_order.
Proof. intros T l. apply Permutation_sym, Permutation_rev. Qed.

Lemma split_first_ext {A : Type} (p q : A -> bool) l :
  (forall x, p x = q x) -> split_first p l = split_first q l.
Proof.
  intros H. induction l as [|x l IH]; cbn; [reflexivity|].
  rewrite H, IH. reflexivity.
Qed.

Lemma greedy_pairing_ext sim1 sim2 removed added :
  (forall x y, sim1 x y = sim2 x y) ->
  greedy_pairing sim1 removed added = greedy_pairing sim2 removed added.
Proof.
  intros H. revert added. induction removed as [|rem removed IH];
    intros added; cbn [greedy_pairing]; [reflexivity|].
  rewrite (split_first_ext (sim1 rem) (sim2 rem)) by (intros; apply H).
  destruct (split_first (sim2 rem) added) as [[[pre add] post]|];
    rewrite IH; reflexivity.
Qed.

Lemma similar_seed seed1 seed2 x y :
  valid_seed seed1 -> valid_seed seed2 -> similar seed1 x y = similar seed2 x y.
Proof.
  intros V1 V2. unfold similar, _are_similar.
  rewrite (DifflibFacts.ratio_seed Z.eqb Z.eqb_eq x y seed1 seed2)
    by assumption.
  reflexivity.
Qed.

(** ** The claims about [compare] *)

(** C1. When the two content hashes are equal, [compare] returns the fixed
    result: no change, score [0.0], empty lists of added, removed and
    modified lines, the summary "Aucun changement", and the line counts of
    the raw [splitlines] of each input. Neither normalization nor the diff
    runs: the result is the same for every Unicode table, every set order
    (valid or not), every comparator and either value of [filter_dynamic].
    The case [compare(x, x)] is the one where the two inputs are the same
    string. *)
Theorem C1_equal_hashes_short_circuit
    (ucd : UnicodeData) (seed : HashSeed) (self : ContentComparator)
    (content_old content_new : str) (filter_dynamic : bool) (h : str) :
  _hash content_old = Ok h -> _hash content_new = Ok h ->
  exists r,
    compare ucd seed self content_old content_new filter_dynamic = Ok r
    /\ has_changes r = false
    /\ change_score r = 0%float
    /\ added_lines r = [] /\ removed_lines r = [] /\ modified_lines r = []
    /\ diff_summary r = u "Aucun changement"
    /\ total_lines_old r = len (splitlines content_old)
    /\ total_lines_new r = len (splitlines content_new)
    /\ hash_old r = h /\ hash_new r = h.
Proof.
  intros H1 H2. exists (identical_result content_old content_new h).
  split; [apply compare_identical; assumption|].
  repeat split; reflexivity.
Qed.

(** The case of C1 where the two inputs are the same string. *)
Lemma compare_same_content
    (ucd : UnicodeData) (seed : HashSeed) (self : ContentComparator)
    (content : str) (filter_dynamic : bool) :
  encodable content ->
  exists h,
    _hash content = Ok h
    /\ compare ucd seed self content content filter_dynamic
       = Ok (identical_result content content h).
Proof.
  intros E. destruct (_hash_ok content E) as [h H].
  exists h. split; [exact H | apply compare_identical; exact H].
Qed.

Lemma C1_witness :
  exists r,
    compare ascii_ucd insertion_order (new_comparator 1)
      (u "Price: 99" ++ nl ++ u "Plan: Pro" ++ nl)
      (u "Price: 99" ++ nl ++ u "Plan: Pro" ++ nl) true = Ok r
    /\ has_changes r = false
    /\ change_score r = 0%float
    /\ added_lines r = [] /\ removed_lines r = [] /\ modified_lines r = []
    /\ diff_summary r = u "Aucun changement"
    /\ total_lines_old r = len (splitlines (u "Price: 99" ++ nl ++ u "Plan: Pro" ++ nl))
    /\ total_lines_new r = len (splitlines (u "Price: 99" ++ nl ++ u "Plan: Pro" ++ nl))
    /\ hash_old r = u "2a3647926c9272a790821e5b39e4968d"
    /\ hash_new r = u "2a3647926c9272a790821e5b39e4968d".
Proof.
  apply C1_equal_hashes_short_circuit; vm_compute; reflexivity.
Defined.

(** C2. In a result of the branch that diffs, the line counts are those of
    the normalized and filtered line lists, [change_score] is
    [(len(added_lines) + len(removed_lines) + len(modified_lines))
     / max(total_lines_old, total_lines_new, 1) * 100], and [has_changes]
    is the strict comparison [change_score > threshold]: a score equal to
    the threshold gives [has_changes = False]. *)
Theorem C2_score_and_strict_threshold
    (ucd : UnicodeData) (seed : HashSeed) (self : ContentComparator)
    (content_old content_new : str) (filter_dynamic : bool)
    (h_old h_new : str) (r : ComparisonResult) :
  _hash content_old = Ok h_old -> _hash content_new = Ok h_new ->
  h_old <> h_new ->
  compare ucd seed self content_old content_new filter_dynamic = Ok r ->
  total_lines_old r = len (diffed_lines ucd self filter_dynamic content_old)
  /\ total_lines_new r = len (diffed_lines ucd self filter_dynamic content_new)
  /\ change_score r
     = (float_of_int (len (added_lines r) + len (removed_lines r)
                      + len (modified_lines r))
        / float_of_int
            (Z.max (Z.max (total_lines_old r) (total_lines_new r)) 1)
        * 100)%float
  /\ has_changes r = (threshold self <? change_score r)%float
  /\ ((change_score r =? threshold self)%float = true ->
      has_changes r = false).
Proof.
  intros H1 H2 Hne E.
  destruct (compare_diffed_inv ucd seed self content_old content_new
              filter_dynamic h_old h_new r H1 H2 Hne E) as [[[rm ad] md] Hr].
  subst r. cbn [diffed_result total_lines_old total_lines_new change_score
                has_changes added_lines removed_lines modified_lines].
  repeat split.
  apply float_eqb_not_ltb.
Qed.

Lemma C2_witness :
  exists r,
    compare ascii_ucd insertion_order (new_comparator 1)
      (u "A" ++ nl ++ u "B" ++ nl) (u "A" ++ nl ++ u "B" ++ nl ++ u "C" ++ nl)
      true = Ok r
    /\ total_lines_old r = 2 /\ total_lines_new r = 3
    /\ change_score r
       = (float_of_int (len (added_lines r) + len (removed_lines r)
                        + len (modified_lines r))
          / float_of_int
              (Z.max (Z.max (total_lines_old r) (total_lines_new r)) 1)
          * 100)%float
    /\ has_changes r = (1 <? change_score r)%float
    /\ ((change_score r =? 1)%float = true -> has_changes r = false).
Proof.
  eexists. split; [vm_compute; reflexivity|].
  eapply (C2_score_and_strict_threshold ascii_ucd insertion_order
            (new_comparator 1) (u "A" ++ nl ++ u "B" ++ nl)
            (u "A" ++ nl ++ u "B" ++ nl ++ u "C" ++ nl) true);
    [vm_compute; reflexivity | vm_compute; reflexivity
     | vm_compute; discriminate | vm_compute; reflexivity].
Defined.

(** C3. The pairing loops compute the greedy first-match pairing: the
    removed lines are taken in the order of the diff; each is paired with
    the first added line not yet paired whose similarity ratio is at least
    0.7; the two lines of a pair leave the working lists; what is left of
    the lists is [removed_lines] and [added_lines], and the pairs are
    [modified_lines]. This holds for the loops on any two lists, and so for
    the result of [compare]. *)
Theorem C3_pairing_is_greedy_first_match
    (ucd : UnicodeData) (seed : HashSeed) (self : ContentComparator)
    (content_old content_new : str) (filter_dynamic : bool)
    (h_old h_new : str) :
  valid_seed seed ->
  _hash content_old = Ok h_old -> _hash content_new = Ok h_new ->
  h_old <> h_new ->
  (forall removed added,
     detect_modifications seed removed added
     = Ok (greedy_pairing (similar seed) removed added))
  /\ (forall x y,
        similar seed x y = true <->
        exists ratio, Difflib.ratio Z.eqb seed x y = Ok ratio
                      /\ (0x1.6666666666666p-1 <=? ratio)%float = true)
  /\ exists diff r,
       Difflib.unified_diff seed
         (diffed_lines ucd self filter_dynamic content_old)
         (diffed_lines ucd self filter_dynamic content_new) 0 = Ok diff
       /\ compare ucd seed self content_old content_new filter_dynamic = Ok r
       /\ (removed_lines r, added_lines r, modified_lines r)
          = greedy_pairing (similar seed)
              (snd (parse_diff diff [] [])) (fst (parse_diff diff [] [])).
Proof.
  intros V H1 H2 Hne. split; [|split].
  - intros removed added. apply detect_modifications_greedy. exact V.
  - intros x y. unfold similar, _are_similar.
    destruct (DifflibFacts.ratio_ok Z.eqb Z.eqb_eq x y seed V) as [ratio E].
    rewrite E. cbn [bind]. split.
    + intros H. exists ratio. auto.
    + intros [ratio' [E' H]]. inversion E'. subst. exact H.
  - destruct (compare_diffed_ok ucd seed self content_old content_new
                filter_dynamic h_old h_new V H1 H2 Hne) as [diff [D C]].
    exists diff. eexists. split; [exact D|]. split; [exact C|].
    destruct (greedy_pairing _ _ _) as [[rm ad] md]. reflexivity.
Qed.

Lemma C3_witness :
  (forall removed added,
     detect_modifications insertion_order removed added
     = Ok (greedy_pairing (similar insertion_order) removed added))
  /\ (forall x y,
        similar insertion_order x y = true <->
        exists ratio, Difflib.ratio Z.eqb insertion_order x y = Ok ratio
                      /\ (0x1.6666666666666p-1 <=? ratio)%float = true)
  /\ exists diff r,
       Difflib.unified_diff insertion_order
         (diffed_lines ascii_ucd (new_comparator 1) true
            (u "Price: 99 EUR" ++ nl))
         (diffed_lines ascii_ucd (new_comparator 1) true
            (u "Price: 129 EUR" ++ nl)) 0 = Ok diff
       /\ compare ascii_ucd insertion_order (new_comparator 1)
            (u "Price: 99 EUR" ++ nl) (u "Price: 129 EUR" ++ nl) true = Ok r
       /\ (removed_lines r, added_lines r, modified_lines r)
          = greedy_pairing (similar insertion_order)
              (snd (parse_diff diff [] [])) (fst (parse_diff diff [] [])).
Proof.
  eapply (C3_pairing_is_greedy_first_match ascii_ucd insertion_order
            (new_comparator 1) (u "Price: 99 EUR" ++ nl)
            (u "Price: 129 EUR" ++ nl) true);
    [exact valid_insertion_order | vm_compute; reflexivity
     | vm_compute; reflexivity | vm_compute; discriminate].
Defined.

(** C4, as amended. In a result of the branch that diffs, every line that
    the diff step classified as removed ends up, occurrence by occurrence,
    either in [removed_lines] or as the old side of exactly one pair of
    [modified_lines], and every line classified as added either in
    [added_lines] or as the new side of exactly one pair; the pairs are made
    of such lines only, and the two lines of a pair are similar. (A text
    that the diff removed twice may be paired once and left once.) *)
Theorem C4_pairs_partition_the_diff
    (ucd : UnicodeData) (seed : HashSeed) (self : ContentComparator)
    (content_old content_new : str) (filter_dynamic : bool)
    (h_old h_new : str) :
  valid_seed seed ->
  _hash content_old = Ok h_old -> _hash content_new = Ok h_new ->
  h_old <> h_new ->
  exists diff r,
    Difflib.unified_diff seed
      (diffed_lines ucd self filter_dynamic content_old)
      (diffed_lines ucd self filter_dynamic content_new) 0 = Ok diff
    /\ compare ucd seed self content_old content_new filter_dynamic = Ok r
    /\ Permutation (snd (parse_diff diff [] []))
         (removed_lines r ++ map fst (modified_lines r))
    /\ Permutation (fst (parse_diff diff [] []))
         (added_lines r ++ map snd (modified_lines r))
    /\ (forall p, In p (modified_lines r) ->
          In (fst p) (snd (parse_diff diff [] []))
          /\ In (snd p) (fst (parse_diff diff [] []))
          /\ similar seed (fst p) (snd p) = true).
Proof.
  intros V H1 H2 Hne.
  destruct (compare_diffed_ok ucd seed self content_old content_new
              filter_dynamic h_old h_new V H1 H2 Hne) as [diff [D C]].
  exists diff. eexists. split; [exact D|]. split; [exact C|].
  pose proof (greedy_pairing_partition (similar seed)
                (snd (parse_diff diff [] [])) (fst (parse_diff diff [] [])))
    as P.
  destruct (greedy_pairing _ _ _) as [[rm ad] md].
  destruct P as [P1 [P2 F]].
  cbn [diffed_result removed_lines added_lines modified_lines].
  split; [exact P1|]. split; [exact P2|].
  intros p Hp. rewrite Forall_forall in F. repeat split.
  - eapply Permutation_in; [apply Permutation_sym; exact P1|].
    apply in_or_app. right. apply in_map. exact Hp.
  - eapply Permutation_in; [apply Permutation_sym; exact P2|].
    apply in_or_app. right. apply in_map. exact Hp.
  - apply F. exact Hp.
Qed.

Lemma C4_witness :
  exists diff r,
    Difflib.unified_diff insertion_order
      (diffed_lines ascii_ucd (new_comparator 1) true
         (u "apple pie" ++ nl ++ u "apple pie" ++ nl))
      (diffed_lines ascii_ucd (new_comparator 1) true
         (u "apple pies" ++ nl)) 0 = Ok diff
    /\ compare ascii_ucd insertion_order (new_comparator 1)
         (u "apple pie" ++ nl ++ u "apple pie" ++ nl)
         (u "apple pies" ++ nl) true = Ok r
    /\ Permutation (snd (parse_diff diff [] []))
         (removed_lines r ++ map fst (modified_lines r))
    /\ Permutation (fst (parse_diff diff [] []))
         (added_lines r ++ map snd (modified_lines r))
    /\ (forall p, In p (modified_lines r) ->
          In (fst p) (snd (parse_diff diff [] []))
          /\ In (snd p) (fst (parse_diff diff [] []))
          /\ similar insertion_order (fst p) (snd p) = true).
Proof.
  eapply (C4_pairs_partition_the_diff ascii_ucd insertion_order
            (new_comparator 1) (u "apple pie" ++ nl ++ u "apple pie" ++ nl)
            (u "apple pies" ++ nl) true);
    [exact valid_insertion_order | vm_compute; reflexivity
     | vm_compute; reflexivity | vm_compute; discriminate].
Defined.

(** The claim C4 as stated fails: the text "apple pie", removed twice, is
    in [removed_lines] and in a pair of [modified_lines]. *)
Lemma C4_counterexample :
  exists r,
    compare ascii_ucd insertion_order (new_comparator 1)
      (u "apple pie" ++ nl ++ u "apple pie" ++ nl)
      (u "apple pies" ++ nl) true = Ok r
    /\ In (u "apple pie") (removed_lines r)
    /\ In (u "apple pie", u "apple pies") (modified_lines r).
Proof.
  eexists. split; [vm_compute; reflexivity|].
  split; left; reflexivity.
Qed.

(** C8, as amended. For two strings that UTF-8 can encode, that is, with
    no lone surrogate, and every comparator (so every threshold), [compare]
    returns a result: no call raises and no loop runs on; the denominator
    of the score is at least 1. *)
Theorem C8_compare_returns
    (ucd : UnicodeData) (seed : HashSeed) (self : ContentComparator)
    (content_old content_new : str) (filter_dynamic : bool) :
  valid_seed seed -> encodable content_old -> encodable content_new ->
  exists r,
    compare ucd seed self content_old content_new filter_dynamic = Ok r
    /\ 1 <= Z.max (Z.max (total_lines_old r) (total_lines_new r)) 1.
Proof.
  intros V E1 E2.
  destruct (_hash_ok content_old E1) as [h_old H1].
  destruct (_hash_ok content_new E2) as [h_new H2].
  destruct (list_eq_dec Z.eq_dec h_old h_new) as [Heq|Hne].
  - subst h_new. eexists. split; [|apply Z.le_max_r].
    apply (compare_identical _ _ _ _ _ _ h_old); assumption.
  - destruct (compare_diffed_ok ucd seed self content_old content_new
                filter_dynamic h_old h_new V H1 H2 Hne) as [diff [D C]].
    eexists. split; [exact C | apply Z.le_max_r].
Qed.

Lemma C8_witness :
  exists r,
    compare ascii_ucd insertion_order (new_comparator 1) nl [] true = Ok r
    /\ 1 <= Z.max (Z.max (total_lines_old r) (total_lines_new r)) 1.
Proof.
  apply (C8_compare_returns ascii_ucd insertion_order (new_comparator 1)
           nl [] true);
    [exact valid_insertion_order | repeat constructor | constructor].
Defined.

(** The claim C8 as stated fails: a [str] may hold a lone surrogate, and
    then [_hash] raises [UnicodeEncodeError]. *)
Lemma C8_counterexample :
  is_str [0xD800]
  /\ compare ascii_ucd insertion_order (new_comparator 1) [0xD800] [] true
     = Raise UnicodeEncodeError.
Proof.
  split; [repeat constructor; discriminate | reflexivity].
Qed.

(** C9. [compare] is deterministic. The only thing that can differ between
    two runs on the same inputs is the order in which the interpreter
    iterates a set, which depends on its hash seed; the outcome of
    [compare] is the same for every such order, lists of lines included. *)
Theorem C9_compare_deterministic
    (ucd : UnicodeData) (seed1 seed2 : HashSeed) (self : ContentComparator)
    (content_old content_new : str) (filter_dynamic : bool) :
  valid_seed seed1 -> valid_seed seed2 ->
  compare ucd seed1 self content_old content_new filter_dynamic
  = compare ucd seed2 self content_old content_new filter_dynamic.
Proof.
  intros V1 V2.
  destruct (_hash content_old) as [h_old| |] eqn:H1;
    [|unfold compare; rewrite H1; reflexivity
      |unfold compare; rewrite H1; reflexivity].
  destruct (_hash content_new) as [h_new| |] eqn:H2;
    [|unfold compare; rewrite H1, H2; reflexivity
      |unfold compare; rewrite H1, H2; reflexivity].
  destruct (list_eq_dec Z.eq_dec h_old h_new) as [Heq|Hne].
  - subst h_new. rewrite !(compare_identical _ _ _ _ _ _ h_old) by assumption.
    reflexivity.
  - rewrite !(compare_diffed _ _ _ _ _ _ h_old h_new) by assumption.
    rewrite (DifflibFacts.unified_diff_seed seed1 seed2) by assumption.
    destruct (Difflib.unified_diff seed2 _ _ 0) as [diff| |]; cbn [bind];
      try reflexivity.
    rewrite !detect_modifications_greedy by assumption.
    rewrite (greedy_pairing_ext (similar seed1) (similar seed2))
      by (intros; apply similar_seed; assumption).
    reflexivity.
Qed.

Lemma C9_witness :
  compare ascii_ucd insertion_order (new_comparator 1)
    (u "Price: 99 EUR" ++ nl) (u "Price: 129 EUR" ++ nl) true
  = compare ascii_ucd reverse_order (new_comparator 1)
      (u "Price: 99 EUR" ++ nl) (u "Price: 129 EUR" ++ nl) true.
Proof.
  apply C9_compare_deterministic;
    [exact valid_insertion_order | exact valid_reverse_order].
Defined.

(** ** The noise patterns *)

Section Patterns.

Variable ucd : UnicodeData.

Lemma match_here_any_star s : match_here ucd [any_star] s = true.
Proof.
  cbn. destruct s as [|c s]; cbn; [reflexivity | apply orb_true_r].
Qed.

Lemma match_here_once a p c s :
  match_here ucd (once a :: p) (c :: s)
  = atom_match ucd a c && match_here ucd p s.
Proof. destruct s; reflexivity. Qed.

Lemma match_here_once_nil a p : match_here ucd (once a :: p) [] = false.
Proof. reflexivity. Qed.

(** A phrase followed by [.*] matches at the start of the strings that
    start with the phrase, case ignored. *)
Lemma match_here_phrase phrase s :
  match_here ucd (phrase_pattern phrase) s = true <->
  exists mid post,
    s = mid ++ post
    /\ Forall2 (fun c ch => atom_match ucd (Lit c) ch = true) phrase mid.
Proof.
  unfold phrase_pattern. revert s.
  induction phrase as [|c phrase IH]; intros s; cbn [map app].
  - rewrite match_here_any_star. split; [|reflexivity].
    intros _. exists [], s. split; [reflexivity | constructor].
  - destruct s as [|ch s].
    + rewrite match_here_once_nil. split; [discriminate|].
      intros [mid [post [E F]]]. inversion F; subst. discriminate.
    + rewrite match_here_once, andb_true_iff, IH. split.
      * intros [Hc [mid [post [E F]]]]. subst s.
        exists (ch :: mid), post. split; [reflexivity|].
        constructor; assumption.
      * intros [mid [post [E F]]]. inversion F as [|? ch' ? mid' Hc F']; subst.
        cbn in E. inversion E; subst. split; [assumption|].
        exists mid', post. auto.
Qed.

Lemma search_iff p s :
  search ucd p s = true <->
  exists pre suf, s = pre ++ suf /\ match_here ucd p suf = true.
Proof.
  induction s as [|c s IH]; cbn [search]; rewrite orb_true_iff.
  - split.
    + intros [H|H]; [|discriminate]. exists [], []. auto.
    + intros [pre [suf [E H]]].
      destruct pre; [|discriminate]. cbn in E. subst. auto.
  - rewrite IH. split.
    + intros [H|[pre [suf [E H]]]].
      * exists [], (c :: s). auto.
      * subst s. exists (c :: pre), suf. auto.
    + intros [pre [suf [E H]]]. destruct pre as [|c' pre]; cbn in E.
      * subst suf. auto.
      * inversion E; subst. right. exists pre, suf. auto.
Qed.

Lemma search_phrase phrase line :
  search ucd (phrase_pattern phrase) line = true <->
  contains_ci ucd phrase line.
Proof.
  rewrite search_iff. unfold contains_ci. split.
  - intros [pre [suf [E H]]]. apply match_here_phrase in H.
    destruct H as [mid [post [E' F]]]. subst. exists pre, mid, post. auto.
  - intros [pre [mid [post [E F]]]]. exists pre, (mid ++ post).
    split; [assumption|]. apply match_here_phrase. exists mid, post. auto.
Qed.

Lemma is_dynamic_existsb patterns line :
  is_dynamic ucd patterns line
  = existsb (fun p => search ucd p line) patterns.
Proof.
  induction patterns as [|p patterns IH]; cbn; [reflexivity|].
  rewrite IH. destruct (search ucd p line); reflexivity.
Qed.

Lemma _filter_dynamic_content_filter lines :
  _filter_dynamic_content ucd lines
  = filter (fun line =>
              negb (existsb (fun p => search ucd p line) DYNAMIC_PATTERNS))
      lines.
Proof.
  induction lines as [|line lines IH]; cbn [_filter_dynamic_content filter];
    [reflexivity|].
  rewrite is_dynamic_existsb, IH.
  destruct (existsb _ DYNAMIC_PATTERNS); reflexivity.
Qed.

Lemma ascii_lower_ascii ch : is_ascii ch = true -> is_ascii (ascii_lower ch) = true.
Proof.
  unfold is_ascii, ascii_lower. intros H.
  apply andb_true_iff in H. destruct H as [H1 H2].
  apply Z.leb_le in H1. apply Z.ltb_lt in H2.
  destruct ((65 <=? ch) && (ch <=? 90)) eqn:E.
  - apply andb_true_iff in E. destruct E as [E1 E2].
    apply Z.leb_le in E1. apply Z.leb_le in E2.
    apply andb_true_iff. split; [apply Z.leb_le | apply Z.ltb_lt]; lia.
  - apply andb_true_iff. split; [apply Z.leb_le | apply Z.ltb_lt]; lia.
Qed.

(** On ASCII characters, a literal is compared up to the case of letters. *)
Lemma atom_match_ascii c ch :
  is_ascii ch = true ->
  atom_match ucd (Lit c) ch
  = if is_ascii_letter c then ascii_lower ch =? ascii_lower c else ch =? c.
Proof.
  intros H. cbn [atom_match]. destruct (is_ascii_letter c); [|reflexivity].
  unfold tolower. rewrite H.
  pose proof (ascii_lower_ascii ch H) as L.
  unfold is_ascii in L. apply andb_true_iff in L. destruct L as [L1 L2].
  apply Z.leb_le in L1. apply Z.ltb_lt in L2.
  cbn [existsb]. unfold fixes.
  assert (N : forall l, existsb (Z.eqb (ascii_lower ch)) l = true ->
                        In (ascii_lower ch) l).
  { intros l Hl. apply existsb_exists in Hl. destruct Hl as [x [Hx E]].
    apply Z.eqb_eq in E. subst. assumption. }
  match goal with |- _ || ?e = _ => destruct e eqn:E end.
  - apply N in E.
    destruct (ascii_lower c =? 105); [destruct E as [E|[]]; lia|].
    destruct (ascii_lower c =? 115); [destruct E as [E|[]]; lia | destruct E].
  - apply orb_false_r.
Qed.

End Patterns.

(** C5, as amended. With dynamic filtering, a normalized line is discarded
    exactly when one of the patterns of [DYNAMIC_PATTERNS] is found in it by
    [re.search], case ignored. Each of the patterns "Updated:", "Last
    modified:", "Session ID:", "Cookie:" and "Generated on" is found in
    exactly the lines that contain the phrase anywhere, not only at their
    beginning; on ASCII characters, ignoring case means comparing letters
    up to their case. *)
Theorem C5_patterns_are_searched_anywhere (ucd : UnicodeData) :
  (forall lines,
     _filter_dynamic_content ucd lines
     = filter (fun line =>
                 negb (existsb (fun p => search ucd p line) DYNAMIC_PATTERNS))
         lines)
  /\ Forall (fun phrase =>
               In (phrase_pattern phrase) DYNAMIC_PATTERNS
               /\ forall line,
                    search ucd (phrase_pattern phrase) line = true
                    <-> contains_ci ucd phrase line)
       [u "Updated:"; u "Last modified:"; u "Session ID:"; u "Cookie:";
        u "Generated on"]
  /\ (forall c ch,
        is_ascii ch = true ->
        atom_match ucd (Lit c) ch
        = if is_ascii_letter c then ascii_lower ch =? ascii_lower c
          else ch =? c).
Proof.
  split; [apply _filter_dynamic_content_filter|].
  split; [|apply atom_match_ascii].
  assert (S : forall phrase line,
                search ucd (phrase_pattern phrase) line = true
                <-> contains_ci ucd phrase line)
    by (intros; apply search_phrase).
  constructor; [split; [do 3 right; left; reflexivity | apply S]|].
  constructor; [split; [do 4 right; left; reflexivity | apply S]|].
  constructor; [split; [do 5 right; left; reflexivity | apply S]|].
  constructor; [split; [do 6 right; left; reflexivity | apply S]|].
  constructor; [split; [do 9 right; left; reflexivity | apply S]|].
  constructor.
Qed.

(** The claim C5 as stated fails: the line "Status updated: ok" does not
    begin with "Updated:", in any case, and is discarded, by the pattern
    "Updated:" alone. *)
Lemma C5_counterexample :
  _filter_dynamic_content ascii_ucd [u "Status updated: ok"] = []
  /\ startswith (u "updated:") (lower ascii_ucd (u "Status updated: ok"))
     = false
  /\ map (fun p => search ascii_ucd p (u "Status updated: ok"))
       DYNAMIC_PATTERNS
     = [false; false; false; true; false; false; false; false; false; false].
Proof. vm_compute. repeat split. Qed.

(** ** Scenarios *)

(** C6. For old = "A\nB\n", new = "A\nB\nC\n", threshold 1.0 and the
    default flags, [compare] returns [added_lines = ["C"]], no removed and
    no modified line, a score of one line in three, in percent (the float
    [1/3*100], which is 33.33333333333333, within [2^-46] of the float
    [100/3] and between 33.33 and 33.34), and [has_changes = True]. *)
Theorem C6_pure_addition (ucd : UnicodeData) (seed : HashSeed) :
  exists r,
    compare ucd seed (new_comparator 1)
      (u "A" ++ nl ++ u "B" ++ nl) (u "A" ++ nl ++ u "B" ++ nl ++ u "C" ++ nl)
      true = Ok r
    /\ compare_content ucd seed
         (u "A" ++ nl ++ u "B" ++ nl)
         (u "A" ++ nl ++ u "B" ++ nl ++ u "C" ++ nl) 1 = Ok r
    /\ added_lines r = [u "C"]
    /\ removed_lines r = []
    /\ modified_lines r = []
    /\ change_score r = (1 / 3 * 100)%float
    /\ (abs (change_score r - 100 / 3) <? 0x1p-46)%float = true
    /\ (3333 / 100 <? change_score r)%float = true
    /\ (change_score r <? 3334 / 100)%float = true
    /\ has_changes r = true.
Proof.
  eexists. split; [vm_compute; reflexivity|].
  vm_compute. repeat split.
Qed.

(** C7. For old = "Price: 99 EUR\n" and new = "Price: 129 EUR\n" with the
    default flags, the two lines have a similarity ratio of 24/27, which is
    at least 0.7, and [compare] returns one pair of modified lines and no
    added and no removed line. *)
Theorem C7_near_duplicate_is_a_modification
    (ucd : UnicodeData) (seed : HashSeed) :
  exists r,
    compare ucd seed (new_comparator 1)
      (u "Price: 99 EUR" ++ nl) (u "Price: 129 EUR" ++ nl) true = Ok r
    /\ modified_lines r = [(u "Price: 99 EUR", u "Price: 129 EUR")]
    /\ added_lines r = []
    /\ removed_lines r = []
    /\ Difflib.ratio Z.eqb seed (u "Price: 99 EUR") (u "Price: 129 EUR")
       = Ok (2 * 12 / 27)%float
    /\ (0x1.6666666666666p-1 <=? 2 * 12 / 27)%float = true.
Proof.
  eexists. split; [vm_compute; reflexivity|].
  vm_compute. repeat split.
Qed.

(** C10. The loop that reads the diff skips every line that starts with
    "---", "+++" or "@@". The diff line of a removed line is "-" followed
    by its text, so a removed line whose text starts with "--" is skipped,
    and so is an added line whose text starts with "++": such a line is in
    none of the lists of the result and is not counted in the score. For
    old = "-- comment\nA\n" and new = "A\n", and for old = "A\n" and
    new = "A\n++ more\n", [compare] reports no change at all. *)
Theorem C10_lines_taken_for_headers (ucd : UnicodeData) (seed : HashSeed) :
  (forall text rest added removed,
     parse_diff ((u "-" ++ u "--" ++ text) :: rest) added removed
     = parse_diff rest added removed)
  /\ (forall text rest added removed,
        parse_diff ((u "+" ++ u "++" ++ text) :: rest) added removed
        = parse_diff rest added removed)
  /\ (forall text rest added removed,
        parse_diff ((u "@@" ++ text) :: rest) added removed
        = parse_diff rest added removed)
  /\ (exists r,
        Difflib.unified_diff seed [u "-- comment"; u "A"] [u "A"] 0
        = Ok [u "--- "; u "+++ "; u "@@ -1 +0,0 @@"; u "-" ++ u "-- comment"]
        /\ compare ucd seed (new_comparator 1)
             (u "-- comment" ++ nl ++ u "A" ++ nl) (u "A" ++ nl) true = Ok r
        /\ total_lines_old r = 2 /\ total_lines_new r = 1
        /\ removed_lines r = [] /\ added_lines r = []
        /\ modified_lines r = []
        /\ change_score r = 0%float /\ has_changes r = false)
  /\ (exists r,
        Difflib.unified_diff seed [u "A"] [u "A"; u "++ more"] 0
        = Ok [u "--- "; u "+++ "; u "@@ -1,0 +2 @@"; u "+" ++ u "++ more"]
        /\ compare ucd seed (new_comparator 1)
             (u "A" ++ nl) (u "A" ++ nl ++ u "++ more" ++ nl) true = Ok r
        /\ total_lines_old r = 1 /\ total_lines_new r = 2
        /\ removed_lines r = [] /\ added_lines r = []
        /\ modified_lines r = []
        /\ change_score r = 0%float /\ has_changes r = false).
Proof.
  split; [reflexivity|]. split; [reflexivity|]. split; [reflexivity|].
  split; eexists; (split; [vm_compute; reflexivity|]);
    (split; [vm_compute; reflexivity|]); vm_compute; repeat split.
Qed.

(** * Further properties of the code *)

(** ** Repetitions of a one-character test *)

Lemma match_repeat_zero p k s : match_repeat p k 0 (Some 0%nat) s = k s.
Proof. destruct s; reflexivity. Qed.

Lemma match_repeat_exact p k n s :
  match_repeat p k n (Some n) s = true <->
  exists pre rest,
    s = pre ++ rest /\ List.length pre = n /\ forallb p pre = true
    /\ k rest = true.
Proof.
  revert s. induction n as [|n IH]; intros s.
  - rewrite match_repeat_zero. split.
    + intros H. exists [], s. auto.
    + intros [pre [rest [E [L [F K]]]]]. destruct pre; [|discriminate].
      cbn in E. subst. exact K.
  - destruct s as [|c s].
    + split; [discriminate|].
      intros [pre [rest [E [L [F K]]]]]. destruct pre; discriminate.
    + change (match_repeat p k (S n) (Some (S n)) (c :: s))
        with (p c && match_repeat p k n (Some n) s).
      rewrite andb_true_iff, IH. split.
      * intros [Hc [pre [rest [E [L [F K]]]]]]. subst s.
        exists (c :: pre), rest. cbn. rewrite Hc, F. auto.
      * intros [pre [rest [E [L [F K]]]]]. destruct pre as [|c' pre];
          [discriminate|].
        cbn in E, L, F. inversion E; subst.
        apply andb_true_iff in F. destruct F as [Hc F].
        split; [exact Hc|]. exists pre, rest. auto.
Qed.

Lemma match_repeat_unbounded p k lo s :
  match_repeat p k lo None s = true <->
  exists pre rest,
    s = pre ++ rest /\ (lo <= List.length pre)%nat /\ forallb p pre = true
    /\ k rest = true.
Proof.
  revert lo. induction s as [|c s IH]; intros lo.
  - destruct lo; cbn [match_repeat].
    + split.
      * intros H. exists [], []. cbn. auto.
      * intros [pre [rest [E [L [F K]]]]].
        destruct pre; [|discriminate]. destruct rest; [|discriminate].
        exact K.
    + split; [discriminate|].
      intros [pre [rest [E [L [F K]]]]]. destruct pre; [cbn in L; lia|].
      discriminate.
  - destruct lo.
    + change (match_repeat p k 0 None (c :: s))
        with ((p c && match_repeat p k 0 None s) || k (c :: s)).
      rewrite orb_true_iff, andb_true_iff, IH. split.
      * intros [[Hc [pre [rest [E [L [F K]]]]]]|K].
        -- subst s. exists (c :: pre), rest. cbn. rewrite Hc, F.
           repeat split; [lia | exact K].
        -- exists [], (c :: s). cbn. auto.
      * intros [pre [rest [E [L [F K]]]]]. destruct pre as [|c' pre].
        -- cbn in E. subst rest. right. exact K.
        -- cbn in E, F. inversion E; subst.
           apply andb_true_iff in F. destruct F as [Hc F].
           left. split; [exact Hc|]. exists pre, rest.
           repeat split; [lia | exact F | exact K].
    + change (match_repeat p k (S lo) None (c :: s))
        with (p c && match_repeat p k lo None s).
      rewrite andb_true_iff, IH. split.
      * intros [Hc [pre [rest [E [L [F K]]]]]]. subst s.
        exists (c :: pre), rest. cbn. rewrite Hc, F.
        repeat split; [lia | exact K].
      * intros [pre [rest [E [L [F K]]]]]. destruct pre as [|c' pre];
          [cbn in L; lia|].
        cbn in E, L, F. inversion E; subst.
        apply andb_true_iff in F. destruct F as [Hc F].
        split; [exact Hc|]. exists pre, rest.
        repeat split; [lia | exact F | exact K].
Qed.

(** ** Sequences *)

Lemma In_firstn {A : Type} (n : nat) (l : list A) (x : A) :
  In x (firstn n l) -> In x l.
Proof.
  intros H. rewrite <- (firstn_skipn n l). apply in_or_app. left. exact H.
Qed.

Lemma In_skipn {A : Type} (n : nat) (l : list A) (x : A) :
  In x (skipn n l) -> In x l.
Proof.
  intros H. rewrite <- (firstn_skipn n l). apply in_or_app. right. exact H.
Qed.

Lemma slice_prefix {A : Type} (l : list A) (k : Z) :
  0 <= k -> slice l 0 k = firstn (Z.to_nat k) l.
Proof.
  intros H. unfold slice, clamp.
  destruct (0 <? 0) eqn:E0; [discriminate|].
  destruct (k <? 0) eqn:Ek; [apply Z.ltb_lt in Ek; lia|].
  rewrite (Z.min_l 0) by lia. cbn [Z.to_nat skipn]. rewrite Z.sub_0_r.
  destruct (Z.le_ge_cases k (Z.of_nat (List.length l))) as [L|L].
  - rewrite Z.min_l by lia. reflexivity.
  - rewrite Z.min_r by lia. rewrite Nat2Z.id.
    rewrite !firstn_all2 by lia. reflexivity.
Qed.

Lemma slice_incl {A : Type} (l : list A) (i j : Z) : incl (slice l i j) l.
Proof.
  unfold slice. intros x H.
  apply In_firstn in H. eapply In_skipn. exact H.
Qed.



(** ** [src/utils/validators.py] *)

Lemma expect_spec c k s :
  expect c k s = true <-> exists s', s = c :: s' /\ k s' = true.
Proof.
  destruct s as [|x s]; cbn.
  - split; [discriminate | intros [s' [E _]]; discriminate].
  - rewrite andb_true_iff, Z.eqb_eq. split.
    + intros [-> K]. eauto.
    + intros [s' [E K]]. inversion E; subst. auto.
Qed.

Lemma at_end_spec s : at_end s = true <-> s = [] \/ s = nl.
Proof.
  destruct s as [|c [|d s]]; cbn.
  - tauto.
  - rewrite Z.eqb_eq. unfold nl. split.
    + intros ->. auto.
    + intros [H|H]; [discriminate | inversion H; reflexivity].
  - unfold nl. split; [discriminate | intros [H|H]; discriminate].
Qed.

(** X1. [is_valid_email] accepts exactly the strings of the form
    local@domain.tld, where local is a non-empty string over
    [a-zA-Z0-9._%+-], domain a non-empty string over [a-zA-Z0-9.-] and tld
    at least two ASCII letters, and the same strings followed by one line
    feed: [$] also matches before a final line feed. *)
Theorem is_valid_email_spec (email : str) :
  is_valid_email email = true <->
  exists local domain tld tail,
    email = local ++ [64] ++ domain ++ [46] ++ tld ++ tail
    /\ local <> [] /\ forallb local_char local = true
    /\ domain <> [] /\ forallb domain_char domain = true
    /\ (2 <= List.length tld)%nat /\ forallb is_alpha tld = true
    /\ (tail = [] \/ tail = nl).
Proof.
  unfold is_valid_email. rewrite match_repeat_unbounded. split.
  - intros [l [r1 [E1 [L1 [F1 K1]]]]].
    apply expect_spec in K1. destruct K1 as [r2 [E2 K2]].
    apply match_repeat_unbounded in K2.
    destruct K2 as [d [r3 [E3 [L3 [F3 K3]]]]].
    apply expect_spec in K3. destruct K3 as [r4 [E4 K4]].
    apply match_repeat_unbounded in K4.
    destruct K4 as [t [tail [E5 [L5 [F5 K5]]]]].
    apply at_end_spec in K5.
    exists l, d, t, tail. subst. cbn [app].
    repeat split; try assumption.
    + intros ->. cbn in L1. lia.
    + intros ->. cbn in L3. lia.
  - intros [l [d [t [tail [E [Nl [Fl [Nd [Fd [Lt [Ft Ht]]]]]]]]]]].
    exists l, ([64] ++ d ++ [46] ++ t ++ tail).
    split; [exact E|]. split; [destruct l; [congruence | cbn; lia]|].
    split; [exact Fl|].
    apply expect_spec. exists (d ++ [46] ++ t ++ tail).
    split; [reflexivity|].
    apply match_repeat_unbounded. exists d, ([46] ++ t ++ tail).
    split; [reflexivity|]. split; [destruct d; [congruence | cbn; lia]|].
    split; [exact Fd|].
    apply expect_spec. exists (t ++ tail). split; [reflexivity|].
    apply match_repeat_unbounded. exists t, tail.
    repeat split; try assumption. apply at_end_spec. exact Ht.
Qed.

(** X2. The result of [sanitize_filename] has the length of its argument,
    up to 200 characters, holds none of the characters that the pattern
    lists, and is left unchanged by a second call. *)
Theorem sanitize_filename_safe (filename : str) :
  List.length (sanitize_filename filename)
  = Nat.min 200 (List.length filename)
  /\ Forall (fun c => unsafe_char c = false) (sanitize_filename filename)
  /\ sanitize_filename (sanitize_filename filename)
     = sanitize_filename filename.
Proof.
  unfold sanitize_filename. rewrite !slice_prefix by lia.
  change (Z.to_nat 200) with 200%nat.
  assert (S : Forall (fun c => unsafe_char c = false)
                (firstn 200
                   (map (fun c => if unsafe_char c then 95 else c) filename))).
  { apply Forall_forall. intros c H. apply In_firstn in H.
    apply in_map_iff in H. destruct H as [x [E _]]. subst c.
    destruct (unsafe_char x) eqn:U; [reflexivity | exact U]. }
  split; [rewrite length_firstn, length_map; reflexivity|].
  split; [exact S|].
  rewrite firstn_all2.
  - clear S. set (l := firstn 200 _) in *.
    assert (S : Forall (fun c => unsafe_char c = false) l).
    { apply Forall_forall. intros c H. subst l. apply In_firstn in H.
      apply in_map_iff in H. destruct H as [x [E _]]. subst c.
      destruct (unsafe_char x) eqn:U; [reflexivity | exact U]. }
    induction S as [|c l' Hc S IH]; [reflexivity|].
    cbn [map]. rewrite Hc, IH. reflexivity.
  - rewrite length_map, length_firstn. lia.
Qed.







(** ** [_hash] *)

Lemma le_bytes_range n x : Forall (fun b => 0 <= b <= 255) (MD5.le_bytes n x).
Proof.
  unfold MD5.le_bytes. apply Forall_forall. intros b H.
  apply in_map_iff in H. destruct H as [i [E _]]. subst b.
  set (y := Z.shiftr x (8 * Z.of_nat i)).
  assert (E : Z.land y 255 = y mod 256).
  { change 255 with (Z.ones 8). rewrite Z.land_ones by lia. reflexivity. }
  rewrite E. pose proof (Z.mod_pos_bound y 256). lia.
Qed.

Lemma le_bytes_length n x : List.length (MD5.le_bytes n x) = n.
Proof. unfold MD5.le_bytes. rewrite length_map, length_seq. reflexivity. Qed.

Lemma hex_digit_hex n : 0 <= n <= 15 -> is_hex (MD5.hex_digit n) = true.
Proof.
  intros H. unfold MD5.hex_digit, is_hex.
  destruct (n <? 10) eqn:E.
  - apply Z.ltb_lt in E. apply orb_true_iff. left.
    apply andb_true_iff. split; apply Z.leb_le; lia.
  - apply Z.ltb_ge in E. apply orb_true_iff. right.
    apply andb_true_iff. split; apply Z.leb_le; lia.
Qed.

Lemma digest_bytes msg :
  List.length (MD5.digest msg) = 16%nat
  /\ Forall (fun b => 0 <= b <= 255) (MD5.digest msg).
Proof.
  unfold MD5.digest.
  destruct (MD5.blocks _ _ _) as [[[a b] c] d].
  split.
  - rewrite !length_app, !le_bytes_length. reflexivity.
  - repeat (apply Forall_app; split); apply le_bytes_range.
Qed.

Lemma hexdigest_format msg :
  List.length (MD5.hexdigest msg) = 32%nat
  /\ forallb is_hex (MD5.hexdigest msg) = true.
Proof.
  unfold MD5.hexdigest. destruct (digest_bytes msg) as [L F].
  revert L F. generalize (MD5.digest msg) as bs. intros bs L F.
  assert (G : forall l, Forall (fun b => 0 <= b <= 255) l ->
              List.length
                (flat_map (fun b => [MD5.hex_digit (b / 16);
                                     MD5.hex_digit (b mod 16)]) l)
              = (2 * List.length l)%nat
              /\ forallb is_hex
                   (flat_map (fun b => [MD5.hex_digit (b / 16);
                                        MD5.hex_digit (b mod 16)]) l) = true).
  { induction 1 as [|b l Hb Hl [IH1 IH2]]; [split; reflexivity|].
    cbn [flat_map app List.length forallb]. rewrite IH1, IH2.
    split; [lia|].
    rewrite !hex_digit_hex; [reflexivity | |].
    - pose proof (Z.mod_pos_bound b 16). lia.
    - assert (b / 16 < 16) by (apply Z.div_lt_upper_bound; lia).
      assert (0 <= b / 16) by (apply Z.div_pos; lia). lia. }
  destruct (G bs F) as [G1 G2]. rewrite G1, L. auto.
Qed.

Lemma encode_surrogate (s : str) :
  ~ encodable s -> encode s = Raise UnicodeEncodeError.
Proof.
  induction s as [|c s IH]; intros H.
  - exfalso. apply H. constructor.
  - cbn [encode]. unfold encode_char.
    destruct ((55296 <=? c) && (c <=? 57343)) eqn:E.
    + apply andb_true_iff in E. destruct E as [E1 E2].
      apply Z.leb_le in E1. apply Z.leb_le in E2.
      destruct (c <? 128) eqn:C1; [apply Z.ltb_lt in C1; lia|].
      destruct (c <? 2048) eqn:C2; [apply Z.ltb_lt in C2; lia|].
      destruct (c <? 65536) eqn:C3; [reflexivity|].
      apply Z.ltb_ge in C3. lia.
    + rewrite IH.
      * destruct (c <? 128); [reflexivity|].
        destruct (c <? 2048); [reflexivity|].
        destruct (c <? 65536); reflexivity.
      * intros Hs. apply H. constructor; assumption.
Qed.

(** X4. [_hash] returns 32 lower-case hexadecimal digits for every string
    that UTF-8 can encode, and raises [UnicodeEncodeError] for every string
    that holds a surrogate code point. *)
Theorem _hash_format (content : str) :
  (encodable content ->
   exists h, _hash content = Ok h /\ List.length h = 32%nat
             /\ forallb is_hex h = true)
  /\ (~ encodable content -> _hash content = Raise UnicodeEncodeError).
Proof.
  split.
  - intros E. destruct (encode_ok content E) as [bs Hbs].
    unfold _hash. rewrite Hbs. cbn [bind].
    exists (MD5.hexdigest bs). split; [reflexivity|]. apply hexdigest_format.
  - intros E. unfold _hash. rewrite encode_surrogate by exact E. reflexivity.
Qed.

(** ** [_normalize_content] *)

Lemma split_from_words cur s :
  Forall (fun c => is_whitespace c = false) cur ->
  Forall is_word (split_from cur s).
Proof.
  revert cur. induction s as [|c s IH]; intros cur H; cbn [split_from].
  - destruct cur as [|d cur]; [constructor|].
    constructor; [|constructor]. split.
    + intros E. apply (f_equal (@List.length Z)) in E.
      rewrite length_rev in E. discriminate.
    + apply Forall_rev. exact H.
  - destruct (is_whitespace c) eqn:W.
    + destruct cur as [|d cur]; [apply IH; constructor|].
      constructor; [|apply IH; constructor]. split.
      * intros E. apply (f_equal (@List.length Z)) in E.
        rewrite length_rev in E. discriminate.
      * apply Forall_rev. exact H.
    + apply IH. constructor; assumption.
Qed.

Lemma lstrip_suffix s : exists pre, s = pre ++ lstrip s.
Proof.
  induction s as [|c s [pre IH]]; [exists []; reflexivity|].
  cbn. destruct (is_whitespace c).
  - exists (c :: pre). cbn. f_equal. exact IH.
  - exists []. reflexivity.
Qed.

Lemma lstrip_head s c t : lstrip s = c :: t -> is_whitespace c = false.
Proof.
  induction s as [|d s IH]; cbn; [discriminate|].
  destruct (is_whitespace d) eqn:E; [exact IH|].
  intros H. inversion H; subst. exact E.
Qed.

Lemma truthy_strip s :
  truthy (strip s) = true -> exists c, In c s /\ is_whitespace c = false.
Proof.
  unfold strip, rstrip. intros H.
  destruct (lstrip (rev (lstrip s))) as [|c t] eqn:E; [discriminate|].
  exists c. split; [|eapply lstrip_head; exact E].
  destruct (lstrip_suffix (rev (lstrip s))) as [p1 H1].
  destruct (lstrip_suffix s) as [p2 H2].
  rewrite H2. apply in_or_app. right. apply in_rev.
  rewrite H1, E. apply in_or_app. right. left. reflexivity.
Qed.

(** X5. Whatever the flags, no line that [_normalize_content] returns is
    blank: each has a character that is not whitespace, and each comes from
    a line of [splitlines], so there are at most as many. *)
Theorem _normalize_content_no_blank_line
    (ucd : UnicodeData) (self : ContentComparator) (content : str) :
  Forall (fun line => exists c, In c line /\ is_whitespace c = false)
    (_normalize_content ucd self content)
  /\ (List.length (_normalize_content ucd self content)
      <= List.length (splitlines content))%nat.
Proof.
  unfold _normalize_content. split.
  - apply Forall_forall. intros line H. apply filter_In in H.
    apply truthy_strip. tauto.
  - eapply Nat.le_trans; [apply filter_length_le|].
    destruct (ignore_whitespace self), (ignore_case self);
      rewrite ?length_map; apply Nat.le_refl.
Qed.

(** X6. When whitespace is ignored, every line that [_normalize_content]
    returns is a non-empty sequence of words joined by single spaces, a
    word being non-empty and free of whitespace: no leading, trailing or
    repeated whitespace is left. *)
Theorem _normalize_content_collapses_whitespace
    (ucd : UnicodeData) (self : ContentComparator) (content : str) :
  ignore_whitespace self = true ->
  Forall (fun line =>
            exists words,
              words <> [] /\ Forall is_word words
              /\ line = join (u " ") words)
    (_normalize_content ucd self content).
Proof.
  intros W. unfold _normalize_content. rewrite W.
  apply Forall_forall. intros line H. apply filter_In in H.
  destruct H as [H T]. apply in_map_iff in H. destruct H as [x [E _]].
  exists (split x). split; [|split].
  - intros N. rewrite N in E. subst line. discriminate.
  - apply split_from_words. constructor.
  - symmetry. exact E.
Qed.

Lemma _normalize_content_witness :
  Forall (fun line =>
            exists words,
              words <> [] /\ Forall is_word words
              /\ line = join (u " ") words)
    (_normalize_content ascii_ucd (new_comparator 1)
       (u "  Prix :   99 EUR  " ++ nl ++ nl ++ u "Plan" ++ nl)).
Proof.
  apply _normalize_content_collapses_whitespace. reflexivity.
Defined.

(** ** [_filter_dynamic_content] *)

Section Shapes.

Variable ucd : UnicodeData.

Lemma Forall2_repeat_forallb (a : atom) n mid :
  Forall2 (fun a c => atom_match ucd a c = true) (repeat a n) mid ->
  List.length mid = n /\ forallb (atom_match ucd a) mid = true.
Proof.
  revert mid. induction n as [|n IH]; intros mid H; cbn in H.
  - inversion H. split; reflexivity.
  - inversion H as [|? c ? mid' Hc H']; subst.
    destruct (IH mid' H') as [L F]. cbn. rewrite Hc, L, F. split; reflexivity.
Qed.

Lemma match_here_exact p :
  Forall (fun it => it_max it = Some (it_min it)) p ->
  forall mid post,
    Forall2 (fun a c => atom_match ucd a c = true) (exact_atoms p) mid ->
    match_here ucd p (mid ++ post) = true.
Proof.
  induction 1 as [|it p Hit Hp IH]; intros mid post H; [reflexivity|].
  unfold exact_atoms in H. cbn [flat_map] in H.
  apply Forall2_app_inv_l in H.
  destruct H as [m1 [m2 [H1 [H2 E]]]]. subst mid.
  cbn [match_here]. rewrite Hit. apply match_repeat_exact.
  destruct (Forall2_repeat_forallb _ _ _ H1) as [L F].
  exists m1, (m2 ++ post). rewrite <- app_assoc.
  repeat split; try assumption. apply IH. exact H2.
Qed.

Lemma match_repeat_skip p k hi s :
  k s = true -> match_repeat p k 0 hi s = true.
Proof.
  intros K. destruct s as [|c s]; destruct hi as [[|h]|]; cbn;
    rewrite ?K, ?orb_true_r; reflexivity.
Qed.

Lemma Forall2_map_tests (atoms : list atom) mid :
  Forall2 (fun t c => t c = true) (map (atom_match ucd) atoms) mid ->
  Forall2 (fun a c => atom_match ucd a c = true) atoms mid.
Proof.
  revert mid. induction atoms as [|a atoms IH]; intros mid H;
    inversion H; subst; constructor; auto.
Qed.

Lemma search_exact_shape p line :
  Forall (fun it => it_max it = Some (it_min it)) p ->
  contains_shape (map (atom_match ucd) (exact_atoms p)) line ->
  search ucd p line = true.
Proof.
  intros Hp [pre [mid [post [E F]]]]. apply search_iff.
  exists pre, (mid ++ post). split; [exact E|].
  apply match_here_exact; [exact Hp|]. apply Forall2_map_tests. exact F.
Qed.

Lemma search_iso_date line :
  contains_shape (iso_date_shape ucd) line ->
  search ucd (nth 0 DYNAMIC_PATTERNS []) line = true.
Proof.
  intros H. apply search_exact_shape; [repeat constructor | exact H].
Qed.

Lemma search_slash_date line :
  contains_shape (slash_date_shape ucd) line ->
  search ucd (nth 1 DYNAMIC_PATTERNS []) line = true.
Proof.
  intros H. apply search_exact_shape; [repeat constructor | exact H].
Qed.

Lemma search_clock line :
  contains_shape (clock_shape ucd) line ->
  search ucd (nth 2 DYNAMIC_PATTERNS []) line = true.
Proof.
  intros [pre [mid [post [E F]]]]. apply search_iff.
  exists pre, (mid ++ post). split; [exact E|].
  inversion F as [|t c ts mid' Hc F']; subst.
  change (match_here ucd (nth 2 DYNAMIC_PATTERNS []) ((c :: mid') ++ post))
    with (isdecimal ucd c
          && match_repeat (isdecimal ucd)
               (match_here ucd
                  (lits ":" ++ [times 2 Digit] ++ lits ":" ++ [times 2 Digit]))
               0 (Some 1%nat) (mid' ++ post)).
  rewrite Hc. cbn [andb]. apply match_repeat_skip.
  apply match_here_exact; [repeat constructor|].
  apply Forall2_map_tests. exact F'.
Qed.

Lemma is_dynamic_nth n line :
  (n < List.length DYNAMIC_PATTERNS)%nat ->
  search ucd (nth n DYNAMIC_PATTERNS []) line = true ->
  is_dynamic ucd DYNAMIC_PATTERNS line = true.
Proof.
  intros L H. rewrite is_dynamic_existsb. apply existsb_exists.
  exists (nth n DYNAMIC_PATTERNS []). split; [apply nth_In; exact L | exact H].
Qed.

End Shapes.

(** X7. [_filter_dynamic_content] keeps lines of its argument only, and
    never keeps a line that contains, anywhere, a date [YYYY-MM-DD], a date
    [DD/MM/YYYY] or a time [H:MM:SS] written with decimal digits: a line of
    real content that mentions a date is dropped with it. *)
Theorem _filter_dynamic_content_drops_dates
    (ucd : UnicodeData) (lines : list str) :
  Forall (fun line =>
            In line lines
            /\ ~ contains_shape (iso_date_shape ucd) line
            /\ ~ contains_shape (slash_date_shape ucd) line
            /\ ~ contains_shape (clock_shape ucd) line)
    (_filter_dynamic_content ucd lines).
Proof.
  rewrite _filter_dynamic_content_filter. apply Forall_forall.
  intros line H. apply filter_In in H. destruct H as [HIn HN].
  rewrite <- is_dynamic_existsb in HN. apply negb_true_iff in HN.
  split; [exact HIn|].
  repeat split; intros C.
  - rewrite (is_dynamic_nth ucd 0 line) in HN;
      [discriminate | cbn; lia | apply search_iso_date; exact C].
  - rewrite (is_dynamic_nth ucd 1 line) in HN;
      [discriminate | cbn; lia | apply search_slash_date; exact C].
  - rewrite (is_dynamic_nth ucd 2 line) in HN;
      [discriminate | cbn; lia | apply search_clock; exact C].
Qed.

(** ** What [difflib] computes *)

Module DifflibCorrect.
Import Difflib DifflibSpec DifflibFacts.

Section B2J.

Context {T : Type}.
Variable eqb : T -> T -> bool.
Hypothesis eqb_eq : forall x y, eqb x y = true <-> x = y.

Lemma eqb_sym x y : eqb x y = eqb y x.
Proof.
  destruct (eqb x y) eqn:E1, (eqb y x) eqn:E2; try reflexivity.
  - apply eqb_eq in E1. subst. rewrite (eqb_refl eqb eqb_eq) in E2.
    discriminate.
  - apply eqb_eq in E2. subst. rewrite (eqb_refl eqb eqb_eq) in E1.
    discriminate.
Qed.

Lemma dict_get_setdefault_append d elt i x :
  dict_get eqb (setdefault_append eqb d elt i) x
  = if eqb elt x
    then Some (match dict_get eqb d x with
               | Some js => js ++ [i]
               | None => [i]
               end)
    else dict_get eqb d x.
Proof.
  induction d as [|[key idxs] d IH]; cbn [setdefault_append dict_get].
  - destruct (eqb elt x); reflexivity.
  - destruct (eqb key elt) eqn:E.
    + apply eqb_eq in E. subst key. cbn [dict_get].
      destruct (eqb elt x); reflexivity.
    + cbn [dict_get]. rewrite IH.
      destruct (eqb elt x) eqn:E1; [|reflexivity].
      apply eqb_eq in E1. subst x. rewrite E. reflexivity.
Qed.

Lemma dict_get_index_elements l i d x :
  dict_get eqb (index_elements eqb i l d) x
  = match positions eqb i l x with
    | [] => dict_get eqb d x
    | ps => Some (match dict_get eqb d x with
                  | Some js => js
                  | None => []
                  end ++ ps)
    end.
Proof.
  revert i d. induction l as [|y l IH]; intros i d;
    cbn [index_elements positions]; [reflexivity|].
  rewrite IH, dict_get_setdefault_append.
  destruct (eqb y x) eqn:E.
  - destruct (dict_get eqb d x) as [js|];
      destruct (positions eqb (i + 1) l x); cbn [app];
      rewrite <- ?app_assoc; reflexivity.
  - reflexivity.
Qed.

Lemma dict_get_without elts d x :
  dict_get eqb (DifflibInv.without eqb elts d) x
  = if existsb (eqb x) elts then None else dict_get eqb d x.
Proof.
  induction d as [|[key idxs] d IH].
  - cbn. destruct (existsb (eqb x) elts); reflexivity.
  - rewrite (without_cons eqb). cbn [dict_get].
    destruct (eqb key x) eqn:E.
    + apply eqb_eq in E. subst key.
      destruct (existsb (eqb x) elts) eqn:X.
      * rewrite IH. reflexivity.
      * cbn [dict_get]. rewrite (eqb_refl eqb eqb_eq). reflexivity.
    + destruct (existsb (eqb key) elts); [exact IH|].
      cbn [dict_get]. rewrite E. exact IH.
Qed.

(** Under an element, [b2j] lists all its positions in [b], in increasing
    order, or the element is left out. *)
Lemma dict_get_chained b x js :
  dict_get eqb (DifflibInv.chained eqb b) x = Some js ->
  js = positions eqb 0 b x.
Proof.
  unfold DifflibInv.chained.
  assert (P : forall js, dict_get eqb (index_elements eqb 0 b []) x = Some js ->
                         js = positions eqb 0 b x).
  { intros js0. rewrite dict_get_index_elements. cbn [dict_get app].
    destruct (positions eqb 0 b x); [discriminate|].
    intros H. inversion H. reflexivity. }
  destruct (200 <=? Z.of_nat (List.length b)); [|apply P].
  rewrite dict_get_without.
  destruct (existsb _ _); [discriminate | apply P].
Qed.

Lemma positions_In i l x j :
  In j (positions eqb i l x) <->
  exists n, j = i + Z.of_nat n /\ nth_error l n = Some x.
Proof.
  revert i. induction l as [|y l IH]; intros i; cbn [positions].
  - split; [intros [] | intros [n [_ H]]; destruct n; discriminate].
  - destruct (eqb y x) eqn:E.
    + apply eqb_eq in E. subst y. cbn [In]. rewrite IH. split.
      * intros [H|[n [H1 H2]]].
        -- exists 0%nat. split; [cbn; lia | reflexivity].
        -- exists (S n). split; [lia | exact H2].
      * intros [[|n] [H1 H2]].
        -- left. cbn in H1. lia.
        -- right. exists n. split; [lia | exact H2].
    + rewrite IH. split.
      * intros [n [H1 H2]]. exists (S n). split; [lia | exact H2].
      * intros [[|n] [H1 H2]].
        -- cbn in H2. inversion H2; subst.
           rewrite (eqb_refl eqb eqb_eq) in E. discriminate.
        -- exists n. split; [lia | exact H2].
Qed.

Lemma at_nat (l : list T) (n : nat) : at_ l (Z.of_nat n) = nth_error l n.
Proof.
  unfold at_. destruct (Z.of_nat n <? 0) eqn:E; [apply Z.ltb_lt in E; lia|].
  rewrite Nat2Z.id. reflexivity.
Qed.

Lemma at_Some (l : list T) i x :
  at_ l i = Some x -> 0 <= i < Z.of_nat (List.length l).
Proof.
  unfold at_. destruct (i <? 0) eqn:E; [discriminate|].
  apply Z.ltb_ge in E. intros H.
  assert (Z.to_nat i < List.length l)%nat
    by (apply nth_error_Some; congruence).
  lia.
Qed.

Lemma getitem_at (l : list T) i x :
  0 <= i -> getitem l i = Ok x -> at_ l i = Some x.
Proof.
  intros H. unfold getitem, at_.
  destruct (i <? 0) eqn:E; [apply Z.ltb_lt in E; lia|].
  destruct ((0 <=? i) && (i <? Z.of_nat (List.length l))); [|discriminate].
  destruct (nth_error l (Z.to_nat i)); [|discriminate].
  intros G. inversion G. reflexivity.
Qed.

Lemma chained_sound b : b2j_sound eqb b (DifflibInv.chained eqb b).
Proof.
  intros x js j H HIn. apply dict_get_chained in H. subst js.
  apply positions_In in HIn. destruct HIn as [n [E N]]. subst j.
  rewrite Z.add_0_l, at_nat. exact N.
Qed.

End B2J.

Section Sound.

Context {T : Type}.
Variable eqb : T -> T -> bool.
Hypothesis eqb_eq : forall x y, eqb x y = true <-> x = y.
Variables a b : list T.
Variable b2j : b2j_t (T:=T).
Hypothesis b2j_ok : b2j_sound eqb b b2j.
Variables alo ahi blo bhi : Z.
Hypothesis Ha : 0 <= alo /\ alo <= ahi /\ ahi <= Z.of_nat (List.length a).
Hypothesis Hb : 0 <= blo /\ blo <= bhi /\ bhi <= Z.of_nat (List.length b).

Local Abbreviation matches := (block_matches a b).
Local Abbreviation in_range := (DifflibInv.in_range alo ahi blo bhi).

Lemma j2len_get_In d j :
  j2len_get d j = 0 \/ In (j, j2len_get d j) d.
Proof.
  induction d as [|[key k] d IH]; cbn [j2len_get]; [left; reflexivity|].
  destruct (key =? j) eqn:E.
  - apply Z.eqb_eq in E. subst. right. left. reflexivity.
  - destruct IH as [IH|IH]; [left; exact IH | right; right; exact IH].
Qed.

(** A match that ends just before [(i, j)], one element longer. *)
Lemma matches_extend i j v x :
  (v = 0 \/ matches (i - v, j - v, v)) ->
  0 <= v -> at_ a i = Some x -> at_ b j = Some x ->
  matches (i - v, j - v, v + 1).
Proof.
  intros Hv V Ai Bj t Ht.
  destruct (Z.eq_dec t v) as [->|N].
  - exists x. replace (i - v + v) with i by lia.
    replace (j - v + v) with j by lia. auto.
  - destruct Hv as [->|M]; [lia|]. apply M. lia.
Qed.

Lemma scan_row_sound i x j2len js newj2len best :
  at_ a i = Some x ->
  (forall j, In j js -> at_ b j = Some x) ->
  DifflibInv.row_ok alo blo i j2len -> alo <= i ->
  row_sound a b i j2len -> row_sound a b (i + 1) newj2len -> matches best ->
  row_sound a b (i + 1) (fst (scan_row blo bhi i j2len js newj2len best))
  /\ matches (snd (scan_row blo bhi i j2len js newj2len best)).
Proof.
  intros Ai Hjs R Hi RS. revert newj2len best.
  induction js as [|j js IH]; intros newj2len best RN B; cbn [scan_row];
    [cbn; tauto|].
  assert (Hjs' : forall j', In j' js -> at_ b j' = Some x)
    by (intros; apply Hjs; right; assumption).
  destruct (j <? blo) eqn:E1; [apply IH; assumption|].
  destruct (bhi <=? j) eqn:E2; [cbn; tauto|].
  apply Z.ltb_ge in E1. apply Z.leb_gt in E2.
  destruct best as [[besti bestj] bestsize].
  destruct (j2len_get_bound a b alo blo i j2len (j - 1) R Hi) as [G0 _]; [lia|].
  assert (M : matches (i - j2len_get j2len (j - 1),
                       j - j2len_get j2len (j - 1),
                       j2len_get j2len (j - 1) + 1)).
  { apply (matches_extend i j _ x); [|exact G0|exact Ai|apply Hjs; left; reflexivity].
    destruct (j2len_get_In j2len (j - 1)) as [Z0|HIn]; [left; exact Z0|].
    right. unfold row_sound in RS. rewrite Forall_forall in RS.
    specialize (RS _ HIn). cbn [fst snd] in RS.
    replace (j - 1 - j2len_get j2len (j - 1) + 1)
      with (j - j2len_get j2len (j - 1)) in RS by lia.
    exact RS. }
  apply IH; [exact Hjs'| |].
  - constructor; [|exact RN]. cbn [fst snd].
    replace (i + 1 - (j2len_get j2len (j - 1) + 1))
      with (i - j2len_get j2len (j - 1)) by lia.
    replace (j - (j2len_get j2len (j - 1) + 1) + 1)
      with (j - j2len_get j2len (j - 1)) by lia.
    exact M.
  - destruct (bestsize <? j2len_get j2len (j - 1) + 1); [|exact B].
    replace (i - (j2len_get j2len (j - 1) + 1) + 1)
      with (i - j2len_get j2len (j - 1)) by lia.
    replace (j - (j2len_get j2len (j - 1) + 1) + 1)
      with (j - j2len_get j2len (j - 1)) by lia.
    exact M.
Qed.

Lemma scan_rows_sound n i j2len best best' :
  alo <= i -> i + Z.of_nat n = ahi ->
  DifflibInv.row_ok alo blo i j2len -> row_sound a b i j2len ->
  in_range best -> matches best ->
  scan_rows eqb a b2j blo bhi n i j2len best = Ok best' -> matches best'.
Proof.
  revert i j2len best. induction n as [|n IH];
    intros i j2len best Hi Hn R RS B M; cbn [scan_rows].
  - intros H. inversion H; subst. exact M.
  - destruct (getitem_ok a i) as [x Hx]; [lia|]. rewrite Hx. cbn [bind].
    assert (Ai : at_ a i = Some x) by (apply getitem_at; [lia | exact Hx]).
    set (js := match dict_get eqb b2j x with Some l => l | None => [] end).
    assert (Hjs : forall j, In j js -> at_ b j = Some x).
    { intros j HIn. subst js.
      destruct (dict_get eqb b2j x) as [l|] eqn:D; [|destruct HIn].
      eapply b2j_ok; eassumption. }
    destruct (scan_row_ok a b alo ahi blo bhi Ha Hb i j2len js [] best)
      as [R' B']; try assumption; [lia | constructor |].
    destruct (scan_row_sound i x j2len js [] best Ai Hjs R Hi RS)
      as [RS' M']; [constructor | exact M |].
    destruct (scan_row blo bhi i j2len js [] best) as [newj2len best1].
    cbn [fst snd] in *.
    apply IH; [lia | lia | exact R' | exact RS' | exact B' | exact M'].
Qed.

Lemma extend_back_sound n best best' :
  Z.of_nat n <= fst (fst best) - alo -> in_range best -> matches best ->
  extend_back eqb a b blo n best = Ok best' -> matches best'.
Proof.
  revert best. induction n as [|n IH]; intros [[besti bestj] bestsize] Hn B M;
    cbn [extend_back].
  - intros H. inversion H; subst. exact M.
  - cbn [fst snd] in Hn. unfold DifflibInv.in_range in B.
    destruct (blo <? bestj) eqn:E; [|intros H; inversion H; subst; exact M].
    apply Z.ltb_lt in E.
    destruct (getitem_ok b (bestj - 1)) as [y Hy]; [lia|].
    destruct (getitem_ok a (besti - 1)) as [x Hx]; [lia|].
    rewrite Hy, Hx. cbn [bind].
    destruct (eqb x y) eqn:Exy; [|intros H; inversion H; subst; exact M].
    apply eqb_eq in Exy. subst y.
    apply IH; [cbn; lia | unfold DifflibInv.in_range; lia |].
    intros t Ht. destruct (Z.eq_dec t 0) as [->|N].
    + exists x. rewrite !Z.add_0_r.
      split; apply getitem_at; try assumption; lia.
    + destruct (M (t - 1)) as [z [Z1 Z2]]; [lia|].
      exists z. replace (besti - 1 + t) with (besti + (t - 1)) by lia.
      replace (bestj - 1 + t) with (bestj + (t - 1)) by lia. auto.
Qed.

Lemma extend_forward_sound n best best' :
  Z.of_nat n <= ahi - (fst (fst best) + snd best) -> in_range best ->
  matches best ->
  extend_forward eqb a b bhi n best = Ok best' -> matches best'.
Proof.
  revert best. induction n as [|n IH]; intros [[besti bestj] bestsize] Hn B M;
    cbn [extend_forward].
  - intros H. inversion H; subst. exact M.
  - cbn [fst snd] in Hn. unfold DifflibInv.in_range in B.
    destruct (bestj + bestsize <? bhi) eqn:E;
      [|intros H; inversion H; subst; exact M].
    apply Z.ltb_lt in E.
    destruct (getitem_ok b (bestj + bestsize)) as [y Hy]; [lia|].
    destruct (getitem_ok a (besti + bestsize)) as [x Hx]; [lia|].
    rewrite Hy, Hx. cbn [bind].
    destruct (eqb x y) eqn:Exy; [|intros H; inversion H; subst; exact M].
    apply eqb_eq in Exy. subst y.
    apply IH; [cbn; lia | unfold DifflibInv.in_range; lia |].
    intros t Ht. destruct (Z.eq_dec t bestsize) as [->|N].
    + exists x. split; apply getitem_at; try assumption; lia.
    + apply M. lia.
Qed.

(** The block that [find_longest_match] returns is a match. *)
Lemma find_longest_match_sound m :
  find_longest_match eqb a b b2j alo ahi blo bhi = Ok m ->
  in_range m /\ matches m.
Proof.
  unfold find_longest_match.
  destruct (scan_rows_ok eqb a b b2j alo ahi blo bhi Ha Hb
              (Z.to_nat (ahi - alo)) alo [] (alo, blo, 0))
    as [m1 [E1 B1]]; [lia | lia | constructor | cbn; lia |].
  assert (M1 : matches m1).
  { eapply (scan_rows_sound _ alo [] (alo, blo, 0));
      [| | constructor | constructor | | | exact E1];
      [lia | lia | cbn; lia | intros t Ht; lia]. }
  rewrite E1. cbn [bind].
  assert (N2 : Z.of_nat (Z.to_nat (fst (fst m1) - alo)) <= fst (fst m1) - alo).
  { destruct m1 as [[i j] k]. cbn in *. lia. }
  destruct (extend_back_ok eqb a b alo ahi blo bhi Ha Hb _ m1 N2 B1)
    as [m2 [E2 B2]].
  assert (M2 : matches m2) by (eapply extend_back_sound; eassumption).
  rewrite E2. cbn [bind].
  assert (N3 : Z.of_nat (Z.to_nat (ahi - (fst (fst m2) + snd m2)))
               <= ahi - (fst (fst m2) + snd m2)).
  { destruct m2 as [[i j] k]. cbn in *. lia. }
  destruct (extend_forward_ok eqb a b alo ahi blo bhi Ha Hb _ m2 N3 B2)
    as [m3 [E3 B3]].
  assert (M3 : matches m3) by (eapply extend_forward_sound; eassumption).
  rewrite E3. cbn [bind].
  rewrite (junk_back_ok a b alo ahi blo bhi Hb) by assumption. cbn [bind].
  rewrite (junk_forward_ok a b alo ahi blo bhi Hb) by assumption.
  intros H. inversion H; subst. auto.
Qed.

End Sound.

(** *** The matching blocks follow one another *)

Lemma ordered_inside x y r : ordered x r -> inside y r -> ordered x y.
Proof.
  destruct x as [[[a1 a2] b1] b2], y as [[[c1 c2] d1] d2],
    r as [[[e1 e2] f1] f2].
  unfold ordered, inside. lia.
Qed.

Lemma ordered_sym x y : ordered x y -> ordered y x.
Proof.
  destruct x as [[[a1 a2] b1] b2], y as [[[c1 c2] d1] d2].
  unfold ordered. lia.
Qed.

Lemma pairwise_news r news l2 :
  Forall (ordered r) l2 -> pairwise l2 ->
  Forall (fun n => inside n r) news -> pairwise news ->
  pairwise (news ++ l2).
Proof.
  intros F P. induction news as [|n news IH]; cbn [app pairwise];
    [tauto|].
  intros I [F1 P1]. inversion I; subst.
  split; [|apply IH; assumption].
  apply Forall_app. split; [assumption|].
  eapply Forall_impl; [|exact F]. intros y Hy.
  apply ordered_sym. apply ordered_sym in Hy.
  eapply ordered_inside; eassumption.
Qed.

(** A range of the queue gives way to blocks and ranges inside it. *)
Lemma pairwise_replace l1 r news l2 :
  pairwise (l1 ++ r :: l2) ->
  Forall (fun n => inside n r) news -> pairwise news ->
  pairwise (l1 ++ news ++ l2).
Proof.
  induction l1 as [|y l1 IH]; cbn [app pairwise].
  - intros [F P]. apply pairwise_news; assumption.
  - intros [F P] I PN. split; [|apply IH; assumption].
    apply Forall_app in F. destruct F as [F1 F2]. inversion F2; subst.
    apply Forall_app. split; [assumption|].
    apply Forall_app. split; [|assumption].
    eapply Forall_impl; [|exact I]. intros n Hn.
    eapply ordered_inside; eassumption.
Qed.

Section QueueSound.

Context {T : Type}.
Variable eqb : T -> T -> bool.
Hypothesis eqb_eq : forall x y, eqb x y = true <-> x = y.
Variables a b : list T.
Variable b2j : b2j_t (T:=T).
Hypothesis b2j_ok : b2j_sound eqb b b2j.

Lemma match_queue_sound fuel : forall q acc blocks,
  Forall (DifflibInv.entry_ok a b) q ->
  Forall (good_block a b) acc ->
  pairwise (map box_of acc ++ q) ->
  match_queue eqb a b b2j fuel q acc = Ok blocks ->
  Forall (good_block a b) blocks /\ pairwise (map box_of blocks).
Proof.
  induction fuel as [|fuel IH]; intros q acc blocks Q A P;
    destruct q as [|[[[alo ahi] blo] bhi] q]; cbn [match_queue];
    try discriminate;
    try (intros H; inversion H; subst; rewrite app_nil_r in P; auto; fail).
  inversion Q as [|? ? EO Q']; subst.
  unfold DifflibInv.entry_ok in EO. destruct EO as [Ha Hb].
  destruct (find_longest_match eqb a b b2j alo ahi blo bhi)
    as [[[i j] k]| |] eqn:E; cbn [bind]; try discriminate.
  apply (find_longest_match_sound eqb eqb_eq a b b2j b2j_ok
           alo ahi blo bhi Ha Hb) in E.
  destruct E as [R M]. unfold DifflibInv.in_range in R.
  destruct (k =? 0) eqn:K.
  - apply IH; try assumption.
    apply (pairwise_replace _ _ [] _ P); constructor.
  - apply Z.eqb_neq in K.
    assert (G : Forall (good_block a b) (acc ++ [(i, j, k)])).
    { apply Forall_app. split; [assumption|]. constructor; [|constructor].
      unfold good_block, DifflibInv.in_range. cbn [snd].
      repeat split; try lia. exact M. }
    assert (I0 : inside (box_of (i, j, k)) (alo, ahi, blo, bhi))
      by (unfold inside, box_of; lia).
    assert (I1 : inside (alo, i, blo, j) (alo, ahi, blo, bhi))
      by (unfold inside; lia).
    assert (I2 : inside (i + k, ahi, j + k, bhi) (alo, ahi, blo, bhi))
      by (unfold inside; lia).
    assert (O1 : ordered (box_of (i, j, k)) (alo, i, blo, j))
      by (unfold ordered, box_of; lia).
    assert (O2 : ordered (box_of (i, j, k)) (i + k, ahi, j + k, bhi))
      by (unfold ordered, box_of; lia).
    assert (O3 : ordered (i + k, ahi, j + k, bhi) (alo, i, blo, j))
      by (unfold ordered; lia).
    assert (E1 : DifflibInv.entry_ok a b (alo, i, blo, j))
      by (unfold DifflibInv.entry_ok; lia).
    assert (E2 : DifflibInv.entry_ok a b (i + k, ahi, j + k, bhi))
      by (unfold DifflibInv.entry_ok; lia).
    destruct ((alo <? i) && (blo <? j)), ((i + k <? ahi) && (j + k <? bhi));
      apply IH; try exact G; try assumption;
      repeat (constructor; try assumption);
      rewrite map_app, <- app_assoc.
    + apply (pairwise_replace (map box_of acc) _
               [box_of (i, j, k); (i + k, ahi, j + k, bhi); (alo, i, blo, j)]
               q P); cbn [pairwise]; repeat (constructor; try assumption).
    + apply (pairwise_replace (map box_of acc) _
               [box_of (i, j, k); (alo, i, blo, j)]
               q P); cbn [pairwise]; repeat (constructor; try assumption).
    + apply (pairwise_replace (map box_of acc) _
               [box_of (i, j, k); (i + k, ahi, j + k, bhi)]
               q P); cbn [pairwise]; repeat (constructor; try assumption).
    + apply (pairwise_replace (map box_of acc) _ [box_of (i, j, k)]
               q P); cbn [pairwise]; repeat (constructor; try assumption).
Qed.

End QueueSound.

Lemma Forall_insert_sorted (P : Match -> Prop) x l :
  P x -> Forall P l -> Forall P (insert_sorted x l).
Proof.
  intros Hx. induction l as [|y l IH]; cbn [insert_sorted]; intros F.
  - constructor; [assumption | constructor].
  - inversion F; subst.
    destruct (match_ltb y x); constructor; auto.
Qed.

Lemma Forall_sort (P : Match -> Prop) l : Forall P l -> Forall P (sort l).
Proof.
  induction l as [|x l IH]; cbn [sort fold_right]; intros F;
    [constructor|].
  inversion F; subst. apply Forall_insert_sorted; auto.
Qed.

Lemma insert_sorted_bchain xi xj xk l : forall i j hi hj,
  bchain i j l hi hj ->
  i <= xi -> j <= xj -> 1 <= xk -> xi + xk <= hi -> xj + xk <= hj ->
  Forall (fun y => 1 <= snd y
                   /\ ordered (box_of (xi, xj, xk)) (box_of y)) l ->
  bchain i j (insert_sorted (xi, xj, xk) l) hi hj.
Proof.
  induction l as [|[[yi yj] yk] l IH]; intros i j hi hj C Hi Hj Hk H1 H2 F;
    cbn [insert_sorted bchain].
  - lia.
  - cbn [bchain] in C. inversion F as [|? ? [Y O] F']; subst.
    cbn [snd] in Y. unfold ordered, box_of in O.
    destruct (match_ltb (yi, yj, yk) (xi, xj, xk)) eqn:L;
      unfold match_ltb in L; cbn [bchain].
    + repeat split; try lia. apply IH; try assumption; try lia. tauto.
    + repeat split; try lia. tauto.
Qed.

Lemma sort_bchain hi hj l :
  0 <= hi -> 0 <= hj ->
  Forall (fun m => DifflibInv.in_range 0 hi 0 hj m /\ 1 <= snd m) l ->
  pairwise (map box_of l) ->
  bchain 0 0 (sort l) hi hj.
Proof.
  intros Hi Hj. induction l as [|[[xi xj] xk] l IH];
    cbn [sort fold_right map pairwise bchain]; [lia|].
  intros F [O P]. inversion F as [|? ? [R K] F']; subst.
  unfold DifflibInv.in_range in R. cbn [snd] in K.
  apply insert_sorted_bchain; try lia; [apply IH; assumption|].
  apply Forall_sort. rewrite Forall_map in O.
  rewrite Forall_forall in *. intros y Hy. split; [apply F'|apply O]; exact Hy.
Qed.

Lemma bchain_weaken l : forall i j hi hj i' j' hi' hj',
  bchain i j l hi hj -> i' <= i -> j' <= j -> hi <= hi' -> hj <= hj' ->
  bchain i' j' l hi' hj'.
Proof.
  induction l as [|[[xi xj] xk] l IH]; intros i j hi hj i' j' hi' hj';
    cbn [bchain]; [lia|].
  intros [H1 [H2 [H3 H4]]] A B C D. repeat split; try lia.
  eapply IH; [exact H4 | lia | lia | assumption | assumption].
Qed.

Lemma bchain_app l1 l2 : forall i j i1 j1 hi hj,
  bchain i j l1 i1 j1 -> bchain i1 j1 l2 hi hj ->
  bchain i j (l1 ++ l2) hi hj.
Proof.
  induction l1 as [|[[xi xj] xk] l1 IH]; intros i j i1 j1 hi hj;
    cbn [bchain app].
  - intros [A B] C. eapply bchain_weaken; [exact C| | | |]; lia.
  - intros [H1 [H2 [H3 H4]]] C. repeat split; try lia.
    eapply IH; eassumption.
Qed.

Section Collapse.

Context {T : Type}.
Variables a b : list T.

Lemma matches_join i j k1 k2 :
  0 <= k1 ->
  block_matches a b (i, j, k1) -> block_matches a b (i + k1, j + k1, k2) ->
  block_matches a b (i, j, k1 + k2).
Proof.
  intros K M1 M2 t Ht. destruct (Z_lt_ge_dec t k1) as [L|L].
  - apply M1. lia.
  - destruct (M2 (t - k1)) as [x [X1 X2]]; [lia|].
    exists x. replace (i + t) with (i + k1 + (t - k1)) by lia.
    replace (j + t) with (j + k1 + (t - k1)) by lia. auto.
Qed.

Lemma collapse_ok hi hj blocks : forall i1 j1 k1 na,
  bchain 0 0 na i1 j1 -> 0 <= k1 ->
  block_matches a b (i1, j1, k1) -> Forall (block_matches a b) na ->
  bchain (i1 + k1) (j1 + k1) blocks hi hj ->
  Forall (block_matches a b) blocks ->
  bchain 0 0 (collapse blocks (i1, j1, k1) na) hi hj
  /\ Forall (block_matches a b) (collapse blocks (i1, j1, k1) na).
Proof.
  assert (S : forall i1 j1 k1 na i2 j2,
             bchain 0 0 na i1 j1 -> 0 <= k1 ->
             block_matches a b (i1, j1, k1) -> Forall (block_matches a b) na ->
             i1 + k1 <= i2 -> j1 + k1 <= j2 ->
             let na' := if k1 =? 0 then na else na ++ [(i1, j1, k1)] in
             bchain 0 0 na' i2 j2 /\ Forall (block_matches a b) na').
  { intros i1 j1 k1 na i2 j2 C K M F A B. cbn zeta.
    destruct (k1 =? 0).
    - split; [|assumption]. eapply bchain_weaken; [exact C| | | |]; lia.
    - split.
      + eapply bchain_app; [exact C|]. cbn [bchain]. lia.
      + apply Forall_app. split; [assumption|].
        constructor; [assumption | constructor]. }
  induction blocks as [|[[i2 j2] k2] blocks IH]; intros i1 j1 k1 na C K M F B FB;
    cbn [collapse].
  - cbn [bchain] in B. apply S; assumption || lia.
  - cbn [bchain] in B. destruct B as [B1 [B2 [B3 B4]]].
    inversion FB as [|? ? M2 FB']; subst.
    destruct ((i1 + k1 =? i2) && (j1 + k1 =? j2)) eqn:Adj.
    + apply andb_prop in Adj. destruct Adj as [A1 A2].
      apply Z.eqb_eq in A1, A2. subst i2 j2.
      apply IH; try assumption; try lia.
      * apply matches_join; assumption.
      * replace (i1 + (k1 + k2)) with (i1 + k1 + k2) by lia.
        replace (j1 + (k1 + k2)) with (j1 + k1 + k2) by lia. exact B4.
    + destruct (S i1 j1 k1 na i2 j2) as [C' F']; try assumption.
      apply IH; assumption.
Qed.

End Collapse.

(** *** The opcodes go through both sequences *)

Lemma nth_error_slice {A : Type} (l : list A) i j n :
  0 <= i -> i <= j -> j <= Z.of_nat (List.length l) ->
  nth_error (slice l i j) n
  = if Z.of_nat n <? j - i then nth_error l (Z.to_nat i + n) else None.
Proof.
  intros Hi Hij Hj. unfold slice, clamp.
  destruct (j <? 0) eqn:J; [apply Z.ltb_lt in J; lia|].
  destruct (i <? 0) eqn:I; [apply Z.ltb_lt in I; lia|].
  rewrite !Z.min_l by lia.
  rewrite nth_error_firstn, nth_error_skipn.
  destruct (Z.of_nat n <? j - i) eqn:N.
  - apply Z.ltb_lt in N.
    destruct (Nat.ltb_spec n (Z.to_nat (j - i))); [reflexivity | lia].
  - apply Z.ltb_ge in N.
    destruct (Nat.ltb_spec n (Z.to_nat (j - i))); [lia | reflexivity].
Qed.

Lemma slice_length {A : Type} (l : list A) i j :
  0 <= i -> i <= j -> j <= Z.of_nat (List.length l) ->
  Z.of_nat (List.length (slice l i j)) = j - i.
Proof.
  intros Hi Hij Hj. unfold slice, clamp.
  destruct (j <? 0) eqn:J; [apply Z.ltb_lt in J; lia|].
  destruct (i <? 0) eqn:I; [apply Z.ltb_lt in I; lia|].
  rewrite !Z.min_l by lia.
  rewrite length_firstn, length_skipn. lia.
Qed.

Lemma slice_all {A : Type} (l : list A) :
  slice l 0 (Z.of_nat (List.length l)) = l.
Proof.
  apply nth_error_ext. intros n.
  rewrite nth_error_slice by lia. cbn [Z.to_nat Nat.add].
  destruct (Z.of_nat n <? Z.of_nat (List.length l) - 0) eqn:N;
    [reflexivity|].
  apply Z.ltb_ge in N. symmetry. apply nth_error_None. lia.
Qed.

(** A slice is the concatenation of its two parts. *)
Lemma slice_split {A : Type} (l : list A) i j k :
  0 <= i -> i <= j -> j <= k -> k <= Z.of_nat (List.length l) ->
  slice l i k = slice l i j ++ slice l j k.
Proof.
  intros Hi Hij Hjk Hk. apply nth_error_ext. intros n.
  rewrite nth_error_slice by lia.
  destruct (Z_lt_ge_dec (Z.of_nat n) (j - i)) as [L|L].
  - rewrite nth_error_app1
      by (apply Nat2Z.inj_lt; rewrite slice_length by lia; lia).
    rewrite nth_error_slice by lia.
    destruct (Z.of_nat n <? k - i) eqn:E1; [|apply Z.ltb_ge in E1; lia].
    destruct (Z.of_nat n <? j - i) eqn:E2; [|apply Z.ltb_ge in E2; lia].
    reflexivity.
  - assert (LN : List.length (slice l i j) = Z.to_nat (j - i))
      by (apply Nat2Z.inj; rewrite slice_length by lia; lia).
    rewrite nth_error_app2 by lia.
    rewrite nth_error_slice by lia. rewrite LN.
    replace (Z.of_nat (n - Z.to_nat (j - i)) <? k - j)
      with (Z.of_nat n <? k - i)
      by (destruct (Z.ltb_spec (Z.of_nat n) (k - i)),
            (Z.ltb_spec (Z.of_nat (n - Z.to_nat (j - i))) (k - j));
          reflexivity || lia).
    replace (Z.to_nat j + (n - Z.to_nat (j - i)))%nat
      with (Z.to_nat i + n)%nat by lia.
    reflexivity.
Qed.

Lemma chain_end_last l : forall i j x y k,
  chain_end i j (l ++ [(x, y, k)]) = (x + k, y + k).
Proof.
  induction l as [|[[ai bj] s] l IH]; intros; cbn [app chain_end];
    [reflexivity | apply IH].
Qed.

Section Blocks.

Context {T : Type}.
Variable eqb : T -> T -> bool.
Hypothesis eqb_eq : forall x y, eqb x y = true <-> x = y.
Variable seed : HashSeed.
Hypothesis V : valid_seed seed.
Variables a b : list T.

Local Abbreviation la := (Z.of_nat (List.length a)).
Local Abbreviation lb := (Z.of_nat (List.length b)).

(** The blocks that [get_matching_blocks] returns are matches, follow one
    another in both sequences, and end with the sentinel. *)
Lemma get_matching_blocks_sound blocks :
  get_matching_blocks eqb seed a b = Ok blocks ->
  bchain 0 0 blocks la lb /\ Forall (block_matches a b) blocks
  /\ chain_end 0 0 blocks = (la, lb).
Proof.
  unfold get_matching_blocks.
  rewrite (chain_b_ok eqb eqb_eq seed b V). cbn [bind].
  destruct (match_queue _ _ _ _ _ _ _) as [l| |] eqn:E; cbn [bind];
    try discriminate.
  intros H. inversion H; subst. clear H.
  apply (match_queue_sound eqb eqb_eq a b _ (chained_sound eqb eqb_eq b))
    in E.
  - destruct E as [G P].
    assert (C : bchain 0 0 (sort l) la lb).
    { apply sort_bchain; try lia; [|exact P].
      eapply Forall_impl; [|exact G]. unfold good_block. tauto. }
    assert (M : Forall (block_matches a b) (sort l)).
    { apply Forall_sort. eapply Forall_impl; [|exact G].
      unfold good_block. tauto. }
    destruct (collapse_ok a b la lb (sort l) 0 0 0 []) as [C' M'];
      try assumption; try (cbn [bchain]; lia).
    + intros t Ht. lia.
    + constructor.
    + repeat split.
      * eapply bchain_app; [exact C'|]. cbn [bchain]. lia.
      * apply Forall_app. split; [exact M'|].
        constructor; [|constructor]. intros t Ht. lia.
      * rewrite chain_end_last. f_equal; lia.
  - constructor; [|constructor]. unfold DifflibInv.entry_ok. lia.
  - constructor.
  - cbn [map app pairwise]. split; constructor.
Qed.

Lemma slice_matches i j k :
  0 <= i -> 0 <= j -> 1 <= k -> block_matches a b (i, j, k) ->
  i + k <= la /\ j + k <= lb /\ slice a i (i + k) = slice b j (j + k).
Proof.
  intros Hi Hj Hk M.
  assert (Ba : i + k <= la /\ j + k <= lb).
  { destruct (M (k - 1)) as [x [X1 X2]]; [lia|].
    apply at_Some in X1, X2. lia. }
  split; [tauto|]. split; [tauto|].
  apply nth_error_ext. intros n. rewrite !nth_error_slice by lia.
  replace (i + k - i) with k by lia. replace (j + k - j) with k by lia.
  destruct (Z.of_nat n <? k) eqn:N; [|reflexivity].
  apply Z.ltb_lt in N.
  destruct (M (Z.of_nat n)) as [x [X1 X2]]; [lia|].
  unfold at_ in X1, X2.
  destruct (i + Z.of_nat n <? 0) eqn:E1; [apply Z.ltb_lt in E1; lia|].
  destruct (j + Z.of_nat n <? 0) eqn:E2; [apply Z.ltb_lt in E2; lia|].
  replace (Z.to_nat (i + Z.of_nat n)) with (Z.to_nat i + n)%nat in X1 by lia.
  replace (Z.to_nat (j + Z.of_nat n)) with (Z.to_nat j + n)%nat in X2 by lia.
  congruence.
Qed.

Lemma opcodes_from_acc blocks : forall i j answer,
  opcodes_from blocks i j answer = answer ++ opcodes_from blocks i j [].
Proof.
  induction blocks as [|[[ai bj] size] blocks IH]; intros i j answer;
    cbn [opcodes_from].
  - rewrite app_nil_r. reflexivity.
  - rewrite IH. symmetry. rewrite IH. symmetry.
    destruct ((i <? ai) && (j <? bj)), (i <? ai), (j <? bj), (size =? 0);
      cbn [app]; rewrite <- ?app_assoc; reflexivity.
Qed.

Lemma opcodes_tiles blocks : forall i j hi hj,
  0 <= i -> 0 <= j ->
  bchain i j blocks hi hj -> Forall (block_matches a b) blocks ->
  tiles a b i j (opcodes_from blocks i j [])
    (fst (chain_end i j blocks)) (snd (chain_end i j blocks)).
Proof.
  induction blocks as [|[[ai bj] size] blocks IH]; intros i j hi hj Hi Hj C F;
    cbn [opcodes_from chain_end tiles fst snd]; [auto|].
  cbn [bchain] in C. destruct C as [C1 [C2 [C3 C4]]].
  inversion F as [|? ? M F']; subst.
  rewrite opcodes_from_acc.
  specialize (IH (ai + size) (bj + size) hi hj).
  assert (E : tiles a b ai bj
                ((if size =? 0 then []
                  else [(Equal, ai, ai + size, bj, bj + size)])
                 ++ opcodes_from blocks (ai + size) (bj + size) [])
                (fst (chain_end (ai + size) (bj + size) blocks))
                (snd (chain_end (ai + size) (bj + size) blocks))).
  { destruct (size =? 0) eqn:S0.
    - apply Z.eqb_eq in S0. subst size. cbn [app].
      rewrite !Z.add_0_r in *. apply IH; assumption || lia.
    - apply Z.eqb_neq in S0. cbn [app tiles tag_ok].
      destruct (slice_matches ai bj size) as [_ [_ S]]; try lia; [exact M|].
      repeat split; try lia; try exact S. apply IH; assumption || lia. }
  cbv zeta.
  assert (G : forall gap R,
             (if size =? 0 then gap
              else gap ++ [(Equal, ai, ai + size, bj, bj + size)]) ++ R
             = gap ++ (if size =? 0 then []
                       else [(Equal, ai, ai + size, bj, bj + size)]) ++ R).
  { intros gap R. destruct (size =? 0); [reflexivity|].
    rewrite <- app_assoc. reflexivity. }
  rewrite G. clear G. revert E.
  generalize ((if size =? 0 then []
               else [(Equal, ai, ai + size, bj, bj + size)])
              ++ opcodes_from blocks (ai + size) (bj + size) []).
  generalize (chain_end (ai + size) (bj + size) blocks).
  intros e rest E.
  destruct ((i <? ai) && (j <? bj)) eqn:T1.
  - apply andb_prop in T1. destruct T1 as [T1 T2].
    apply Z.ltb_lt in T1, T2.
    cbn [app tiles tag_ok]. repeat split; try lia. exact E.
  - destruct (i <? ai) eqn:T2.
    + apply Z.ltb_lt in T2. cbn [andb] in T1. apply Z.ltb_ge in T1.
      assert (j = bj) by lia. subst bj.
      cbn [app tiles tag_ok]. repeat split; try lia. exact E.
    + apply Z.ltb_ge in T2. assert (i = ai) by lia. subst ai.
      destruct (j <? bj) eqn:T3.
      * apply Z.ltb_lt in T3.
        cbn [app tiles tag_ok]. repeat split; try lia. exact E.
      * apply Z.ltb_ge in T3. assert (j = bj) by lia. subst bj.
        cbn [app]. exact E.
Qed.

(** The opcodes of [get_opcodes] tile the two sequences. *)
Lemma get_opcodes_tiles codes :
  get_opcodes eqb seed a b = Ok codes -> tiles a b 0 0 codes la lb.
Proof.
  unfold get_opcodes.
  destruct (get_matching_blocks eqb seed a b) as [blocks| |] eqn:E;
    cbn [bind]; try discriminate.
  intros H. inversion H; subst. clear H.
  apply get_matching_blocks_sound in E. destruct E as [C [M End]].
  pose proof (opcodes_tiles blocks 0 0 la lb) as O.
  rewrite End in O. apply O; assumption || lia.
Qed.

End Blocks.

(** *** The changes of the opcodes are those of the groups *)

Section Grouped.

Context {X : Type}.
Variable f : opcode -> list X.
Hypothesis f_Equal : forall i1 i2 j1 j2, f (Equal, i1, i2, j1, j2) = [].

Lemma flat_map_fix_first n codes :
  flat_map f (fix_first n codes) = flat_map f codes.
Proof.
  destruct codes as [|[[[[[] i1] i2] j1] j2] rest]; cbn [fix_first flat_map];
    rewrite ?f_Equal; reflexivity.
Qed.

Lemma fix_last_cons n c r rest :
  fix_last n (c :: r :: rest) = c :: fix_last n (r :: rest).
Proof. destruct c as [[[[[] i1] i2] j1] j2]; reflexivity. Qed.

Lemma flat_map_fix_last n codes :
  flat_map f (fix_last n codes) = flat_map f codes.
Proof.
  induction codes as [|c [|r rest] IH]; [reflexivity| |].
  - destruct c as [[[[[] i1] i2] j1] j2]; cbn [fix_last flat_map];
      rewrite ?f_Equal; reflexivity.
  - rewrite fix_last_cons. cbn [flat_map] in *. rewrite IH. reflexivity.
Qed.

Lemma flat_map_group_codes n codes : forall group groups,
  flat_map f (concat (fst (group_codes n codes group groups))
              ++ snd (group_codes n codes group groups))
  = flat_map f (concat groups ++ group) ++ flat_map f codes.
Proof.
  induction codes as [|[[[[t i1] i2] j1] j2] codes IH]; intros group groups;
    cbn [group_codes fst snd flat_map].
  - rewrite app_nil_r. reflexivity.
  - destruct (is_equal t && (n + n <? i2 - i1)) eqn:E.
    + apply andb_prop in E. destruct E as [E _].
      destruct t; try discriminate.
      rewrite IH, concat_app. cbn [concat].
      rewrite !flat_map_app. cbn [flat_map].
      rewrite !f_Equal, !app_nil_r. cbn [app]. rewrite ?app_nil_r.
      reflexivity.
    + rewrite IH, !flat_map_app. cbn [flat_map].
      rewrite app_nil_r, <- !app_assoc. reflexivity.
Qed.

Lemma flat_map_grouped n codes :
  flat_map f (concat (grouped n codes)) = flat_map f codes.
Proof.
  unfold grouped.
  set (codes0 := match codes with [] => [(Equal, 0, 1, 0, 1)] | _ => codes end).
  assert (E0 : flat_map f codes0 = flat_map f codes).
  { subst codes0. destruct codes; [|reflexivity].
    cbn [flat_map]. rewrite f_Equal. reflexivity. }
  pose proof (flat_map_group_codes n (fix_last n (fix_first n codes0)) [] [])
    as G.
  rewrite flat_map_fix_last, flat_map_fix_first, E0 in G.
  cbn [concat app flat_map] in G.
  destruct (group_codes n (fix_last n (fix_first n codes0)) [] [])
    as [groups group].
  cbn [fst snd] in G. rewrite <- G, flat_map_app.
  destruct group as [|[[[[t i1] i2] j1] j2] [|c group]].
  - cbn [flat_map]. rewrite app_nil_r. reflexivity.
  - destruct t; try (rewrite concat_app, flat_map_app; cbn [concat];
                     rewrite app_nil_r; reflexivity).
    cbn [flat_map]. rewrite f_Equal, !app_nil_r. reflexivity.
  - destruct t; rewrite concat_app, flat_map_app; cbn [concat];
      rewrite app_nil_r; reflexivity.
Qed.

End Grouped.

(** A diff without a group has at most one opcode, an equality. *)
Lemma group_codes_no_group n codes : forall group groups,
  fst (group_codes n codes group groups) = [] ->
  groups = [] /\ snd (group_codes n codes group groups) = group ++ codes.
Proof.
  induction codes as [|[[[[t i1] i2] j1] j2] codes IH]; intros group groups;
    cbn [group_codes fst snd].
  - rewrite app_nil_r. auto.
  - destruct (is_equal t && (n + n <? i2 - i1)).
    + intros H. apply IH in H. destruct H as [H _].
      destruct groups; discriminate.
    + intros H. apply IH in H. destruct H as [H1 H2].
      rewrite H2, <- app_assoc. auto.
Qed.

Lemma length_fix_first n codes :
  List.length (fix_first n codes) = List.length codes.
Proof. destruct codes as [|[[[[[] i1] i2] j1] j2] rest]; reflexivity. Qed.

Lemma length_fix_last n codes :
  List.length (fix_last n codes) = List.length codes.
Proof.
  induction codes as [|c [|r rest] IH]; [reflexivity| |].
  - destruct c as [[[[[] i1] i2] j1] j2]; reflexivity.
  - rewrite (fix_last_cons n c r rest). cbn [List.length] in *.
    rewrite IH. reflexivity.
Qed.

Lemma grouped_nil n codes :
  grouped n codes = [] ->
  Forall (fun c => is_change c = false) codes
  /\ (List.length codes <= 1)%nat.
Proof.
  intros H.
  pose proof (flat_map_grouped (fun c => if is_change c then [c] else [])
                (fun _ _ _ _ => eq_refl) n codes) as G.
  rewrite H in G. cbn [concat flat_map] in G. split.
  - apply Forall_forall. intros c Hc.
    destruct (is_change c) eqn:E; [|reflexivity].
    assert (I : In c (flat_map (fun c => if is_change c then [c] else [])
                        codes)).
    { apply in_flat_map. exists c. rewrite E. split; [exact Hc | left; reflexivity]. }
    rewrite <- G in I. destruct I.
  - revert H. unfold grouped.
    set (codes0 := match codes with [] => [(Equal, 0, 1, 0, 1)] | _ => codes end).
    assert (L : (List.length codes <= List.length codes0)%nat).
    { subst codes0. destruct codes; cbn [List.length]; auto with arith. }
    pose proof (group_codes_no_group n (fix_last n (fix_first n codes0)) [] [])
      as N.
    destruct (group_codes n (fix_last n (fix_first n codes0)) [] [])
      as [groups group].
    cbn [fst snd app] in N. intros H.
    assert (E : groups = []).
    { destruct group as [|[[[[[] i1] i2] j1] j2] [|c group]];
        try exact H; destruct groups; discriminate. }
    destruct (N E) as [_ N2].
    assert (L2 : List.length group = List.length codes0)
      by (rewrite N2, length_fix_last, length_fix_first; reflexivity).
    destruct group as [|c1 [|c2 group]]; cbn [List.length] in L2; try lia.
    subst groups. destruct c1 as [[[[[] i1] i2] j1] j2]; discriminate.
Qed.

(** *** What [compare] reads in the diff *)

Lemma reported_app mark l1 l2 :
  reported mark (l1 ++ l2) = reported mark l1 ++ reported mark l2.
Proof. unfold reported. rewrite filter_app, map_app. reflexivity. Qed.

Lemma In_reported mark l x :
  In x (reported mark l)
  <-> exists y, In y l /\ startswith mark y = false /\ x = strip y.
Proof.
  unfold reported. rewrite in_map_iff. split.
  - intros [y [E H]]. apply filter_In in H. destruct H as [H1 H2].
    exists y. destruct (startswith mark y); [discriminate | auto].
  - intros [y [H1 [H2 E]]]. exists y. split; [auto|].
    apply filter_In. rewrite H2. auto.
Qed.

Lemma reported_length mark l :
  (List.length (reported mark l) <= List.length l)%nat.
Proof. unfold reported. rewrite length_map. apply filter_length_le. Qed.

Lemma parse_diff_minus x rest added removed :
  parse_diff ((u "-" ++ x) :: rest) added removed
  = parse_diff rest added (removed ++ reported (u "--") [x]).
Proof.
  change (u "-" ++ x) with (45 :: x). cbn [parse_diff].
  change (startswith (u "---") (45 :: x)) with (startswith (u "--") x).
  change (startswith (u "+++") (45 :: x)) with false.
  change (startswith (u "@@") (45 :: x)) with false.
  change (startswith (u "-") (45 :: x)) with true.
  unfold reported. cbn [filter orb skipn].
  destruct (startswith (u "--") x); cbn [negb map orb];
    rewrite ?app_nil_r; reflexivity.
Qed.

Lemma parse_diff_plus x rest added removed :
  parse_diff ((u "+" ++ x) :: rest) added removed
  = parse_diff rest (added ++ reported (u "++") [x]) removed.
Proof.
  change (u "+" ++ x) with (43 :: x). cbn [parse_diff].
  change (startswith (u "---") (43 :: x)) with false.
  change (startswith (u "+++") (43 :: x)) with (startswith (u "++") x).
  change (startswith (u "@@") (43 :: x)) with false.
  change (startswith (u "-") (43 :: x)) with false.
  change (startswith (u "+") (43 :: x)) with true.
  unfold reported. cbn [filter orb skipn].
  destruct (startswith (u "++") x); cbn [negb map orb];
    rewrite ?app_nil_r; reflexivity.
Qed.

Lemma parse_diff_space x rest added removed :
  parse_diff ((u " " ++ x) :: rest) added removed
  = parse_diff rest added removed.
Proof. reflexivity. Qed.

Lemma parse_minus l : forall rest added removed,
  parse_diff (map (app (u "-")) l ++ rest) added removed
  = parse_diff rest added (removed ++ reported (u "--") l).
Proof.
  induction l as [|x l IH]; intros rest added removed.
  - cbn [map app]. unfold reported. cbn [filter map].
    rewrite app_nil_r. reflexivity.
  - cbn [map]. rewrite <- app_comm_cons, parse_diff_minus, IH.
    rewrite <- app_assoc, <- reported_app. reflexivity.
Qed.

Lemma parse_plus l : forall rest added removed,
  parse_diff (map (app (u "+")) l ++ rest) added removed
  = parse_diff rest (added ++ reported (u "++") l) removed.
Proof.
  induction l as [|x l IH]; intros rest added removed.
  - cbn [map app]. unfold reported. cbn [filter map].
    rewrite app_nil_r. reflexivity.
  - cbn [map]. rewrite <- app_comm_cons, parse_diff_plus, IH.
    rewrite <- app_assoc, <- reported_app. reflexivity.
Qed.

Lemma parse_space l : forall rest added removed,
  parse_diff (map (app (u " ")) l ++ rest) added removed
  = parse_diff rest added removed.
Proof.
  induction l as [|x l IH]; intros rest added removed; [reflexivity|].
  cbn [map]. rewrite <- app_comm_cons, parse_diff_space. apply IH.
Qed.

Section Parse.

Variables a b : list str.

Lemma parse_opcodes ops : forall rest added removed,
  parse_diff (flat_map (opcode_lines a b) ops ++ rest) added removed
  = parse_diff rest
      (added ++ reported (u "++") (inserted_lines b ops))
      (removed ++ reported (u "--") (deleted_lines a ops)).
Proof.
  unfold inserted_lines, deleted_lines.
  induction ops as [|[[[[t i1] i2] j1] j2] ops IH]; intros rest added removed.
  - unfold reported. cbn [flat_map filter map app].
    rewrite !app_nil_r. reflexivity.
  - cbn [flat_map]. rewrite <- app_assoc.
    destruct t; cbn [opcode_lines app];
      rewrite <- ?app_assoc, ?parse_space, ?parse_minus, ?parse_plus, IH,
        ?reported_app, ?app_assoc; reflexivity.
Qed.

Lemma parse_groups_lines groups : forall body rest added removed,
  groups_lines a b groups = Ok body ->
  parse_diff (body ++ rest) added removed
  = parse_diff rest
      (added ++ reported (u "++") (inserted_lines b (concat groups)))
      (removed ++ reported (u "--") (deleted_lines a (concat groups))).
Proof.
  induction groups as [|g groups IH]; intros body rest added removed;
    cbn [groups_lines].
  - intros H. inversion H; subst. unfold reported. cbn.
    rewrite !app_nil_r. reflexivity.
  - unfold group_lines.
    destruct (getitem g 0) as [[[[[t1 f1] f2] f3] f4]| |]; cbn [bind];
      try discriminate.
    destruct (getitem g (-1)) as [[[[[t2 l1] l2] l3] l4]| |]; cbn [bind];
      try discriminate.
    destruct (groups_lines a b groups) as [more| |]; cbn [bind];
      try discriminate.
    intros H. inversion H; subst. clear H.
    rewrite <- app_comm_cons.
    match goal with
    | |- parse_diff (?h :: ?r) ?x ?y = _ =>
      change (parse_diff (h :: r) x y) with (parse_diff r x y)
    end.
    rewrite <- app_assoc, parse_opcodes, (IH more) by reflexivity.
    unfold inserted_lines, deleted_lines. cbn [concat].
    rewrite !flat_map_app, !reported_app, !app_assoc. reflexivity.
Qed.

Lemma parse_unified_diff seed n diff :
  unified_diff seed a b n = Ok diff ->
  exists codes,
    get_opcodes str_eqb seed a b = Ok codes
    /\ parse_diff diff [] []
       = (reported (u "++") (inserted_lines b codes),
          reported (u "--") (deleted_lines a codes)).
Proof.
  unfold unified_diff.
  destruct (get_opcodes str_eqb seed a b) as [codes| |]; cbn [bind];
    try discriminate.
  destruct (groups_lines a b (grouped n codes)) as [body| |] eqn:B;
    cbn [bind]; try discriminate.
  intros H. exists codes. split; [reflexivity|].
  pose proof (parse_groups_lines _ _ [] [] [] B) as P.
  rewrite app_nil_r in P. cbn [app] in P.
  unfold inserted_lines, deleted_lines in *.
  rewrite !flat_map_grouped in P by reflexivity.
  destruct (grouped n codes) as [|g gs] eqn:G.
  - inversion H; subst. cbn [groups_lines] in B. inversion B; subst.
    exact P.
  - inversion H; subst. exact P.
Qed.

Local Abbreviation la := (Z.of_nat (List.length a)).
Local Abbreviation lb := (Z.of_nat (List.length b)).

Lemma tiles_counts ops : forall i j ie je,
  tiles a b i j ops ie je -> 0 <= i -> 0 <= j -> ie <= la -> je <= lb ->
  i <= ie /\ j <= je
  /\ Z.of_nat (List.length (deleted_lines a ops)) <= ie - i
  /\ Z.of_nat (List.length (inserted_lines b ops)) <= je - j.
Proof.
  unfold inserted_lines, deleted_lines.
  induction ops as [|[[[[t i1] i2] j1] j2] ops IH]; intros i j ie je;
    cbn [tiles flat_map List.length].
  - cbn. lia.
  - intros [E1 [E2 [TG TL]]] Hi Hj He1 He2. subst i1 j1.
    cbn [tag_ok] in TG.
    assert (B : i <= i2 /\ j <= j2) by (destruct t; lia).
    destruct (IH i2 j2 ie je TL) as [I1 [I2 [I3 I4]]]; try lia.
    rewrite !length_app, !Nat2Z.inj_add.
    destruct t; cbn [List.length]; rewrite ?slice_length by lia; lia.
Qed.

Lemma slice_empty {A : Type} (l : list A) i : slice l i i = [].
Proof. unfold slice. rewrite Z.sub_diag. reflexivity. Qed.

(** A line of [a] that the opcodes do not delete is in [b]. *)
Lemma tiles_cover_a ops : forall i j ie je,
  tiles a b i j ops ie je -> 0 <= i -> 0 <= j -> ie <= la -> je <= lb ->
  forall x, In x (slice a i ie) -> In x (deleted_lines a ops) \/ In x b.
Proof.
  unfold deleted_lines.
  induction ops as [|[[[[t i1] i2] j1] j2] ops IH]; intros i j ie je;
    cbn [tiles flat_map].
  - intros [E1 E2] _ _ _ _ x. subst. rewrite slice_empty. intros [].
  - intros [E1 [E2 [TG TL]]] Hi Hj He1 He2 x. subst i1 j1.
    cbn [tag_ok] in TG.
    assert (B : i <= i2 /\ j <= j2) by (destruct t; lia).
    destruct (tiles_counts ops i2 j2 ie je TL) as [I1 [I2 _]]; try lia.
    rewrite (slice_split a i i2 ie) by lia.
    intros H. apply in_app_or in H. destruct H as [H|H].
    + destruct t.
      * left. apply in_or_app. left. exact H.
      * left. apply in_or_app. left. exact H.
      * destruct TG as [S _]. subst i2. rewrite slice_empty in H.
        destruct H.
      * right. destruct TG as [_ [_ S]]. rewrite S in H.
        eapply slice_incl. exact H.
    + destruct (IH i2 j2 ie je TL) with (x := x) as [D|D];
        try lia; try assumption; [left | right; exact D].
      apply in_or_app. right. exact D.
Qed.

(** A line of [b] that the opcodes do not insert is in [a]. *)
Lemma tiles_cover_b ops : forall i j ie je,
  tiles a b i j ops ie je -> 0 <= i -> 0 <= j -> ie <= la -> je <= lb ->
  forall x, In x (slice b j je) -> In x (inserted_lines b ops) \/ In x a.
Proof.
  unfold inserted_lines.
  induction ops as [|[[[[t i1] i2] j1] j2] ops IH]; intros i j ie je;
    cbn [tiles flat_map].
  - intros [E1 E2] _ _ _ _ x. subst. rewrite slice_empty. intros [].
  - intros [E1 [E2 [TG TL]]] Hi Hj He1 He2 x. subst i1 j1.
    cbn [tag_ok] in TG.
    assert (B : i <= i2 /\ j <= j2) by (destruct t; lia).
    destruct (tiles_counts ops i2 j2 ie je TL) as [I1 [I2 _]]; try lia.
    rewrite (slice_split b j j2 je) by lia.
    intros H. apply in_app_or in H. destruct H as [H|H].
    + destruct t.
      * left. apply in_or_app. left. exact H.
      * destruct TG as [_ S]. subst j2. rewrite slice_empty in H.
        destruct H.
      * left. apply in_or_app. left. exact H.
      * right. destruct TG as [_ [_ S]]. rewrite <- S in H.
        eapply slice_incl. exact H.
    + destruct (IH i2 j2 ie je TL) with (x := x) as [D|D];
        try lia; try assumption; [left | right; exact D].
      apply in_or_app. right. exact D.
Qed.

Lemma In_deleted_lines ops x : In x (deleted_lines a ops) -> In x a.
Proof.
  unfold deleted_lines. intros H. apply in_flat_map in H.
  destruct H as [[[[[t i1] i2] j1] j2] [_ H]].
  destruct t; try destruct H; eapply slice_incl; eassumption.
Qed.

Lemma In_inserted_lines ops x : In x (inserted_lines b ops) -> In x b.
Proof.
  unfold inserted_lines. intros H. apply in_flat_map in H.
  destruct H as [[[[[t i1] i2] j1] j2] [_ H]].
  destruct t; try destruct H; eapply slice_incl; eassumption.
Qed.

End Parse.

(** *** A sequence compared with itself *)

Section Identical.

Context {T : Type}.
Variable eqb : T -> T -> bool.
Hypothesis eqb_eq : forall x y, eqb x y = true <-> x = y.
Variable a : list T.
Variable b2j : b2j_t (T:=T).
Hypothesis b2j_pos :
  forall x js, dict_get eqb b2j x = Some js -> js = positions eqb 0 a x.

Local Abbreviation n := (Z.of_nat (List.length a)).
Local Abbreviation runs := (run eqb b2j a).

Lemma run_nonneg m : 0 <= runs m.
Proof.
  induction m as [|m IH]; cbn [run]; [lia|].
  destruct (nth_error a m) as [x|]; [|lia].
  destruct (dict_get eqb b2j x); lia.
Qed.

Lemma positions_app l1 l2 i x :
  positions eqb i (l1 ++ l2) x
  = positions eqb i l1 x
    ++ positions eqb (i + Z.of_nat (List.length l1)) l2 x.
Proof.
  revert i. induction l1 as [|y l1 IH]; intros i; cbn [positions app].
  - cbn [List.length]. rewrite Z.add_0_r. reflexivity.
  - rewrite IH. cbn [List.length].
    replace (i + 1 + Z.of_nat (List.length l1))
      with (i + Z.of_nat (S (List.length l1))) by lia.
    destruct (eqb y x); reflexivity.
Qed.

(** The positions of [a[i]]: those before [i], then [i], then those
    after [i]. *)
Lemma positions_split i x :
  nth_error a i = Some x ->
  exists js1 js2,
    positions eqb 0 a x = js1 ++ Z.of_nat i :: js2
    /\ (forall j, In j js1 ->
          exists m, j = Z.of_nat m /\ (m < i)%nat /\ nth_error a m = Some x)
    /\ (forall j, In j js2 ->
          exists m, j = Z.of_nat m /\ (i < m)%nat /\ nth_error a m = Some x).
Proof.
  intros H. pose proof (firstn_skipn_middle i a H) as E.
  assert (Li : List.length (firstn i a) = i).
  { rewrite length_firstn. apply Nat.min_l.
    assert (i < List.length a)%nat by (apply nth_error_Some; congruence).
    lia. }
  exists (positions eqb 0 (firstn i a) x),
         (positions eqb (Z.of_nat i + 1) (skipn (S i) a) x).
  split; [|split].
  - rewrite <- E at 1. rewrite positions_app, Li. cbn [positions].
    rewrite (eqb_refl eqb eqb_eq). reflexivity.
  - intros j Hj. apply (positions_In eqb eqb_eq) in Hj.
    destruct Hj as [m [E1 E2]]. exists m. split; [lia|].
    assert (m < i)%nat.
    { rewrite <- Li. apply nth_error_Some. congruence. }
    split; [assumption|]. rewrite nth_error_firstn in E2.
    destruct (Nat.ltb_spec m i); [exact E2 | lia].
  - intros j Hj. apply (positions_In eqb eqb_eq) in Hj.
    destruct Hj as [m [E1 E2]]. exists (S i + m)%nat. split; [lia|].
    split; [lia|]. rewrite nth_error_skipn in E2. exact E2.
Qed.

Lemma scan_row_app blo bhi i j2len js1 : forall js2 new best,
  (forall j, In j js1 -> j < bhi) ->
  scan_row blo bhi i j2len (js1 ++ js2) new best
  = scan_row blo bhi i j2len js2
      (fst (scan_row blo bhi i j2len js1 new best))
      (snd (scan_row blo bhi i j2len js1 new best)).
Proof.
  induction js1 as [|j js1 IH]; intros js2 new best B; cbn [app scan_row];
    [reflexivity|].
  assert (B' : forall j', In j' js1 -> j' < bhi)
    by (intros; apply B; right; assumption).
  destruct (j <? blo); [apply IH; exact B'|].
  destruct (bhi <=? j) eqn:E.
  - apply Z.leb_le in E. specialize (B j (or_introl eq_refl)). lia.
  - destruct best as [[bi bj] bs]. apply IH. exact B'.
Qed.

(** A row that improves nothing. *)
Lemma scan_row_keep blo bhi i j2len js : forall new p q s,
  (forall j, In j js ->
     blo <= j < bhi /\ j2len_get j2len (j - 1) + 1 <= s) ->
  scan_row blo bhi i j2len js new (p, q, s)
  = (rev (map (fun j => (j, j2len_get j2len (j - 1) + 1)) js) ++ new,
     (p, q, s)).
Proof.
  induction js as [|j js IH]; intros new p q s B; cbn [scan_row map rev app];
    [reflexivity|].
  destruct (B j (or_introl eq_refl)) as [[B1 B2] B3].
  destruct (j <? blo) eqn:E1; [apply Z.ltb_lt in E1; lia|].
  destruct (bhi <=? j) eqn:E2; [apply Z.leb_le in E2; lia|].
  destruct (s <? j2len_get j2len (j - 1) + 1) eqn:E3;
    [apply Z.ltb_lt in E3; lia|].
  rewrite IH by (intros; apply B; right; assumption).
  rewrite <- app_assoc. reflexivity.
Qed.

Lemma j2len_get_graph (f : Z -> Z) d z :
  Forall (fun kv => snd kv = f (fst kv)) d ->
  (In z (map fst d) -> j2len_get d z = f z)
  /\ (~ In z (map fst d) -> j2len_get d z = 0).
Proof.
  induction d as [|[key k] d IH]; intros F; cbn [j2len_get map In fst].
  - split; [intros [] | reflexivity].
  - inversion F as [|? ? F1 F2]; subst. cbn [fst snd] in F1.
    destruct (IH F2) as [IH1 IH2].
    destruct (key =? z) eqn:E.
    + apply Z.eqb_eq in E. subst key. split; [auto | tauto].
    + apply Z.eqb_neq in E. split.
      * intros [H|H]; [contradiction | auto].
      * intros H. apply IH2. tauto.
Qed.

(** One row of [a] against [a] itself: the best match stays on the
    diagonal, and the lengths recorded are bounded by the runs. *)
Lemma scan_row_diag i x j2len p s :
  nth_error a i = Some x -> dict_get eqb b2j x <> None ->
  (forall z, 0 <= j2len_get j2len z) ->
  (forall z, j2len_get j2len z <= runs (Z.to_nat (z + 1))) ->
  (forall z, j2len_get j2len z <= runs i) ->
  j2len_get j2len (Z.of_nat i - 1) = runs i ->
  (forall k, (k <= i)%nat -> runs k <= s) ->
  exists d' p1 s1,
    scan_row 0 n (Z.of_nat i) j2len (positions eqb 0 a x) [] (p, p, s)
    = (d', (p1, p1, s1))
    /\ (forall z, 0 <= j2len_get d' z)
    /\ (forall z, j2len_get d' z <= runs (Z.to_nat (z + 1)))
    /\ (forall z, j2len_get d' z <= runs (S i))
    /\ j2len_get d' (Z.of_nat (S i) - 1) = runs (S i)
    /\ (forall k, (k <= S i)%nat -> runs k <= s1).
Proof.
  intros X K I0 I2 I3 I4 I5.
  assert (Rj : forall m, nth_error a m = Some x -> runs (S m) = runs m + 1).
  { intros m Xm. cbn [run]. rewrite Xm.
    destruct (dict_get eqb b2j x); [reflexivity | contradiction]. }
  destruct (positions_split i x X) as [js1 [js2 [E [B1 B2]]]].
  assert (L : (i < List.length a)%nat) by (apply nth_error_Some; congruence).
  pose (f := fun z => j2len_get j2len (z - 1) + 1).
  pose (e := fun j : Z => (j, f j)).
  assert (Best : exists p1 s1,
             (if s <? f (Z.of_nat i)
              then (Z.of_nat i - f (Z.of_nat i) + 1,
                    Z.of_nat i - f (Z.of_nat i) + 1, f (Z.of_nat i))
              else (p, p, s)) = (p1, p1, s1)
             /\ s <= s1 /\ f (Z.of_nat i) <= s1).
  { destruct (s <? f (Z.of_nat i)) eqn:Sk;
      [apply Z.ltb_lt in Sk | apply Z.ltb_ge in Sk];
      eexists; eexists; (split; [reflexivity | lia]). }
  destruct Best as [p1 [s1 [Eb [S1 S2]]]].
  exists (rev (map e (js1 ++ Z.of_nat i :: js2))), p1, s1.
  split.
  - rewrite E, scan_row_app.
    2:{ intros j Hj. destruct (B1 j Hj) as [m [-> [M _]]]. lia. }
    rewrite scan_row_keep.
    2:{ intros j Hj. destruct (B1 j Hj) as [m [-> [M Xm]]]. split; [lia|].
        pose proof (I2 (Z.of_nat m - 1)) as H2.
        replace (Z.to_nat (Z.of_nat m - 1 + 1)) with m in H2 by lia.
        pose proof (I5 (S m)) as H5. rewrite (Rj m Xm) in H5. lia. }
    cbn [fst snd scan_row].
    destruct (Z.of_nat i <? 0) eqn:E1; [apply Z.ltb_lt in E1; lia|].
    destruct (n <=? Z.of_nat i) eqn:E2; [apply Z.leb_le in E2; lia|].
    cbv zeta.
    change (j2len_get j2len (Z.of_nat i - 1) + 1) with (f (Z.of_nat i)).
    match goal with
    | |- scan_row _ _ _ _ _ _ ?bst = _ =>
      replace bst with (p1, p1, s1) by (symmetry; exact Eb)
    end.
    rewrite scan_row_keep.
    2:{ intros j Hj. destruct (B2 j Hj) as [m [-> [M Xm]]]. split.
        - assert (m < List.length a)%nat
            by (apply nth_error_Some; congruence). lia.
        - pose proof (I3 (Z.of_nat m - 1)). unfold f in S2.
          rewrite I4 in S2. lia. }
    f_equal. rewrite map_app, rev_app_distr. cbn [map rev].
    rewrite <- !app_assoc, app_nil_r. reflexivity.
  - assert (F : Forall (fun kv => snd kv = f (fst kv))
                  (rev (map e (js1 ++ Z.of_nat i :: js2)))).
    { apply Forall_rev. apply Forall_map. apply Forall_forall.
      intros; reflexivity. }
    assert (InJ : forall z,
               In z (map fst (rev (map e (js1 ++ Z.of_nat i :: js2))))
               <-> exists m, z = Z.of_nat m /\ nth_error a m = Some x).
    { intros z. rewrite map_rev, map_map, <- in_rev.
      change (map (fun j => fst (e j))) with (map (fun j : Z => j)).
      rewrite map_id, <- E, (positions_In eqb eqb_eq).
      split; intros [m [H1 H2]]; exists m; split; auto; lia. }
    assert (Get : forall z,
               (exists m, z = Z.of_nat m /\ nth_error a m = Some x
                          /\ j2len_get (rev (map e (js1 ++ Z.of_nat i :: js2))) z
                             = f z)
               \/ j2len_get (rev (map e (js1 ++ Z.of_nat i :: js2))) z = 0).
    { intros z. destruct (j2len_get_graph f _ z F) as [G1 G2].
      destruct (in_dec Z.eq_dec z
                  (map fst (rev (map e (js1 ++ Z.of_nat i :: js2)))))
        as [HIn|HIn]; [left | right; auto].
      destruct (proj1 (InJ z) HIn) as [m [H1 H2]]. exists m. auto. }
    assert (Ri : runs (S i) = runs i + 1) by (apply Rj; exact X).
    repeat split.
    + intros z. destruct (Get z) as [[m [_ [_ G]]]|G]; rewrite G; [|lia].
      unfold f. pose proof (I0 (z - 1)). lia.
    + intros z. destruct (Get z) as [[m [Ez [Xm G]]]|G]; rewrite G;
        [|apply run_nonneg].
      subst z. replace (Z.to_nat (Z.of_nat m + 1)) with (S m) by lia.
      rewrite (Rj m Xm). unfold f. pose proof (I2 (Z.of_nat m - 1)) as H2.
      replace (Z.to_nat (Z.of_nat m - 1 + 1)) with m in H2 by lia. lia.
    + intros z. rewrite Ri.
      destruct (Get z) as [[m [_ [_ G]]]|G]; rewrite G.
      * unfold f. pose proof (I3 (z - 1)). lia.
      * pose proof (run_nonneg i). lia.
    + replace (Z.of_nat (S i) - 1) with (Z.of_nat i) by lia.
      destruct (j2len_get_graph f _ (Z.of_nat i) F) as [G1 _].
      rewrite G1 by (apply InJ; exists i; auto).
      unfold f. rewrite I4, Ri. reflexivity.
    + intros k Hk. destruct (Nat.eq_dec k (S i)) as [->|N].
      * rewrite Ri. unfold f in S2. rewrite I4 in S2. exact S2.
      * pose proof (I5 k). lia.
Qed.

(** The best match of the rows of [a] against [a] itself is on the
    diagonal. *)
Lemma scan_rows_diag m : forall i j2len p s,
  (i + m = List.length a)%nat ->
  (forall z, 0 <= j2len_get j2len z) ->
  (forall z, j2len_get j2len z <= runs (Z.to_nat (z + 1))) ->
  (forall z, j2len_get j2len z <= runs i) ->
  j2len_get j2len (Z.of_nat i - 1) = runs i ->
  (forall k, (k <= i)%nat -> runs k <= s) ->
  exists p' s',
    scan_rows eqb a b2j 0 n m (Z.of_nat i) j2len (p, p, s)
    = Ok (p', p', s').
Proof.
  induction m as [|m IH]; intros i j2len p s Hm I0 I2 I3 I4 I5;
    cbn [scan_rows]; [eauto|].
  destruct (nth_error a i) as [x|] eqn:X;
    [|apply nth_error_None in X; lia].
  assert (G : getitem a (Z.of_nat i) = Ok x).
  { unfold getitem.
    destruct (Z.of_nat i <? 0) eqn:E; [apply Z.ltb_lt in E; lia|].
    destruct (Z.leb_spec 0 (Z.of_nat i)); [|lia].
    destruct (Z.ltb_spec (Z.of_nat i) n); [|lia].
    cbn [andb]. rewrite Nat2Z.id, X. reflexivity. }
  rewrite G. cbn [bind].
  assert (S0 : 0 <= s) by (apply (I5 0%nat); lia).
  replace (Z.of_nat i + 1) with (Z.of_nat (S i)) by lia.
  destruct (dict_get eqb b2j x) as [js|] eqn:D.
  - pose proof (b2j_pos _ _ D) as Dp. subst js.
    destruct (scan_row_diag i x j2len p s X) as [d' [p1 [s1 [Es Inv]]]];
      try assumption; [congruence|].
    rewrite Es. destruct Inv as [J0 [J2 [J3 [J4 J5]]]].
    apply IH; try assumption. lia.
  - cbn [scan_row].
    assert (R : runs (S i) = 0) by (cbn [run]; rewrite X, D; reflexivity).
    apply IH; cbn [j2len_get]; try lia.
    + intros z. apply run_nonneg.
    + intros k Hk. destruct (Nat.eq_dec k (S i)) as [->|N];
        [rewrite R; lia | apply I5; lia].
Qed.

Lemma getitem_nat i x :
  nth_error a i = Some x -> getitem a (Z.of_nat i) = Ok x.
Proof.
  intros X. assert (i < List.length a)%nat
    by (apply nth_error_Some; congruence).
  unfold getitem.
  destruct (Z.of_nat i <? 0) eqn:E; [apply Z.ltb_lt in E; lia|].
  destruct (Z.leb_spec 0 (Z.of_nat i)); [|lia].
  destruct (Z.ltb_spec (Z.of_nat i) n); [|lia].
  cbn [andb]. rewrite Nat2Z.id, X. reflexivity.
Qed.

Lemma extend_back_diag m : forall p s,
  p = Z.of_nat m -> p <= n ->
  extend_back eqb a a 0 m (p, p, s) = Ok (0, 0, s + p).
Proof.
  induction m as [|m IH]; intros p s Hp Hn; cbn [extend_back].
  - subst p. cbn. rewrite Z.add_0_r. reflexivity.
  - destruct (0 <? p) eqn:E; [|apply Z.ltb_ge in E; lia].
    destruct (nth_error a m) as [x|] eqn:X;
      [|apply nth_error_None in X; lia].
    replace (p - 1) with (Z.of_nat m) by lia.
    rewrite (getitem_nat m x X). cbn [bind].
    rewrite (eqb_refl eqb eqb_eq), IH by lia.
    f_equal. f_equal. lia.
Qed.

Lemma extend_forward_diag m : forall s,
  s + Z.of_nat m = n -> 0 <= s ->
  extend_forward eqb a a n m (0, 0, s) = Ok (0, 0, n).
Proof.
  induction m as [|m IH]; intros s Hs H0; cbn [extend_forward].
  - f_equal. f_equal. lia.
  - cbn [Z.add]. destruct (s <? n) eqn:E; [|apply Z.ltb_ge in E; lia].
    destruct (nth_error a (Z.to_nat s)) as [x|] eqn:X;
      [|apply nth_error_None in X; lia].
    pose proof (getitem_nat _ x X) as G. rewrite Z2Nat.id in G by lia.
    rewrite G. cbn [bind].
    rewrite (eqb_refl eqb eqb_eq). apply IH; lia.
Qed.

(** The longest match of [a] with itself is all of it. *)
Lemma find_longest_match_same :
  find_longest_match eqb a a b2j 0 n 0 n = Ok (0, 0, n).
Proof.
  unfold find_longest_match.
  assert (Hn : 0 <= 0 /\ 0 <= n /\ n <= n) by lia.
  replace (Z.to_nat (n - 0)) with (List.length a) by lia.
  destruct (scan_rows_diag (List.length a) 0%nat [] 0 0)
    as [p [s E]].
  { lia. }
  { intros z. cbn [j2len_get]. lia. }
  { intros z. apply run_nonneg. }
  { intros z. cbn [j2len_get run]. lia. }
  { reflexivity. }
  { intros k Hk. assert (k = 0%nat) by lia. subst k. cbn [run]. lia. }
  destruct (scan_rows_ok eqb a a b2j 0 n 0 n Hn Hn (List.length a) 0 []
              (0, 0, 0)) as [best [E' B]]; try lia;
    [constructor | unfold DifflibInv.in_range; lia |].
  change (Z.of_nat 0) with 0 in E. rewrite E in E'. inversion E'; subst best.
  unfold DifflibInv.in_range in B. rewrite E. cbn [bind fst snd].
  rewrite (extend_back_diag (Z.to_nat (p - 0)) p s) by lia.
  cbn [bind fst snd].
  rewrite (extend_forward_diag (Z.to_nat (n - (0 + (s + p)))) (s + p))
    by lia.
  cbn [bind]. unfold junk_back, junk_forward.
  rewrite Z.ltb_irrefl. cbn [andb bind Z.add].
  rewrite Z.ltb_irrefl. reflexivity.
Qed.

End Identical.

Section Same.

Context {T : Type}.
Variable eqb : T -> T -> bool.
Hypothesis eqb_eq : forall x y, eqb x y = true <-> x = y.
Variable seed : HashSeed.
Hypothesis V : valid_seed seed.
Variable a : list T.

Local Abbreviation n := (Z.of_nat (List.length a)).

Lemma match_queue_nil b2j fuel acc :
  match_queue eqb a a b2j fuel [] acc = Ok acc.
Proof. destruct fuel; reflexivity. Qed.

Lemma get_matching_blocks_same :
  get_matching_blocks eqb seed a a
  = Ok (if n =? 0 then [(n, n, 0)] else [(0, 0, n); (n, n, 0)]).
Proof.
  unfold get_matching_blocks.
  rewrite (chain_b_ok eqb eqb_eq seed a V). cbn [bind match_queue].
  rewrite (find_longest_match_same eqb eqb_eq a _
             (dict_get_chained eqb eqb_eq a)).
  cbn [bind]. destruct (n =? 0) eqn:N.
  - rewrite match_queue_nil. reflexivity.
  - rewrite Z.ltb_irrefl. cbn [andb Z.add]. rewrite Z.ltb_irrefl.
    cbn [andb]. rewrite match_queue_nil.
    cbn [andb app bind sort fold_right insert_sorted collapse Z.add].
    change (0 =? 0) with true. cbn [andb]. rewrite N. reflexivity.
Qed.

Lemma get_opcodes_same :
  get_opcodes eqb seed a a
  = Ok (if n =? 0 then [] else [(Equal, 0, n, 0, n)]).
Proof.
  unfold get_opcodes. rewrite get_matching_blocks_same. cbn [bind].
  destruct (n =? 0) eqn:N; cbn [opcodes_from].
  - apply Z.eqb_eq in N. rewrite N. reflexivity.
  - rewrite Z.ltb_irrefl. cbn [andb Z.add]. rewrite N, Z.ltb_irrefl.
    reflexivity.
Qed.

End Same.

Lemma grouped_one_equal m k :
  0 <= m -> grouped m [(Equal, 0, k, 0, k)] = [].
Proof.
  intros Hm. unfold grouped, fix_first, fix_last.
  cbn [group_codes is_equal andb app].
  destruct (m + m <? Z.min k (Z.max 0 (k - m) + m) - Z.max 0 (k - m)) eqn:E;
    [apply Z.ltb_lt in E; lia | reflexivity].
Qed.

(** A list of lines compared with itself gives an empty diff. *)
Lemma unified_diff_same seed (a : list str) m :
  valid_seed seed -> 0 <= m -> unified_diff seed a a m = Ok [].
Proof.
  intros V Hm. unfold unified_diff.
  rewrite (get_opcodes_same str_eqb str_eqb_eq seed V a). cbn [bind].
  destruct (Z.of_nat (List.length a) =? 0).
  - change (grouped m []) with (grouped m [(Equal, 0, 1, 0, 1)]).
    rewrite grouped_one_equal by exact Hm. reflexivity.
  - rewrite grouped_one_equal by exact Hm. reflexivity.
Qed.

Lemma named_unified_diff_same seed (a : list str) fromfile tofile m lineterm :
  valid_seed seed -> 0 <= m ->
  DifflibNamed.unified_diff seed a a fromfile tofile m lineterm = Ok [].
Proof.
  intros V Hm. unfold DifflibNamed.unified_diff.
  rewrite (get_opcodes_same str_eqb str_eqb_eq seed V a). cbn [bind].
  destruct (Z.of_nat (List.length a) =? 0).
  - change (grouped m []) with (grouped m [(Equal, 0, 1, 0, 1)]).
    rewrite grouped_one_equal by exact Hm. reflexivity.
  - rewrite grouped_one_equal by exact Hm. reflexivity.
Qed.

(** Opcodes that tile two sequences and change nothing: the sequences are
    equal. *)
Lemma tiles_no_change {T : Type} (a b : list T) ops : forall i j ie je,
  tiles a b i j ops ie je -> Forall (fun c => is_change c = false) ops ->
  0 <= i -> 0 <= j ->
  ie <= Z.of_nat (List.length a) -> je <= Z.of_nat (List.length b) ->
  i <= ie /\ j <= je /\ slice a i ie = slice b j je.
Proof.
  induction ops as [|[[[[t i1] i2] j1] j2] ops IH]; intros i j ie je;
    cbn [tiles].
  - intros [E1 E2] _ _ _ _ _. subst. rewrite !slice_empty.
    repeat split; lia.
  - intros [E1 [E2 [TG TL]]] F Hi Hj He1 He2. subst i1 j1.
    inversion F as [|? ? C F']; subst.
    destruct t; try discriminate. cbn [tag_ok] in TG.
    destruct TG as [TG1 [TG2 TG3]].
    destruct (IH i2 j2 ie je TL F') as [I1 [I2 I3]]; try lia.
    split; [lia|]. split; [lia|].
    rewrite (slice_split a i i2 ie), (slice_split b j j2 je) by lia.
    rewrite TG3, I3. reflexivity.
Qed.

(** An empty diff is the diff of equal lists of lines. *)
Lemma named_unified_diff_nil seed (a b : list str) fromfile tofile m lineterm
    diff :
  valid_seed seed ->
  DifflibNamed.unified_diff seed a b fromfile tofile m lineterm = Ok diff ->
  concat diff = [] -> a = b.
Proof.
  intros V. unfold DifflibNamed.unified_diff.
  destruct (get_opcodes str_eqb seed a b) as [codes| |] eqn:G; cbn [bind];
    try discriminate.
  destruct (DifflibNamed.groups_lines lineterm a b (grouped m codes))
    as [body| |]; cbn [bind]; try discriminate.
  destruct (grouped m codes) as [|g gs] eqn:Gr.
  - intros _ _. apply grouped_nil in Gr. destruct Gr as [F _].
    apply (get_opcodes_tiles str_eqb str_eqb_eq seed V) in G.
    destruct (tiles_no_change a b codes _ _ _ _ G F) as [_ [_ S]]; try lia.
    rewrite !slice_all in S. exact S.
  - intros H C. inversion H; subst. cbn [concat] in C.
    apply app_eq_nil in C. destruct C as [C _]. discriminate C.
Qed.

(** *** Sequences without a common element *)

Lemma bchain_nonneg l : forall i j hi hj,
  bchain i j l hi hj -> Forall (fun m : Match => 0 <= snd m) l.
Proof.
  induction l as [|[[ai bj] k] l IH]; intros i j hi hj; cbn [bchain];
    [constructor|].
  intros [_ [_ [K C]]]. constructor; [exact K | eapply IH; exact C].
Qed.

Lemma sum_sizes_zero (l : list Match) acc :
  Forall (fun m => snd m = 0) l -> fold_left Z.add (map snd l) acc = acc.
Proof.
  revert acc. induction l as [|m l IH]; intros acc F; cbn [map fold_left];
    [reflexivity|].
  inversion F as [|? ? E F']; subst. rewrite E, Z.add_0_r. apply IH, F'.
Qed.

Section Disjoint.

Context {T : Type}.
Variable eqb : T -> T -> bool.
Hypothesis eqb_eq : forall x y, eqb x y = true <-> x = y.
Variable seed : HashSeed.
Hypothesis V : valid_seed seed.
Variables a b : list T.
Hypothesis disjoint : forall x, In x a -> ~ In x b.

Lemma get_matching_blocks_disjoint blocks :
  get_matching_blocks eqb seed a b = Ok blocks ->
  Forall (fun m => snd m = 0) blocks.
Proof.
  intros H.
  destruct (get_matching_blocks_sound eqb eqb_eq seed V a b blocks H)
    as [C [M _]].
  apply bchain_nonneg in C. rewrite Forall_forall in *.
  intros [[i j] k] Hm. specialize (C _ Hm). specialize (M _ Hm).
  cbn [snd] in *. destruct (Z.eq_dec k 0) as [E|E]; [exact E|].
  destruct (M 0) as [x [X1 X2]]; [lia|]. exfalso.
  unfold at_ in X1, X2.
  destruct (i + 0 <? 0); [discriminate|].
  destruct (j + 0 <? 0); [discriminate|].
  apply nth_error_In in X1, X2. exact (disjoint x X1 X2).
Qed.

End Disjoint.

(** The lines that [compare] reads in a diff are the lines that opcodes
    tiling the two sequences delete and insert. *)
Lemma unified_diff_report seed (a b : list str) n diff :
  valid_seed seed ->
  unified_diff seed a b n = Ok diff ->
  exists codes,
    tiles a b 0 0 codes (Z.of_nat (List.length a)) (Z.of_nat (List.length b))
    /\ parse_diff diff [] []
       = (reported (u "++") (inserted_lines b codes),
          reported (u "--") (deleted_lines a codes)).
Proof.
  intros V H. destruct (parse_unified_diff a b seed n diff H) as [codes [G P]].
  exists codes. split; [|exact P].
  exact (get_opcodes_tiles str_eqb str_eqb_eq seed V a b codes G).
Qed.
End DifflibCorrect.

(** ** What [compare] reports *)

Lemma encodable_forallb (s : str) :
  forallb (fun c => negb ((0xD800 <=? c) && (c <=? 0xDFFF))) s = true ->
  encodable s.
Proof.
  intros H. apply Forall_forall. intros c Hc.
  rewrite forallb_forall in H. specialize (H c Hc).
  destruct ((0xD800 <=? c) && (c <=? 0xDFFF)); [discriminate | reflexivity].
Qed.

Section CompareReport.

Variable ucd : UnicodeData.
Variable seed : HashSeed.
Variable self : ContentComparator.
Variables content_old content_new : str.
Variable filter_dynamic : bool.
Hypothesis V : valid_seed seed.
Hypothesis E_old : encodable content_old.
Hypothesis E_new : encodable content_new.

Local Abbreviation lines_old :=
  (diffed_lines ucd self filter_dynamic content_old).
Local Abbreviation lines_new :=
  (diffed_lines ucd self filter_dynamic content_new).

(** The two ways in which [compare] returns: on equal hashes, or with the
    pairing of the lines that opcodes tiling the two lists of lines delete
    and insert. *)
Lemma compare_cases :
  (exists h,
     compare ucd seed self content_old content_new filter_dynamic
     = Ok (identical_result content_old content_new h))
  \/ (exists h_old h_new codes rm ad md,
        h_old <> h_new
        /\ DifflibSpec.tiles lines_old lines_new 0 0 codes
             (len lines_old) (len lines_new)
        /\ Permutation
             (DifflibSpec.reported (u "--")
                (DifflibSpec.deleted_lines lines_old codes))
             (rm ++ map fst md)
        /\ Permutation
             (DifflibSpec.reported (u "++")
                (DifflibSpec.inserted_lines lines_new codes))
             (ad ++ map snd md)
        /\ Forall (fun p => similar seed (fst p) (snd p) = true) md
        /\ compare ucd seed self content_old content_new filter_dynamic
           = Ok (diffed_result self h_old h_new lines_old lines_new
                   (rm, ad, md))).
Proof.
  destruct (_hash_ok content_old E_old) as [h_old H1].
  destruct (_hash_ok content_new E_new) as [h_new H2].
  destruct (list_eq_dec Z.eq_dec h_old h_new) as [Heq|Hne].
  - subst h_new. left. exists h_old.
    apply (compare_identical _ _ _ _ _ _ h_old); assumption.
  - right.
    destruct (compare_diffed_ok ucd seed self content_old content_new
                filter_dynamic h_old h_new V H1 H2 Hne) as [diff [D C]].
    destruct (DifflibCorrect.unified_diff_report seed _ _ 0 diff V D)
      as [codes [Tl P]].
    rewrite P in C. cbn [fst snd] in C.
    pose proof (greedy_pairing_partition (similar seed)
                  (DifflibSpec.reported (u "--")
                     (DifflibSpec.deleted_lines lines_old codes))
                  (DifflibSpec.reported (u "++")
                     (DifflibSpec.inserted_lines lines_new codes))) as G.
    destruct (greedy_pairing _ _ _) as [[rm ad] md].
    destruct G as [P1 [P2 F]].
    exists h_old, h_new, codes, rm, ad, md. auto 10.
Qed.

End CompareReport.

Lemma diffed_lines_not_blank ucd self filter_dynamic content l :
  In l (diffed_lines ucd self filter_dynamic content) -> strip l <> [].
Proof.
  unfold diffed_lines. intros H.
  assert (N : In l (_normalize_content ucd self content)).
  { destruct filter_dynamic; [|exact H].
    rewrite _filter_dynamic_content_filter in H.
    apply filter_In in H. tauto. }
  unfold _normalize_content in N. apply filter_In in N.
  destruct N as [_ N]. intros E. rewrite E in N. discriminate.
Qed.

(** X8. Every line that [compare] reports comes from the contents: a
    removed line and the old side of a modified pair are lines of the old
    content, an added line and the new side of a pair are lines of the new
    content, as normalized and filtered, and stripped; none is empty. *)
Theorem compare_reports_lines_of_the_contents
    (ucd : UnicodeData) (seed : HashSeed) (self : ContentComparator)
    (content_old content_new : str) (filter_dynamic : bool) :
  valid_seed seed -> encodable content_old -> encodable content_new ->
  exists r,
    compare ucd seed self content_old content_new filter_dynamic = Ok r
    /\ incl (removed_lines r ++ map fst (modified_lines r))
         (map strip (diffed_lines ucd self filter_dynamic content_old))
    /\ incl (added_lines r ++ map snd (modified_lines r))
         (map strip (diffed_lines ucd self filter_dynamic content_new))
    /\ ~ In [] (removed_lines r ++ map fst (modified_lines r))
    /\ ~ In [] (added_lines r ++ map snd (modified_lines r)).
Proof.
  intros V E1 E2.
  assert (S : forall content (l : list str),
             incl l (map strip (diffed_lines ucd self filter_dynamic content))
             -> ~ In [] l).
  { intros content l I H. apply I, in_map_iff in H.
    destruct H as [y [E H]].
    exact (diffed_lines_not_blank _ _ _ _ _ H E). }
  cut (exists r,
         compare ucd seed self content_old content_new filter_dynamic = Ok r
         /\ incl (removed_lines r ++ map fst (modified_lines r))
              (map strip (diffed_lines ucd self filter_dynamic content_old))
         /\ incl (added_lines r ++ map snd (modified_lines r))
              (map strip (diffed_lines ucd self filter_dynamic content_new))).
  { intros [r [C [I1 I2]]]. exists r. eauto 10. }
  clear S.
  destruct (compare_cases ucd seed self content_old content_new
              filter_dynamic V E1 E2)
    as [[h C]|[h_old [h_new [codes [rm [ad [md [_ [_ [P1 [P2 [_ C]]]]]]]]]]]];
    eexists; (split; [exact C|]).
  - split; intros x [].
  - cbn [diffed_result removed_lines added_lines modified_lines].
    split; intros x H.
    + apply (Permutation_in _ (Permutation_sym P1)) in H.
      apply DifflibCorrect.In_reported in H. destruct H as [y [H [_ E]]].
      subst x. apply in_map. eapply DifflibCorrect.In_deleted_lines.
      exact H.
    + apply (Permutation_in _ (Permutation_sym P2)) in H.
      apply DifflibCorrect.In_reported in H. destruct H as [y [H [_ E]]].
      subst x. apply in_map. eapply DifflibCorrect.In_inserted_lines.
      exact H.
Qed.

Lemma compare_reports_lines_witness :
  exists r,
    compare ascii_ucd insertion_order (new_comparator 1)
      (u "Prix : 10 EUR" ++ nl ++ u "Stock : 3" ++ nl)
      (u "Prix : 12 EUR" ++ nl ++ u "Livraison offerte" ++ nl) true = Ok r
    /\ incl (removed_lines r ++ map fst (modified_lines r))
         (map strip
            (diffed_lines ascii_ucd (new_comparator 1) true
               (u "Prix : 10 EUR" ++ nl ++ u "Stock : 3" ++ nl)))
    /\ incl (added_lines r ++ map snd (modified_lines r))
         (map strip
            (diffed_lines ascii_ucd (new_comparator 1) true
               (u "Prix : 12 EUR" ++ nl ++ u "Livraison offerte" ++ nl)))
    /\ ~ In [] (removed_lines r ++ map fst (modified_lines r))
    /\ ~ In [] (added_lines r ++ map snd (modified_lines r)).
Proof.
  apply (compare_reports_lines_of_the_contents ascii_ucd insertion_order
           (new_comparator 1)
           (u "Prix : 10 EUR" ++ nl ++ u "Stock : 3" ++ nl)
           (u "Prix : 12 EUR" ++ nl ++ u "Livraison offerte" ++ nl) true);
    [exact valid_insertion_order
     | apply encodable_forallb; vm_compute; reflexivity
     | apply encodable_forallb; vm_compute; reflexivity].
Defined.

(** X9. [compare] never counts more lines than there are: the removed
    lines and the modified pairs together are at most [total_lines_old],
    the added lines and the modified pairs together at most
    [total_lines_new]. *)
Theorem compare_counts_bounded
    (ucd : UnicodeData) (seed : HashSeed) (self : ContentComparator)
    (content_old content_new : str) (filter_dynamic : bool) :
  valid_seed seed -> encodable content_old -> encodable content_new ->
  exists r,
    compare ucd seed self content_old content_new filter_dynamic = Ok r
    /\ len (removed_lines r) + len (modified_lines r) <= total_lines_old r
    /\ len (added_lines r) + len (modified_lines r) <= total_lines_new r.
Proof.
  intros V E1 E2.
  destruct (compare_cases ucd seed self content_old content_new
              filter_dynamic V E1 E2)
    as [[h C]|[h_old [h_new [codes [rm [ad [md [_ [Tl [P1 [P2 [_ C]]]]]]]]]]]];
    eexists; (split; [exact C|]).
  - cbn [identical_result removed_lines added_lines modified_lines
         total_lines_old total_lines_new]. unfold len. cbn [List.length].
    lia.
  - cbn [diffed_result removed_lines added_lines modified_lines
         total_lines_old total_lines_new].
    apply Permutation_length in P1, P2.
    rewrite length_app, length_map in P1, P2.
    pose proof (DifflibCorrect.reported_length (u "--")
                  (DifflibSpec.deleted_lines
                     (diffed_lines ucd self filter_dynamic content_old)
                     codes)) as R1.
    pose proof (DifflibCorrect.reported_length (u "++")
                  (DifflibSpec.inserted_lines
                     (diffed_lines ucd self filter_dynamic content_new)
                     codes)) as R2.
    destruct (DifflibCorrect.tiles_counts _ _ codes 0 0 _ _ Tl)
      as [_ [_ [T1 T2]]]; unfold len in *; lia.
Qed.

Lemma compare_counts_witness :
  exists r,
    compare ascii_ucd insertion_order (new_comparator 1)
      (u "Prix : 10 EUR" ++ nl ++ u "Stock : 3" ++ nl)
      (u "Prix : 12 EUR" ++ nl ++ u "Livraison offerte" ++ nl) true = Ok r
    /\ len (removed_lines r) + len (modified_lines r) <= total_lines_old r
    /\ len (added_lines r) + len (modified_lines r) <= total_lines_new r.
Proof.
  apply (compare_counts_bounded ascii_ucd insertion_order
           (new_comparator 1)
           (u "Prix : 10 EUR" ++ nl ++ u "Stock : 3" ++ nl)
           (u "Prix : 12 EUR" ++ nl ++ u "Livraison offerte" ++ nl) true);
    [exact valid_insertion_order
     | apply encodable_forallb; vm_compute; reflexivity
     | apply encodable_forallb; vm_compute; reflexivity].
Defined.

(** X10. When the hashes differ, no line that vanished goes unreported:
    a compared line of the old content that is not a compared line of the
    new content is, stripped, a removed line or the old side of a modified
    pair, unless it starts with two minus signs; and a compared line of the
    new content that is not in the old content is an added line or the new
    side of a pair, unless it starts with two plus signs. *)
Theorem compare_reports_every_changed_line
    (ucd : UnicodeData) (seed : HashSeed) (self : ContentComparator)
    (content_old content_new : str) (filter_dynamic : bool) :
  valid_seed seed -> encodable content_old -> encodable content_new ->
  exists r,
    compare ucd seed self content_old content_new filter_dynamic = Ok r
    /\ (hash_old r <> hash_new r ->
        (forall l,
           In l (diffed_lines ucd self filter_dynamic content_old) ->
           ~ In l (diffed_lines ucd self filter_dynamic content_new) ->
           startswith (u "--") l = false ->
           In (strip l) (removed_lines r ++ map fst (modified_lines r)))
        /\ (forall l,
              In l (diffed_lines ucd self filter_dynamic content_new) ->
              ~ In l (diffed_lines ucd self filter_dynamic content_old) ->
              startswith (u "++") l = false ->
              In (strip l) (added_lines r ++ map snd (modified_lines r)))).
Proof.
  intros V E1 E2.
  destruct (compare_cases ucd seed self content_old content_new
              filter_dynamic V E1 E2)
    as [[h C]|[h_old [h_new [codes [rm [ad [md [_ [Tl [P1 [P2 [_ C]]]]]]]]]]]];
    eexists; (split; [exact C|]).
  - cbn [identical_result hash_old hash_new]. intros N. contradiction.
  - cbn [diffed_result removed_lines added_lines modified_lines].
    intros _. split; intros l H N S.
    + apply (Permutation_in _ P1). apply DifflibCorrect.In_reported.
      exists l. split; [|auto].
      rewrite <- (DifflibCorrect.slice_all
                    (diffed_lines ucd self filter_dynamic content_old)) in H.
      destruct (DifflibCorrect.tiles_cover_a _ _ codes 0 0 _ _ Tl) with (x := l)
        as [D|D]; unfold len; try lia; [exact H | exact D | contradiction].
    + apply (Permutation_in _ P2). apply DifflibCorrect.In_reported.
      exists l. split; [|auto].
      rewrite <- (DifflibCorrect.slice_all
                    (diffed_lines ucd self filter_dynamic content_new)) in H.
      destruct (DifflibCorrect.tiles_cover_b _ _ codes 0 0 _ _ Tl) with (x := l)
        as [D|D]; unfold len; try lia; [exact H | exact D | contradiction].
Qed.

Lemma compare_reports_every_changed_line_witness :
  exists r,
    compare ascii_ucd insertion_order (new_comparator 1)
      (u "Prix : 10 EUR" ++ nl ++ u "Stock : 3" ++ nl)
      (u "Prix : 12 EUR" ++ nl ++ u "Livraison offerte" ++ nl) true = Ok r
    /\ (hash_old r <> hash_new r ->
        (forall l,
           In l (diffed_lines ascii_ucd (new_comparator 1) true
                   (u "Prix : 10 EUR" ++ nl ++ u "Stock : 3" ++ nl)) ->
           ~ In l (diffed_lines ascii_ucd (new_comparator 1) true
                     (u "Prix : 12 EUR" ++ nl ++ u "Livraison offerte" ++ nl)) ->
           startswith (u "--") l = false ->
           In (strip l) (removed_lines r ++ map fst (modified_lines r)))
        /\ (forall l,
              In l (diffed_lines ascii_ucd (new_comparator 1) true
                      (u "Prix : 12 EUR" ++ nl ++ u "Livraison offerte" ++ nl)) ->
              ~ In l (diffed_lines ascii_ucd (new_comparator 1) true
                        (u "Prix : 10 EUR" ++ nl ++ u "Stock : 3" ++ nl)) ->
              startswith (u "++") l = false ->
              In (strip l) (added_lines r ++ map snd (modified_lines r)))).
Proof.
  apply (compare_reports_every_changed_line ascii_ucd insertion_order
           (new_comparator 1)
           (u "Prix : 10 EUR" ++ nl ++ u "Stock : 3" ++ nl)
           (u "Prix : 12 EUR" ++ nl ++ u "Livraison offerte" ++ nl) true);
    [exact valid_insertion_order
     | apply encodable_forallb; vm_compute; reflexivity
     | apply encodable_forallb; vm_compute; reflexivity].
Defined.

(** ** Contents that compare equal *)

(** A score with no changed line does not exceed a threshold that is not
    negative, whatever the number of lines it is divided by. *)
Lemma zero_score_below (t y : float) :
  (0 <=? t)%float = true ->
  (t <? float_of_int 0 / y * 100)%float = false.
Proof.
  intros H. rewrite FloatAxioms.leb_spec in H.
  rewrite FloatAxioms.ltb_spec, FloatAxioms.mul_spec, FloatAxioms.div_spec.
  replace (Prim2SF (float_of_int 0)) with (S754_zero false)
    by (vm_compute; reflexivity).
  replace (Prim2SF 0) with (S754_zero false) in H
    by (vm_compute; reflexivity).
  replace (Prim2SF 100) with (S754_finite false 7036874417766400 (-46))
    by (vm_compute; reflexivity).
  unfold SF64mul, SF64div.
  destruct (Prim2SF y) as [sy|sy| |sy my ey];
    destruct (Prim2SF t) as [st|st| |st mt et];
    cbn [SFdiv SFmul xorb] in *;
    try reflexivity;
    unfold SFleb, SFltb in *; cbn [SFcompare] in *;
    try reflexivity; try discriminate;
    destruct st; try reflexivity; try discriminate;
    destruct sy; try reflexivity; try discriminate.
Qed.

Lemma concat_splitlines_keepends_from k : forall s cur,
  (List.length s <= k)%nat ->
  concat (splitlines_keepends_from cur s) = rev cur ++ s.
Proof.
  induction k as [|k IH]; intros s cur L.
  - destruct s; [|cbn [List.length] in L; lia].
    cbn [splitlines_keepends_from].
    destruct cur; cbn [concat rev app]; rewrite ?app_nil_r; reflexivity.
  - destruct s as [|c s]; cbn [splitlines_keepends_from].
    + destruct cur; cbn [concat rev app]; rewrite ?app_nil_r; reflexivity.
    + cbn [List.length] in L. destruct (is_linebreak c).
      * destruct s as [|d s'].
        -- cbn [concat splitlines_keepends_from rev app].
           rewrite app_nil_r. reflexivity.
        -- cbn [List.length] in L.
           destruct ((c =? 13) && (d =? 10)); cbn [concat].
           ++ rewrite (IH s' []) by lia. cbn [rev app].
              rewrite <- !app_assoc. reflexivity.
           ++ rewrite (IH (d :: s') []) by (cbn [List.length]; lia).
              cbn [rev app]. rewrite <- !app_assoc. reflexivity.
      * rewrite IH by lia. cbn [rev]. rewrite <- app_assoc. reflexivity.
Qed.

(** Joining the lines that [splitlines(keepends=True)] returns gives the
    string back. *)
Lemma concat_splitlines_keepends s : concat (splitlines_keepends s) = s.
Proof.
  unfold splitlines_keepends.
  apply (concat_splitlines_keepends_from (List.length s)). apply Nat.le_refl.
Qed.

(** X11. [get_detailed_diff] returns the empty string exactly when the two
    contents are the same string. *)
Theorem get_detailed_diff_empty_iff_equal
    (seed : HashSeed) (content_old content_new : str) :
  valid_seed seed ->
  get_detailed_diff seed content_old content_new = Ok []
  <-> content_old = content_new.
Proof.
  intros V. unfold get_detailed_diff. split.
  - destruct (DifflibNamed.unified_diff seed _ _ _ _ _ _) as [diff| |] eqn:D;
      cbn [bind]; try discriminate.
    intros H. inversion H as [C]. clear H.
    apply (DifflibCorrect.named_unified_diff_nil _ _ _ _ _ _ _ _ V D) in C.
    rewrite <- (concat_splitlines_keepends content_old),
      <- (concat_splitlines_keepends content_new), C.
    reflexivity.
  - intros ->.
    rewrite DifflibCorrect.named_unified_diff_same by (assumption || lia).
    reflexivity.
Qed.

Lemma get_detailed_diff_witness :
  get_detailed_diff insertion_order
    (u "Prix : 10 EUR" ++ nl ++ u "Stock : 3")
    (u "Prix : 10 EUR" ++ nl ++ u "Stock : 3") = Ok []
  <-> u "Prix : 10 EUR" ++ nl ++ u "Stock : 3"
      = u "Prix : 10 EUR" ++ nl ++ u "Stock : 3".
Proof.
  apply (get_detailed_diff_empty_iff_equal insertion_order
           (u "Prix : 10 EUR" ++ nl ++ u "Stock : 3")
           (u "Prix : 10 EUR" ++ nl ++ u "Stock : 3")).
  exact valid_insertion_order.
Defined.

(** X12. Two contents whose compared lines are the same, after the
    normalization and the filtering, give a report without any line, and,
    the threshold not being negative, without changes: whitespace, blank
    lines and dynamic lines alone never raise an alert. *)
Theorem compare_same_lines
    (ucd : UnicodeData) (seed : HashSeed) (self : ContentComparator)
    (content_old content_new : str) (filter_dynamic : bool) :
  valid_seed seed -> encodable content_old -> encodable content_new ->
  diffed_lines ucd self filter_dynamic content_old
  = diffed_lines ucd self filter_dynamic content_new ->
  exists r,
    compare ucd seed self content_old content_new filter_dynamic = Ok r
    /\ added_lines r = [] /\ removed_lines r = [] /\ modified_lines r = []
    /\ ((0 <=? threshold self)%float = true -> has_changes r = false).
Proof.
  intros V E1 E2 L.
  destruct (_hash_ok content_old E1) as [h_old H1].
  destruct (_hash_ok content_new E2) as [h_new H2].
  destruct (list_eq_dec Z.eq_dec h_old h_new) as [Heq|Hne].
  - subst h_new. eexists. split.
    + apply (compare_identical _ _ _ _ _ _ h_old); assumption.
    + cbn [identical_result added_lines removed_lines modified_lines
           has_changes]. auto.
  - destruct (compare_diffed_ok ucd seed self content_old content_new
                filter_dynamic h_old h_new V H1 H2 Hne) as [diff [D C]].
    rewrite L, DifflibCorrect.unified_diff_same in D by (assumption || lia).
    inversion D; subst diff. clear D.
    eexists. split; [exact C|].
    cbn [parse_diff fst snd greedy_pairing diffed_result added_lines
         removed_lines modified_lines has_changes].
    repeat split. intros T0. unfold score_of.
    apply zero_score_below. exact T0.
Qed.

Lemma compare_same_lines_witness :
  exists r,
    compare ascii_ucd insertion_order (new_comparator 1)
      (u "Prix : 10 EUR" ++ nl ++ u "Mis a jour le 2024-01-01" ++ nl)
      (u "Prix  :  10 EUR" ++ nl ++ nl ++ u "Mis a jour le 2024-02-03" ++ nl)
      true = Ok r
    /\ added_lines r = [] /\ removed_lines r = [] /\ modified_lines r = []
    /\ ((0 <=? threshold (new_comparator 1))%float = true ->
        has_changes r = false).
Proof.
  apply (compare_same_lines ascii_ucd insertion_order (new_comparator 1)
           (u "Prix : 10 EUR" ++ nl ++ u "Mis a jour le 2024-01-01" ++ nl)
           (u "Prix  :  10 EUR" ++ nl ++ nl
              ++ u "Mis a jour le 2024-02-03" ++ nl) true);
    [exact valid_insertion_order
     | apply encodable_forallb; vm_compute; reflexivity
     | apply encodable_forallb; vm_compute; reflexivity
     | vm_compute; reflexivity].
Defined.

(** ** Lines that are paired *)

Lemma zero_ratio_below (y : float) :
  (0x1.6666666666666p-1 <=? 2 * float_of_int 0 / y)%float = false.
Proof.
  rewrite FloatAxioms.leb_spec, FloatAxioms.div_spec.
  replace (Prim2SF (2 * float_of_int 0)) with (S754_zero false)
    by (vm_compute; reflexivity).
  replace (Prim2SF 0x1.6666666666666p-1)
    with (S754_finite false 6305039478318694 (-53))
    by (vm_compute; reflexivity).
  unfold SF64div.
  destruct (Prim2SF y) as [sy|sy| |sy my ey]; cbn [SFdiv xorb];
    try reflexivity; destruct sy; reflexivity.
Qed.

(** Two strings without a common character, one of them not empty, are
    not similar. *)
Lemma _are_similar_disjoint seed (str1 str2 : str) :
  valid_seed seed ->
  (forall c, In c str1 -> ~ In c str2) ->
  str1 <> [] \/ str2 <> [] ->
  _are_similar seed str1 str2 = Ok false.
Proof.
  intros V D N. unfold _are_similar, Difflib.ratio.
  destruct (DifflibFacts.get_matching_blocks_ok Z.eqb Z.eqb_eq str1 str2
              seed V) as [blocks B].
  rewrite B. cbn [bind].
  rewrite (DifflibCorrect.sum_sizes_zero blocks 0)
    by (exact (DifflibCorrect.get_matching_blocks_disjoint Z.eqb Z.eqb_eq
                 seed V str1 str2 D blocks B)).
  match goal with
  | |- context [if ?c then _ else _] => destruct c eqn:L
  end.
  - apply Z.eqb_eq in L. exfalso.
    destruct str1, str2; cbn [List.length] in L; try lia.
    destruct N as [N|N]; apply N; reflexivity.
  - cbn [bind]. rewrite zero_ratio_below. reflexivity.
Qed.

(** X13. The two lines of a modified pair have a character in common:
    lines that share nothing are never paired. *)
Theorem compare_pairs_share_a_character
    (ucd : UnicodeData) (seed : HashSeed) (self : ContentComparator)
    (content_old content_new : str) (filter_dynamic : bool) :
  valid_seed seed -> encodable content_old -> encodable content_new ->
  exists r,
    compare ucd seed self content_old content_new filter_dynamic = Ok r
    /\ Forall (fun p => exists c, In c (fst p) /\ In c (snd p))
         (modified_lines r).
Proof.
  intros V E1 E2.
  destruct (compare_cases ucd seed self content_old content_new
              filter_dynamic V E1 E2)
    as [[h C]|[h_old [h_new [codes [rm [ad [md [_ [_ [P1 [_ [F C]]]]]]]]]]]];
    eexists; (split; [exact C|]).
  - constructor.
  - cbn [diffed_result modified_lines].
    rewrite Forall_forall in *. intros [o n] Hp. cbn [fst snd].
    specialize (F _ Hp). cbn [fst snd] in F.
    destruct (existsb (fun c => existsb (Z.eqb c) n) o) eqn:X.
    + apply existsb_exists in X. destruct X as [c [H1 H2]].
      apply existsb_exists in H2. destruct H2 as [c' [H2 H3]].
      apply Z.eqb_eq in H3. subst c'. eauto.
    + exfalso.
      assert (D : forall c, In c o -> ~ In c n).
      { intros c H1 H2.
        assert (Y : existsb (fun c => existsb (Z.eqb c) n) o = true).
        { apply existsb_exists. exists c. split; [exact H1|].
          apply existsb_exists. exists c. split; [exact H2|].
          apply Z.eqb_refl. }
        rewrite Y in X. discriminate. }
      assert (N : o <> []).
      { assert (I : In o (rm ++ map fst md)).
        { apply in_or_app. right.
          apply (in_map fst md (o, n)). exact Hp. }
        apply (Permutation_in _ (Permutation_sym P1)) in I.
        apply DifflibCorrect.In_reported in I.
        destruct I as [l [I [_ E]]]. subst o.
        apply DifflibCorrect.In_deleted_lines in I.
        eapply diffed_lines_not_blank. exact I. }
      unfold similar in F.
      rewrite (_are_similar_disjoint seed o n V D (or_introl N)) in F.
      discriminate.
Qed.

Lemma compare_pairs_witness :
  exists r,
    compare ascii_ucd insertion_order (new_comparator 1)
      (u "Prix : 10 EUR" ++ nl ++ u "Stock : 3" ++ nl)
      (u "Prix : 12 EUR" ++ nl ++ u "Livraison offerte" ++ nl) true = Ok r
    /\ Forall (fun p => exists c, In c (fst p) /\ In c (snd p))
         (modified_lines r).
Proof.
  apply (compare_pairs_share_a_character ascii_ucd insertion_order
           (new_comparator 1)
           (u "Prix : 10 EUR" ++ nl ++ u "Stock : 3" ++ nl)
           (u "Prix : 12 EUR" ++ nl ++ u "Livraison offerte" ++ nl) true);
    [exact valid_insertion_order
     | apply encodable_forallb; vm_compute; reflexivity
     | apply encodable_forallb; vm_compute; reflexivity].
Defined.

(** ** The detailed diff of two different contents *)

Lemma named_groups_lines_shape lineterm a b groups :
  Forall (fun g => g <> []) groups ->
  exists body,
    DifflibNamed.groups_lines lineterm a b groups = Ok body
    /\ (groups = [] \/ exists rest body', body = (u "@@ -" ++ rest) :: body').
Proof.
  induction 1 as [|g groups Hg Hgs [more [IH _]]];
    cbn [DifflibNamed.groups_lines]; [eauto|].
  unfold DifflibNamed.group_lines.
  destruct (getitem_ok g 0) as [[[[[t1 f1] f2] f3] f4] E1].
  { destruct g; [congruence | cbn [List.length]; lia]. }
  destruct (getitem_last_ok g Hg) as [[[[[t2 l1] l2] l3] l4] E2].
  rewrite E1, E2. cbn [bind]. rewrite IH. cbn [bind].
  eexists. split; [reflexivity|]. right.
  rewrite <- app_comm_cons. eauto.
Qed.

Lemma named_unified_diff_shape seed a b fromfile tofile n lineterm :
  valid_seed seed ->
  exists diff,
    DifflibNamed.unified_diff seed a b fromfile tofile n lineterm = Ok diff
    /\ (diff = []
        \/ exists rest body,
             diff = (u "--- " ++ fromfile ++ lineterm)
                      :: (u "+++ " ++ tofile ++ lineterm)
                      :: (u "@@ -" ++ rest) :: body).
Proof.
  intros V. unfold DifflibNamed.unified_diff.
  destruct (DifflibFacts.get_opcodes_ok str_eqb str_eqb_eq a b seed V)
    as [codes E].
  rewrite E. cbn [bind].
  destruct (named_groups_lines_shape lineterm a b
              (Difflib.grouped n codes) (DifflibFacts.grouped_nonempty n codes))
    as [body [E' S]].
  rewrite E'. cbn [bind].
  destruct (Difflib.grouped n codes) as [|g gs]; [eauto|].
  destruct S as [S|[rest [body' S]]]; [discriminate|]. subst body.
  eexists. split; [reflexivity|]. right. eauto.
Qed.

(** X14. For two different contents, [get_detailed_diff] returns a text
    that begins with the two file headers, "--- ancien" and "+++ nouveau",
    each on a line, and the start of a hunk header. *)
Theorem get_detailed_diff_headers
    (seed : HashSeed) (content_old content_new : str) :
  valid_seed seed -> content_old <> content_new ->
  exists rest,
    get_detailed_diff seed content_old content_new
    = Ok (u "--- ancien" ++ nl ++ u "+++ nouveau" ++ nl ++ u "@@ -" ++ rest).
Proof.
  intros V N. unfold get_detailed_diff.
  destruct (named_unified_diff_shape seed
              (splitlines_keepends content_old)
              (splitlines_keepends content_new)
              (u "ancien") (u "nouveau") 3 nl V) as [diff [D S]].
  rewrite D. cbn [bind]. destruct S as [S|[rest [body S]]].
  - exfalso. apply N. subst diff.
    rewrite <- (concat_splitlines_keepends content_old),
      <- (concat_splitlines_keepends content_new).
    f_equal.
    exact (DifflibCorrect.named_unified_diff_nil _ _ _ _ _ _ _ _ V D
             eq_refl).
  - subst diff. exists (rest ++ concat body). cbn [concat].
    change (u "--- ancien") with (u "--- " ++ u "ancien").
    change (u "+++ nouveau") with (u "+++ " ++ u "nouveau").
    rewrite <- !app_assoc. reflexivity.
Qed.

Lemma get_detailed_diff_headers_witness :
  exists rest,
    get_detailed_diff insertion_order (u "a" ++ nl) (u "b" ++ nl)
    = Ok (u "--- ancien" ++ nl ++ u "+++ nouveau" ++ nl ++ u "@@ -" ++ rest).
Proof.
  apply (get_detailed_diff_headers insertion_order (u "a" ++ nl)
           (u "b" ++ nl));
    [exact valid_insertion_order | vm_compute; discriminate].
Defined.

(** ** The summary *)




(** ** The threshold *)

Lemma SFcompare_le_lt_trans x y z :
  SFcompare x y = Some Lt \/ SFcompare x y = Some Eq ->
  SFcompare y z = Some Lt ->
  SFcompare x z = Some Lt.
Proof.
  destruct x as [sx|sx| |sx mx ex], y as [sy|sy| |sy my ey],
    z as [sz|sz| |sz mz ez]; cbn [SFcompare];
    intros Hxy Hyz;
    try discriminate; try (destruct Hxy; discriminate);
    try (destruct sx, sy, sz;
         solve [reflexivity | discriminate | destruct Hxy; discriminate]);
    try (destruct sx, sz;
         solve [reflexivity | discriminate | destruct Hxy; discriminate]);
    try (destruct sx, sy;
         solve [reflexivity | discriminate | destruct Hxy; discriminate]);
    try (destruct sy, sz;
         solve [reflexivity | discriminate | destruct Hxy; discriminate]).
  change (PosDef.Pos.compare_cont Eq mx my) with (Pos.compare mx my) in *.
  change (PosDef.Pos.compare_cont Eq my mz) with (Pos.compare my mz) in *.
  change (PosDef.Pos.compare_cont Eq mx mz) with (Pos.compare mx mz) in *.
  destruct sx, sy, sz;
    try solve [reflexivity | discriminate | destruct Hxy; discriminate];
    destruct (Z.compare_spec ex ey), (Z.compare_spec ey ez),
      (Z.compare_spec ex ez);
    try solve [reflexivity | discriminate | destruct Hxy; discriminate
               | exfalso; lia];
    destruct (Pos.compare_spec mx my), (Pos.compare_spec my mz),
      (Pos.compare_spec mx mz);
    cbn [CompOpp] in *;
    try solve [reflexivity | discriminate | destruct Hxy; discriminate
               | exfalso; lia].
Qed.

(** A score above a threshold is above every lower threshold. *)
Lemma float_leb_ltb_trans (a b c : float) :
  (a <=? b)%float = true -> (b <? c)%float = true -> (a <? c)%float = true.
Proof.
  rewrite FloatAxioms.leb_spec, !FloatAxioms.ltb_spec. unfold SFleb, SFltb.
  intros H1 H2.
  rewrite (SFcompare_le_lt_trans (Prim2SF a) (Prim2SF b) (Prim2SF c));
    [reflexivity | |].
  - destruct (SFcompare (Prim2SF a) (Prim2SF b)) as [[| |]|];
      try discriminate; auto.
  - destruct (SFcompare (Prim2SF b) (Prim2SF c)) as [[| |]|];
      try discriminate; reflexivity.
Qed.

Lemma diffed_lines_flags ucd self1 self2 filter_dynamic content :
  ignore_whitespace self1 = ignore_whitespace self2 ->
  ignore_case self1 = ignore_case self2 ->
  diffed_lines ucd self1 filter_dynamic content
  = diffed_lines ucd self2 filter_dynamic content.
Proof.
  intros W C. unfold diffed_lines, _normalize_content. rewrite W, C.
  reflexivity.
Qed.

(** X16. The threshold decides [has_changes] and nothing else: two
    comparators with the same flags return the same lines, pairs, score,
    summary, counts and hashes, and a result that has changes for a
    threshold has changes for every lower threshold. *)
Theorem compare_threshold_monotone
    (ucd : UnicodeData) (seed : HashSeed) (self1 self2 : ContentComparator)
    (content_old content_new : str) (filter_dynamic : bool) :
  valid_seed seed -> encodable content_old -> encodable content_new ->
  ignore_whitespace self1 = ignore_whitespace self2 ->
  ignore_case self1 = ignore_case self2 ->
  (threshold self2 <=? threshold self1)%float = true ->
  exists r1 r2,
    compare ucd seed self1 content_old content_new filter_dynamic = Ok r1
    /\ compare ucd seed self2 content_old content_new filter_dynamic = Ok r2
    /\ change_score r1 = change_score r2
    /\ added_lines r1 = added_lines r2
    /\ removed_lines r1 = removed_lines r2
    /\ modified_lines r1 = modified_lines r2
    /\ diff_summary r1 = diff_summary r2
    /\ total_lines_old r1 = total_lines_old r2
    /\ total_lines_new r1 = total_lines_new r2
    /\ hash_old r1 = hash_old r2 /\ hash_new r1 = hash_new r2
    /\ (has_changes r1 = true -> has_changes r2 = true).
Proof.
  intros V E1 E2 W C T.
  destruct (_hash_ok content_old E1) as [h_old H1].
  destruct (_hash_ok content_new E2) as [h_new H2].
  destruct (list_eq_dec Z.eq_dec h_old h_new) as [Heq|Hne].
  - subst h_new. eexists. eexists.
    split; [apply (compare_identical _ _ _ _ _ _ h_old); assumption|].
    split; [apply (compare_identical _ _ _ _ _ _ h_old); assumption|].
    cbn [identical_result change_score added_lines removed_lines
         modified_lines diff_summary total_lines_old total_lines_new
         hash_old hash_new has_changes].
    repeat split. discriminate.
  - destruct (compare_diffed_ok ucd seed self1 content_old content_new
                filter_dynamic h_old h_new V H1 H2 Hne) as [d1 [D1 C1]].
    destruct (compare_diffed_ok ucd seed self2 content_old content_new
                filter_dynamic h_old h_new V H1 H2 Hne) as [d2 [D2 C2]].
    rewrite !(diffed_lines_flags ucd self1 self2 filter_dynamic) in *
      by assumption.
    rewrite D1 in D2. inversion D2; subst d2. clear D2.
    eexists. eexists. split; [exact C1|]. split; [exact C2|].
    destruct (greedy_pairing _ _ _) as [[rm ad] md].
    cbn [diffed_result change_score added_lines removed_lines
         modified_lines diff_summary total_lines_old total_lines_new
         hash_old hash_new has_changes].
    repeat split. apply float_leb_ltb_trans. exact T.
Qed.

Lemma compare_threshold_witness :
  exists r1 r2,
    compare ascii_ucd insertion_order (new_comparator 10)
      (u "Prix : 10 EUR" ++ nl ++ u "Stock : 3" ++ nl)
      (u "Prix : 12 EUR" ++ nl ++ u "Livraison offerte" ++ nl) true = Ok r1
    /\ compare ascii_ucd insertion_order (new_comparator 1)
         (u "Prix : 10 EUR" ++ nl ++ u "Stock : 3" ++ nl)
         (u "Prix : 12 EUR" ++ nl ++ u "Livraison offerte" ++ nl) true
       = Ok r2
    /\ change_score r1 = change_score r2
    /\ added_lines r1 = added_lines r2
    /\ removed_lines r1 = removed_lines r2
    /\ modified_lines r1 = modified_lines r2
    /\ diff_summary r1 = diff_summary r2
    /\ total_lines_old r1 = total_lines_old r2
    /\ total_lines_new r1 = total_lines_new r2
    /\ hash_old r1 = hash_old r2 /\ hash_new r1 = hash_new r2
    /\ (has_changes r1 = true -> has_changes r2 = true).
Proof.
  apply (compare_threshold_monotone ascii_ucd insertion_order
           (new_comparator 10) (new_comparator 1)
           (u "Prix : 10 EUR" ++ nl ++ u "Stock : 3" ++ nl)
           (u "Prix : 12 EUR" ++ nl ++ u "Livraison offerte" ++ nl) true);
    [exact valid_insertion_order
     | apply encodable_forallb; vm_compute; reflexivity
     | apply encodable_forallb; vm_compute; reflexivity
     | reflexivity | reflexivity | vm_compute; reflexivity].
Defined.

(** ** Normalizing twice *)

Lemma linebreak_whitespace c : is_linebreak c = true -> is_whitespace c = true.
Proof. unfold is_linebreak, is_whitespace. lia. Qed.

Lemma splitlines_from_line l : forall cur s,
  Forall (fun c => is_linebreak c = false) l ->
  splitlines_from cur (l ++ s) = splitlines_from (rev l ++ cur) s.
Proof.
  induction l as [|c l IH]; intros cur s F; [reflexivity|].
  inversion F as [|? ? Fc Fl]; subst. cbn [app splitlines_from rev].
  rewrite Fc, IH by exact Fl. rewrite <- app_assoc. reflexivity.
Qed.

(** Lines without a boundary, none empty, joined by line feeds: splitting
    gives them back. *)
Lemma splitlines_join lines :
  Forall (fun l => l <> [] /\ Forall (fun c => is_linebreak c = false) l)
    lines ->
  splitlines (join nl lines) = lines.
Proof.
  unfold splitlines.
  induction lines as [|l lines IH]; intros F; [reflexivity|].
  inversion F as [|? ? [N Fl] F']; subst.
  assert (R : rev l <> []).
  { intros E. apply N. rewrite <- (rev_involutive l), E. reflexivity. }
  destruct lines as [|l' lines'].
  - cbn [join]. rewrite <- (app_nil_r l) at 1.
    rewrite splitlines_from_line by exact Fl. cbn [splitlines_from].
    rewrite app_nil_r. destruct (rev l) as [|c r] eqn:E; [contradiction|].
    rewrite <- E, rev_involutive. reflexivity.
  - change (join nl (l :: l' :: lines'))
      with (l ++ 10 :: join nl (l' :: lines')).
    rewrite splitlines_from_line by exact Fl.
    cbn [splitlines_from]. change (is_linebreak 10) with true. cbv iota.
    rewrite app_nil_r, rev_involutive. f_equal.
    specialize (IH F').
    destruct (join nl (l' :: lines')); exact IH.
Qed.

Lemma splitlines_from_no_boundary k : forall s cur,
  (List.length s <= k)%nat ->
  Forall (fun c => is_linebreak c = false) cur ->
  Forall (Forall (fun c => is_linebreak c = false)) (splitlines_from cur s).
Proof.
  induction k as [|k IH]; intros s cur L F.
  - destruct s; [|cbn [List.length] in L; lia].
    cbn [splitlines_from]. destruct cur; [constructor|].
    constructor; [apply Forall_rev; exact F | constructor].
  - destruct s as [|c s]; cbn [splitlines_from].
    + destruct cur; [constructor|].
      constructor; [apply Forall_rev; exact F | constructor].
    + cbn [List.length] in L. destruct (is_linebreak c) eqn:B.
      * constructor; [apply Forall_rev; exact F|].
        destruct s as [|d s']; [apply IH; [cbn [List.length]; lia | constructor]|].
        cbn [List.length] in L.
        destruct ((c =? 13) && (d =? 10));
          apply IH; try constructor; cbn [List.length]; lia.
      * apply IH; [lia | constructor; assumption].
Qed.

Lemma split_from_word w : forall cur s,
  Forall (fun c => is_whitespace c = false) w ->
  split_from cur (w ++ s) = split_from (rev w ++ cur) s.
Proof.
  induction w as [|c w IH]; intros cur s F; [reflexivity|].
  inversion F as [|? ? Fc Fw]; subst. cbn [app split_from rev].
  rewrite Fc, IH by exact Fw. rewrite <- app_assoc. reflexivity.
Qed.

(** Words joined by single spaces: splitting gives them back. *)
Lemma split_join words :
  Forall is_word words -> split (join (u " ") words) = words.
Proof.
  unfold split.
  induction words as [|w words IH]; intros F; [reflexivity|].
  inversion F as [|? ? [N Fw] F']; subst.
  assert (R : rev w <> []).
  { intros E. apply N. rewrite <- (rev_involutive w), E. reflexivity. }
  destruct words as [|w' words'].
  - cbn [join]. rewrite <- (app_nil_r w) at 1.
    rewrite split_from_word by exact Fw. cbn [split_from].
    rewrite app_nil_r. destruct (rev w) as [|c r] eqn:E; [contradiction|].
    rewrite <- E, rev_involutive. reflexivity.
  - change (join (u " ") (w :: w' :: words'))
      with (w ++ 32 :: join (u " ") (w' :: words')).
    rewrite split_from_word by exact Fw.
    cbn [split_from]. change (is_whitespace 32) with true. cbv iota.
    rewrite app_nil_r. destruct (rev w) as [|c r] eqn:E; [contradiction|].
    rewrite <- E, rev_involutive. f_equal. exact (IH F').
Qed.

Lemma join_words_no_boundary words :
  Forall is_word words ->
  Forall (fun c => is_linebreak c = false) (join (u " ") words).
Proof.
  assert (W : forall w, is_word w -> Forall (fun c => is_linebreak c = false) w).
  { intros w [_ F]. eapply Forall_impl; [|exact F].
    intros c Hc. destruct (is_linebreak c) eqn:B; [|reflexivity].
    apply linebreak_whitespace in B. congruence. }
  induction words as [|w [|w' words'] IH]; intros F; [constructor| |].
  - inversion F; subst. cbn [join]. apply W. assumption.
  - inversion F as [|? ? Hw F']; subst.
    change (join (u " ") (w :: w' :: words'))
      with (w ++ 32 :: join (u " ") (w' :: words')).
    apply Forall_app. split; [apply W; exact Hw|].
    constructor; [reflexivity | exact (IH F')].
Qed.

Lemma filter_all {A : Type} (p : A -> bool) l :
  Forall (fun x => p x = true) l -> filter p l = l.
Proof.
  induction 1 as [|x l Hx Hl IH]; cbn [filter]; [reflexivity|].
  rewrite Hx, IH. reflexivity.
Qed.

(** X17. Without [ignore_case], normalizing is idempotent: the lines that
    [_normalize_content] returns, joined by line feeds, are normalized to
    themselves. *)
Theorem _normalize_content_idempotent
    (ucd : UnicodeData) (self : ContentComparator) (content : str) :
  ignore_case self = false ->
  _normalize_content ucd self
    (join nl (_normalize_content ucd self content))
  = _normalize_content ucd self content.
Proof.
  intros C.
  set (L := _normalize_content ucd self content).
  assert (T : Forall (fun l => truthy (strip l) = true) L).
  { apply Forall_forall. intros l H. subst L. unfold _normalize_content in H.
    apply filter_In in H. tauto. }
  assert (N : Forall (fun l => l <> []) L).
  { eapply Forall_impl; [|exact T]. intros l H E. subst l. discriminate H. }
  assert (S : Forall (fun l => Forall (fun c => is_linebreak c = false) l
                               /\ (ignore_whitespace self = true ->
                                   join (u " ") (split l) = l)) L).
  { apply Forall_forall. intros l H. subst L. unfold _normalize_content in H.
    apply filter_In in H. destruct H as [H _]. rewrite C in H.
    destruct (ignore_whitespace self).
    - apply in_map_iff in H. destruct H as [x [E _]]. subst l.
      pose proof (split_from_words [] x (Forall_nil _)) as W.
      fold (split x) in W. split.
      + apply join_words_no_boundary. exact W.
      + intros _. rewrite split_join by exact W. reflexivity.
    - split; [|discriminate].
      pose proof (splitlines_from_no_boundary (List.length content) content []
                    (Nat.le_refl _) (Forall_nil _)) as B.
      rewrite Forall_forall in B. apply B. exact H. }
  unfold _normalize_content at 1. rewrite C.
  rewrite splitlines_join.
  2:{ rewrite Forall_forall in *. intros l H. split; [apply N | apply S]; exact H. }
  assert (M : (if ignore_whitespace self
               then map (fun line => join (u " ") (split line)) L
               else L) = L).
  { destruct (ignore_whitespace self); [|reflexivity].
    rewrite <- (map_id L) at 2. apply map_ext_in.
    intros l H. rewrite Forall_forall in S. apply S; [exact H | reflexivity]. }
  rewrite M. apply filter_all. exact T.
Qed.

Lemma _normalize_content_idempotent_witness :
  _normalize_content ascii_ucd (new_comparator 1)
    (join nl (_normalize_content ascii_ucd (new_comparator 1)
                (u "  Prix :   99 EUR  " ++ nl ++ nl ++ u "Plan" ++ nl)))
  = _normalize_content ascii_ucd (new_comparator 1)
      (u "  Prix :   99 EUR  " ++ nl ++ nl ++ u "Plan" ++ nl).
Proof.
  apply _normalize_content_idempotent. reflexivity.
Defined.
